(** * lang-check: a shallow embedding of [lang/lang-check.py]

    The script reads a language file in frames of four lines (display
    definition, source text, translated text, blank line), wraps both texts
    to the display geometry with [textwrap.TextWrapper] and prints
    diagnostics.  This development embeds the script together with the parts
    of the Python runtime it calls ([str] methods, [int], the
    [unicode_escape] codec, [textwrap], [argparse]'s [error]) and proves
    properties of the embedding.

    Conventions.
    - A Python [str] is a list of code points ([pystr]); a Python [int] is a
      [Z].  A width above [sys.maxsize] is refused as the runtime refuses
      it; running out of memory and the interpreter's configurable limit on
      integer/string conversion are not modelled.
    - What depends on the Unicode character database (alphanumeric and
      decimal code points above ASCII, character names) is taken from a
      [UnicodeData] instance; every general theorem holds for all instances.
    - [stdout] is the list of printed lines, in order; [print] raises
      [UnicodeEncodeError] on a line that the encoding of [stdout] does not
      have (a lone surrogate under UTF-8).  What depends on the platform
      (that encoding, [sys.maxsize]) is taken from a [Platform] instance.
      An exception is a value of [exn]; a computation returns an [outcome].
    - The two loops that are not structurally recursive ([parse_txt]'s
      [while True] and [_wrap_chunks]) take fuel; [Timeout] is the outcome of
      running out of it, and the fuel the callers pass is proved sufficient. *)

From Stdlib Require Import String Ascii DecimalString.
From Stdlib Require Import List ZArith NArith Lia Bool Sorted.
Import ListNotations.
Local Open Scope Z_scope.

(** ** Strings and integers *)

Definition char := N.
Definition pystr := list char.

Definition str (s : string) : pystr := map N_of_ascii (list_ascii_of_string s).

Definition len {A : Type} (l : list A) : Z := Z.of_nat (length l).

Definition chr_eqb (a b : char) : bool := N.eqb a b.

Fixpoint str_eqb (a b : pystr) : bool :=
  match a, b with
  | [], [] => true
  | x :: a', y :: b' => chr_eqb x y && str_eqb a' b'
  | _, _ => false
  end.

Definition c_tab : char := 9%N.
Definition c_lf : char := 10%N.
Definition c_cr : char := 13%N.
Definition c_space : char := 32%N.
Definition c_quote : char := 34%N.
Definition c_percent : char := 37%N.
Definition c_apostrophe : char := 39%N.
Definition c_hyphen : char := 45%N.
Definition c_dot : char := 46%N.
Definition c_equals : char := 61%N.
Definition c_question : char := 63%N.
Definition c_backslash : char := 92%N.
Definition c_underscore : char := 95%N.
Definition c_esc : char := 27%N.

(** [str(n)] and ['%d' % n] for an integer. *)
Definition str_of_Z (n : Z) : pystr := str (NilZero.string_of_int (Z.to_int n)).

(** [''.join(l)] and [sep.join(l)]. *)
Definition join (l : list pystr) : pystr := concat l.

Fixpoint join_with (sep : pystr) (l : list pystr) : pystr :=
  match l with
  | [] => []
  | [x] => x
  | x :: l' => x ++ sep ++ join_with sep l'
  end.

(** [s.split(sep)] for a one-character separator: every occurrence splits,
    empty pieces are kept.  [cur] is the current piece, reversed. *)
Fixpoint split_on (sep : char) (cur : pystr) (s : pystr) : list pystr :=
  match s with
  | [] => [rev cur]
  | c :: r => if chr_eqb c sep then rev cur :: split_on sep [] r
              else split_on sep (c :: cur) r
  end.

Definition py_split (sep : char) (s : pystr) : list pystr := split_on sep [] s.

(** [s.lstrip], [s.rstrip], [s.strip] over a set of characters given as a
    predicate. *)
Fixpoint lstrip_by (p : char -> bool) (s : pystr) : pystr :=
  match s with
  | c :: r => if p c then lstrip_by p r else s
  | [] => []
  end.

Definition rstrip_by (p : char -> bool) (s : pystr) : pystr :=
  rev (lstrip_by p (rev s)).

Definition strip_by (p : char -> bool) (s : pystr) : pystr :=
  rstrip_by p (lstrip_by p s).

(** [s.strip(chars)]. *)
Definition strip_chars (chars : pystr) (s : pystr) : pystr :=
  strip_by (fun c => existsb (chr_eqb c) chars) s.

(** [str.isspace] on one code point (Py_UNICODE_ISSPACE). *)
Definition py_isspace (c : char) : bool :=
  ((9 <=? c) && (c <=? 13) || (28 <=? c) && (c <=? 32) || (c =? 133)
   || (c =? 160) || (c =? 5760) || (8192 <=? c) && (c <=? 8202)
   || (c =? 8232) || (c =? 8233) || (c =? 8239) || (c =? 8287)
   || (c =? 12288))%N.

(** [s.strip()]. *)
Definition strip (s : pystr) : pystr := strip_by py_isspace s.

(** [s.count(c)] for a one-character [c]. *)
Fixpoint count (c : char) (s : pystr) : Z :=
  match s with
  | [] => 0
  | x :: r => (if chr_eqb x c then 1 else 0) + count c r
  end.

(** Slices [s[:i]] and [s[i:]]; a negative index counts from the end. *)
Definition slice_index (s : pystr) (i : Z) : nat :=
  if i <? 0 then Z.to_nat (Z.max 0 (len s + i)) else Z.to_nat i.

Definition slice_to (s : pystr) (i : Z) : pystr := firstn (slice_index s i) s.
Definition slice_from (s : pystr) (i : Z) : pystr := skipn (slice_index s i) s.

(** The text of [s.ljust(w)] and of [s.rjust(w)]. *)
Definition ljust (s : pystr) (w : Z) : pystr :=
  s ++ repeat c_space (Z.to_nat (w - len s)).

Definition rjust (s : pystr) (w : Z) : pystr :=
  repeat c_space (Z.to_nat (w - len s)) ++ s.

(** ** Exceptions and outcomes *)

Inductive exn : Type :=
| RuntimeError (msg : pystr)
| ValueError
| TypeError
| IndexError
| OverflowError
| UnboundLocalError
| UnicodeEncodeError
| UnicodeDecodeError
| FileNotFoundError.

Inductive outcome (A : Type) : Type :=
| Ok (a : A)
| Raise (e : exn)
| Timeout.

Arguments Ok {A} a.
Arguments Raise {A} e.
Arguments Timeout {A}.

Definition obind {A B : Type} (m : outcome A) (f : A -> outcome B) : outcome B :=
  match m with
  | Ok a => f a
  | Raise e => Raise e
  | Timeout => Timeout
  end.

(** [s[0]] and [s[-1]]. *)
Definition first_char (s : pystr) : outcome char :=
  match s with
  | c :: _ => Ok c
  | [] => Raise IndexError
  end.

Definition last_char (s : pystr) : outcome char :=
  match rev s with
  | c :: _ => Ok c
  | [] => Raise IndexError
  end.

(** ** Printing computations

    A computation prints lines to [stdout] and ends in an outcome. *)

Definition M (A : Type) : Type := (list pystr * outcome A)%type.

Definition ret {A : Type} (a : A) : M A := ([], Ok a).

Definition bind {A B : Type} (m : M A) (f : A -> M B) : M B :=
  match m with
  | (out, Ok a) => let '(out', r) := f a in (out ++ out', r)
  | (out, Raise e) => (out, Raise e)
  | (out, Timeout) => (out, Timeout)
  end.

Definition lift {A : Type} (o : outcome A) : M A := ([], o).

Definition raise {A : Type} (e : exn) : M A := ([], Raise e).

(** A line written to [stdout]. *)
Definition emit (line : pystr) : M unit := ([line], Ok tt).

Definition when (b : bool) (m : M unit) : M unit := if b then m else ret tt.

Notation "x <- m ;; k" := (bind m (fun x => k))
  (at level 61, m at next level, right associativity).
Notation "' pat <- m ;; k" := (bind m (fun x => match x with pat => k end))
  (at level 61, pat pattern, m at next level, right associativity).
Notation "m ;; k" := (bind m (fun _ => k))
  (at level 61, right associativity).

(** ** The Unicode character database *)

Class UnicodeData : Type := {
  (** [str.isalnum] of a code point above ASCII *)
  db_isalnum : char -> bool;
  (** value of a decimal digit above ASCII (Py_UNICODE_TODECIMAL) *)
  db_decimal : char -> option N;
  (** code point of a character name, as [\N{...}] looks it up *)
  db_name : pystr -> option char
}.

(** A database that is exact on Latin-1 and knows nothing beyond it; it only
    serves to run the model on concrete inputs. *)
Definition latin1_data : UnicodeData := {|
  db_isalnum := fun c =>
    ((c =? 170) || (c =? 178) || (c =? 179) || (c =? 181) || (c =? 185)
     || (c =? 186) || (188 <=? c) && (c <=? 190)
     || (192 <=? c) && (c <=? 214) || (216 <=? c) && (c <=? 246)
     || (248 <=? c) && (c <=? 255))%N;
  db_decimal := fun _ => None;
  db_name := fun _ => None
|}.

(** ** The platform *)

Class Platform : Type := {
  (** whether the encoding and the error handler of [stdout] write the code
      point, for a code point above ASCII (every encoding that Python gives
      [stdout] has the ASCII characters) *)
  stdout_has : char -> bool;
  (** [sys.maxsize], the largest [Py_ssize_t] *)
  maxsize : Z
}.

(** UTF-8 with strict error handling on a 64-bit platform; it only serves
    to run the model on concrete inputs. *)
Definition utf8_stdout : Platform := {|
  stdout_has := fun c => negb ((55296 <=? c) && (c <=? 57343))%N;
  maxsize := 9223372036854775807
|}.

Section LangCheck.

Context {udb : UnicodeData} {platform : Platform}.

Definition is_ascii (c : char) : bool := (c <? 128)%N.

(** ** [print]

    [print(line)] encodes the line for [stdout]; a line with a character
    that the encoding does not have raises [UnicodeEncodeError], and nothing
    of the line is written. *)
Definition stdout_encodes (c : char) : bool := is_ascii c || stdout_has c.

Definition encodable (line : pystr) : bool := forallb stdout_encodes line.

Definition print (line : pystr) : M unit :=
  if encodable line then emit line else raise UnicodeEncodeError.

(** A width handed to C as a [Py_ssize_t]. *)
Definition fits_ssize_t (w : Z) : bool := (- maxsize - 1 <=? w) && (w <=? maxsize).

(** [s.ljust(w)] as the runtime does it. *)
Definition py_ljust (s : pystr) (w : Z) : outcome pystr :=
  if fits_ssize_t w then Ok (ljust s w) else Raise OverflowError.

(** [('{:' + str(cols) + 's}').format(line)].  The format specification is
    the decimal numeral of [cols] followed by [s]: a minus sign is the sign
    option, which a string does not take; the numeral 0 is the zero flag
    without a width; any other numeral is the width, which has to fit a
    [Py_ssize_t]. *)
Definition format_width (line : pystr) (cols : Z) : outcome pystr :=
  if cols <? 0 then Raise ValueError
  else if cols >? maxsize then Raise ValueError
  else Ok (ljust line cols).

Definition ascii_digit (c : char) : bool := ((48 <=? c) && (c <=? 57))%N.

Definition ascii_alnum (c : char) : bool :=
  (ascii_digit c || (65 <=? c) && (c <=? 90) || (97 <=? c) && (c <=? 122))%N.

(** [c.isalnum()] for a one-character string. *)
Definition py_isalnum (c : char) : bool :=
  if is_ascii c then ascii_alnum c else db_isalnum c.

(** The decimal digit value of a code point, if it is a decimal digit. *)
Definition py_decimal (c : char) : option N :=
  if is_ascii c then (if ascii_digit c then Some (c - 48)%N else None)
  else db_decimal c.

(** ** [int(val)] for a string *)

(** C's [isspace] in the C locale (Py_ISSPACE). *)
Definition c_isspace (c : char) : bool := ((9 <=? c) && (c <=? 13) || (c =? 32))%N.

(** _PyUnicode_TransformDecimalAndSpaceToASCII: ASCII is kept, other spaces
    become a blank, other decimal digits their ASCII digit, anything else a
    question mark (which no integer literal contains). *)
Definition to_ascii_decimal (c : char) : char :=
  if is_ascii c then c
  else if py_isspace c then c_space
  else match py_decimal c with
       | Some d => (48 + d)%N
       | None => c_question
       end.

(** The digits of a base-10 literal, with single underscores between digits.
    [prev] is the previous character (NUL at the start). *)
Fixpoint int_digits (prev : char) (acc : Z) (digits : nat) (s : pystr)
  : option (Z * nat * pystr) :=
  match s with
  | c :: r =>
      if ascii_digit c then int_digits c (10 * acc + Z.of_N (c - 48)) (S digits) r
      else if chr_eqb c c_underscore then
        (if chr_eqb prev c_underscore then None else int_digits c acc digits r)
      else if chr_eqb prev c_underscore then None else Some (acc, digits, s)
  | [] => if chr_eqb prev c_underscore then None else Some (acc, digits, [])
  end.

Definition py_int (val : pystr) : outcome Z :=
  let s := lstrip_by c_isspace (map to_ascii_decimal val) in
  let '(neg, s) :=
    match s with
    | c :: r => if chr_eqb c 45%N then (true, r)
                else if chr_eqb c 43%N then (false, r) else (false, s)
    | [] => (false, s)
    end in
  match s with
  | c :: _ =>
      if chr_eqb c c_underscore then Raise ValueError
      else match int_digits 0%N 0 O s with
           | Some (v, S _, rest) =>
               match lstrip_by c_isspace rest with
               | [] => Ok (if neg then - v else v)
               | _ :: _ => Raise ValueError
               end
           | _ => Raise ValueError
           end
  | [] => Raise ValueError
  end.

(** ** The escape decoder: [text.encode('ascii').decode('unicode_escape')] *)

(** [text.encode('ascii')]: the bytes are the code points, all below 128. *)
Definition encode_ascii (text : pystr) : outcome pystr :=
  if forallb is_ascii text then Ok text else Raise UnicodeEncodeError.

Definition simple_escape (c : char) : option char :=
  if (c =? 92)%N then Some 92%N          (* backslash *)
  else if (c =? 39)%N then Some 39%N     (* apostrophe *)
  else if (c =? 34)%N then Some 34%N     (* double quote *)
  else if (c =? 98)%N then Some 8%N      (* b: backspace *)
  else if (c =? 102)%N then Some 12%N    (* f: form feed *)
  else if (c =? 116)%N then Some 9%N     (* t: tab *)
  else if (c =? 110)%N then Some 10%N    (* n: line feed *)
  else if (c =? 114)%N then Some 13%N    (* r: carriage return *)
  else if (c =? 118)%N then Some 11%N    (* v: vertical tab *)
  else if (c =? 97)%N then Some 7%N      (* a: bell *)
  else None.

Definition octal_digit (c : char) : bool := ((48 <=? c) && (c <=? 55))%N.

Definition hex_val (c : char) : option N :=
  if ascii_digit c then Some (c - 48)%N
  else if ((97 <=? c) && (c <=? 102))%N then Some (c - 87)%N
  else if ((65 <=? c) && (c <=? 70))%N then Some (c - 55)%N
  else None.

(** Exactly [n] hexadecimal digits at the head of [s]. *)
Fixpoint hex_digits (n : nat) (acc : N) (s : pystr) : option N :=
  match n with
  | O => Some acc
  | S n' =>
      match s with
      | c :: r =>
          match hex_val c with
          | Some v => hex_digits n' (16 * acc + v)%N r
          | None => None
          end
      | [] => None
      end
  end.

Definition hex_escape (n : nat) (s : pystr) : outcome (pystr * nat) :=
  match hex_digits n 0%N s with
  | Some v => if (v <=? 1114111)%N then Ok ([v], S n) else Raise UnicodeDecodeError
  | None => Raise UnicodeDecodeError
  end.

(** The characters before the first closing brace, if there is one. *)
Fixpoint until_brace (s : pystr) : option pystr :=
  match s with
  | [] => None
  | c :: r => if chr_eqb c 125%N then Some []
              else option_map (cons c) (until_brace r)
  end.

(** One escape sequence: [r] is the text after a backslash; the result is
    the decoded characters and how many characters of [r] the sequence
    takes. *)
Definition escape_at (r : pystr) : outcome (pystr * nat) :=
  match r with
  | [] => Raise UnicodeDecodeError
  | c :: r' =>
      if chr_eqb c c_lf then Ok ([], 1%nat)
      else match simple_escape c with
      | Some v => Ok ([v], 1%nat)
      | None =>
          if octal_digit c then
            match r' with
            | d2 :: r'' =>
                if octal_digit d2 then
                  match r'' with
                  | d3 :: _ =>
                      if octal_digit d3
                      then Ok ([(64 * (c - 48) + 8 * (d2 - 48) + (d3 - 48))%N], 3%nat)
                      else Ok ([(8 * (c - 48) + (d2 - 48))%N], 2%nat)
                  | [] => Ok ([(8 * (c - 48) + (d2 - 48))%N], 2%nat)
                  end
                else Ok ([(c - 48)%N], 1%nat)
            | [] => Ok ([(c - 48)%N], 1%nat)
            end
          else if chr_eqb c 120%N then hex_escape 2 r'
          else if chr_eqb c 117%N then hex_escape 4 r'
          else if chr_eqb c 85%N then hex_escape 8 r'
          else if chr_eqb c 78%N then
            match r' with
            | b :: r'' =>
                if chr_eqb b 123%N then
                  match until_brace r'' with
                  | Some (n :: name) =>
                      match db_name (n :: name) with
                      | Some v => Ok ([v], (3 + length (n :: name))%nat)
                      | None => Raise UnicodeDecodeError
                      end
                  | _ => Raise UnicodeDecodeError
                  end
                else Raise UnicodeDecodeError
            | [] => Raise UnicodeDecodeError
            end
          else Ok ([c_backslash; c], 1%nat)
      end
  end.

(** The decoder's loop.  [skip] counts the characters of the current escape
    sequence that are still to be passed over. *)
Fixpoint unicode_escape_from (skip : nat) (s : pystr) : outcome pystr :=
  match s with
  | [] => Ok []
  | c :: r =>
      match skip with
      | S k => unicode_escape_from k r
      | O =>
          if chr_eqb c c_backslash then
            obind (escape_at r) (fun '(out, n) =>
            obind (unicode_escape_from n r) (fun t => Ok (out ++ t)))
          else obind (unicode_escape_from O r) (fun t => Ok (c :: t))
      end
  end.

Definition decode_unicode_escape (bytes : pystr) : outcome pystr :=
  unicode_escape_from O bytes.

Definition unescape (text : pystr) : outcome pystr :=
  if negb (existsb (chr_eqb c_backslash) text) then Ok text
  else obind (encode_ascii text) decode_unicode_escape.

Definition ign_char_first (c : char) : bool :=
  py_isalnum c || chr_eqb c c_percent || chr_eqb c c_question.

Definition ign_char_last (c : char) : bool :=
  py_isalnum c || chr_eqb c c_dot || chr_eqb c c_apostrophe.


(** ** [textwrap.TextWrapper(width=cols).wrap(text)]

    All options other than [width] have their defaults: [expand_tabs],
    [replace_whitespace], [drop_whitespace], [break_long_words] and
    [break_on_hyphens] are on, [tabsize] is 8, the indents are empty and
    [max_lines] is [None]. *)

(** The class [[\t\n\x0b\x0c\r ]] of [textwrap._whitespace]. *)
Definition re_ws (c : char) : bool := ((9 <=? c) && (c <=? 13) || (c =? 32))%N.

(** The classes [\w] and [\d] of [re] on [str] patterns, and [letter] and
    [word_punct] of [TextWrapper]. *)
Definition re_w (c : char) : bool := py_isalnum c || chr_eqb c c_underscore.

Definition re_d (c : char) : bool :=
  match py_decimal c with Some _ => true | None => false end.

Definition re_letter (c : char) : bool := re_w c && negb (re_d c).

Definition re_wp (c : char) : bool :=
  re_w c || existsb (chr_eqb c) [33; 34; 39; 38; 46; 44; 63]%N.

(** [text.expandtabs(8)]; [col] is the column within the current line. *)
Fixpoint expandtabs (col : nat) (text : pystr) : pystr :=
  match text with
  | [] => []
  | c :: r =>
      if chr_eqb c c_tab then
        let incr := (8 - col mod 8)%nat in
        repeat c_space incr ++ expandtabs (col + incr) r
      else if chr_eqb c c_lf || chr_eqb c c_cr then c :: expandtabs 0 r
      else c :: expandtabs (S col) r
  end.

(** [text.translate(unicode_whitespace_trans)]. *)
Definition translate_ws (text : pystr) : pystr :=
  map (fun c => if re_ws c then c_space else c) text.

Definition _munge_whitespace (text : pystr) : pystr :=
  translate_ws (expandtabs 0 text).

(** [-{2,}] followed by [\w] at the head of [s]. *)
Fixpoint hyphens_then_w (n : nat) (s : pystr) : bool :=
  match s with
  | c :: r => if chr_eqb c c_hyphen then hyphens_then_w (S n) r
              else (2 <=? n)%nat && re_w c
  | [] => false
  end.

(** An em-dash starts here: [(?<=wp)] on the text before (reversed in
    [prev]) and [-{2,}(?=\w)] on the text ahead. *)
Definition emdash_at (prev rest : pystr) : bool :=
  match prev with
  | p :: _ => re_wp p && hyphens_then_w 0 rest
  | [] => false
  end.

(** A hyphen at which a word may be broken: the hyphen [c] follows two
    letters, or letter-hyphen-letter, and a letter, an optional hyphen and a
    letter follow it. *)
Definition hyphen_break (prev : pystr) (c : char) (rest : pystr) : bool :=
  chr_eqb c c_hyphen
  && match prev with
     | l1 :: l2 :: prev' =>
         re_letter l1 && (re_letter l2
           || chr_eqb l2 c_hyphen
              && match prev' with l3 :: _ => re_letter l3 | [] => false end)
     | _ => false
     end
  && match rest with
     | a :: b :: rest' =>
         re_letter a && (chr_eqb b c_hyphen
              && match rest' with d :: _ => re_letter d | [] => false end
           || re_letter b)
     | _ => false
     end.

Inductive chunk_kind : Type := AtStart | InSpace | InDash | InWord.

(** One character [c] of the scan of [wordsep_re]: the match that ends
    before or at [c] (if one does), the match being read afterwards
    (reversed) and its kind.  [prev] is the text before [c], reversed, and
    [rest'] the text after it.

    A match starts as whitespace ([ws+]), as an em-dash ([-{2,}] between a
    word-punctuation character and a [\w]), or as a word.  A word is read
    lazily ([nws+?]) and ends after a hyphen that may break it, before
    whitespace or the end of the text, or before an em-dash. *)
Definition wordsep_step (prev cur : pystr) (k : chunk_kind) (c : char)
  (rest' : pystr) : list pystr * pystr * chunk_kind :=
  let start :=
    if re_ws c then InSpace
    else if emdash_at prev (c :: rest') then InDash
    else InWord in
  match k with
  | AtStart => ([], [c], start)
  | InSpace =>
      if re_ws c then ([], c :: cur, InSpace) else ([rev cur], [c], start)
  | InDash =>
      if chr_eqb c c_hyphen then ([], c :: cur, InDash)
      else ([rev cur], [c], start)
  | InWord =>
      if hyphen_break prev c rest' then ([rev (c :: cur)], [], AtStart)
      else if re_ws c || emdash_at prev (c :: rest') then ([rev cur], [c], start)
      else ([], c :: cur, InWord)
  end.

(** [wordsep_re.split(text)] without the empty strings: the successive
    matches of [wordsep_re], which leave no gap between them. *)
Fixpoint wordsep (prev cur : pystr) (k : chunk_kind) (rest : pystr) : list pystr :=
  match rest with
  | [] => match cur with [] => [] | _ :: _ => [rev cur] end
  | c :: rest' =>
      let '(done, cur', k') := wordsep_step prev cur k c rest' in
      done ++ wordsep (c :: prev) cur' k' rest'
  end.

Definition _split (text : pystr) : list pystr := wordsep [] [] AtStart text.

Definition _split_chunks (text : pystr) : list pystr :=
  _split (_munge_whitespace text).

(** [chunk.rfind('-', 0, hi)]. *)
Fixpoint rfind_from (c : char) (s : pystr) (i best : Z) : Z :=
  match s with
  | [] => best
  | x :: r => rfind_from c r (i + 1) (if chr_eqb x c then i else best)
  end.

Definition rfind (c : char) (s : pystr) (hi : Z) : Z :=
  rfind_from c (slice_to s hi) 0 (-1).

(** [_handle_long_word]: the piece of [chunk] appended to the current line
    and the piece left on the stack of chunks. *)
Definition _handle_long_word (chunk : pystr) (cur_len width : Z) : pystr * pystr :=
  let space_left := if width <? 1 then 1 else width - cur_len in
  let hyphen := rfind c_hyphen chunk space_left in
  let end_ :=
    if (len chunk >? space_left) && (hyphen >? 0)
       && existsb (fun c => negb (chr_eqb c c_hyphen)) (slice_to chunk hyphen)
    then hyphen + 1 else space_left in
  (slice_to chunk end_, slice_from chunk end_).

(** The inner [while chunks] loop: chunks are moved to the current line
    while they fit. *)
Fixpoint fill_line (width cur_len : Z) (cur_line chunks : list pystr)
  : list pystr * Z * list pystr :=
  match chunks with
  | [] => (cur_line, cur_len, [])
  | c :: r =>
      if cur_len + len c <=? width
      then fill_line width (cur_len + len c) (cur_line ++ [c]) r
      else (cur_line, cur_len, chunks)
  end.

Definition blank (chunk : pystr) : bool :=
  match strip chunk with [] => true | _ :: _ => false end.

(** [cur_line] without its last chunk when that chunk is all whitespace. *)
Definition drop_trailing_blank (cur_line : list pystr) : list pystr :=
  match rev cur_line with
  | c :: r => if blank c then rev r else cur_line
  | [] => cur_line
  end.

(** One pass of the outer [while chunks] loop of [_wrap_chunks], entered
    with [chunks = c0 :: rest0]: the chunks and the lines after it.
    The chunks are in text order: the head of the list is the top of the
    reversed stack of the source. *)
Definition _wrap_chunks_pass (width : Z) (c0 : pystr) (rest0 lines : list pystr)
  : list pystr * list pystr :=
  let chunks :=
    if blank c0 && negb (match lines with [] => true | _ :: _ => false end)
    then rest0 else c0 :: rest0 in
  let '(cur_line, cur_len, chunks) := fill_line width 0 [] chunks in
  let '(cur_line, chunks) :=
    match chunks with
    | c :: r =>
        if len c >? width then
          let '(piece, remainder) := _handle_long_word c cur_len width in
          (cur_line ++ [piece], remainder :: r)
        else (cur_line, chunks)
    | [] => (cur_line, chunks)
    end in
  let cur_line := drop_trailing_blank cur_line in
  match cur_line with
  | [] => (chunks, lines)
  | _ :: _ => (chunks, lines ++ [join cur_line])
  end.

Fixpoint _wrap_chunks_loop (fuel : nat) (width : Z) (chunks lines : list pystr)
  : outcome (list pystr) :=
  match chunks with
  | [] => Ok lines
  | c0 :: rest0 =>
      match fuel with
      | O => Timeout
      | S fuel' =>
          let '(chunks', lines') := _wrap_chunks_pass width c0 rest0 lines in
          _wrap_chunks_loop fuel' width chunks' lines'
      end
  end.

(** The fuel [_wrap_chunks] gets: each pass of the loop removes a chunk or
    at least one character. *)
Definition measure (chunks : list pystr) : nat :=
  (length (concat chunks) + length chunks)%nat.

Definition wrap_fuel (chunks : list pystr) : nat := S (measure chunks).

(** [self.width <= 0] raises [TypeError] on [None] and [ValueError] is
    raised on a width that is not positive. *)
Definition _wrap_chunks (width : option Z) (chunks : list pystr)
  : outcome (list pystr) :=
  match width with
  | None => Raise TypeError
  | Some w =>
      if w <=? 0 then Raise ValueError
      else _wrap_chunks_loop (wrap_fuel chunks) w chunks []
  end.

Definition wrap (width : option Z) (text : pystr) : outcome (list pystr) :=
  _wrap_chunks width (_split_chunks text).


(** ** The script *)

(** [tty] is [stdout.isatty()]. *)
Definition color_maybe (tty : bool) (color_attr : Z) (text : pystr) : pystr :=
  if tty
  then [c_esc] ++ str "[0;" ++ str_of_Z color_attr ++ str "m" ++ text
       ++ [c_esc] ++ str "[0m"
  else text.

Definition red (tty : bool) (text : pystr) : pystr := color_maybe tty 31 text.
Definition green (tty : bool) (text : pystr) : pystr := color_maybe tty 32 text.
Definition yellow (tty : bool) (text : pystr) : pystr := color_maybe tty 33 text.

(** The row [r] (counted from 0) of [print_wrapped] and the rows after
    it. *)
Fixpoint print_wrapped_from (tty : bool) (r : Z) (wrapped_text : list pystr)
  (rows cols : Z) : M unit :=
  match wrapped_text with
  | [] => ret tt
  | line :: more =>
      let r_ := rjust (str_of_Z (r + 1)) 3 in
      let r_ := if r >=? rows then color_maybe tty 31 r_ else r_ in
      field <- lift (format_width line cols);;
      print (str " " ++ r_ ++ str " |" ++ field ++ str "|");;
      print_wrapped_from tty (r + 1) more rows cols
  end.

Definition print_wrapped (tty : bool) (wrapped_text : list pystr)
  (rows cols : Z) : M unit :=
  print_wrapped_from tty 0 wrapped_text rows cols.

Definition print_truncated (tty : bool) (text : pystr) (cols : Z) : M unit :=
  '(prefix, suffix) <-
    lift (if len text <=? cols
          then obind (py_ljust text cols) (fun prefix => Ok (prefix, []))
          else Ok (slice_to text cols, color_maybe tty 31 (slice_from text cols)));;
  print (str "   |" ++ prefix ++ str "|" ++ suffix).

Definition print_source_translation (tty : bool) (source translation : pystr)
  (wrapped_source wrapped_translation : list pystr) (rows cols : Z) : M unit :=
  (if rows =? 1 then
     print (str " source text:");;
     print_truncated tty source cols;;
     print (str " translated text:");;
     print_truncated tty translation cols
   else
     print (str " source text:");;
     print_wrapped tty wrapped_source rows cols;;
     print (str " translated text:");;
     print_wrapped tty wrapped_translation rows cols);;
  print [].

(** A text as [parse_txt] hands it to the checks, with what the displays of
    the text need: [wrapped] is the text wrapped to [cols] columns, [cols]
    fits a [Py_ssize_t], and [stdout] can encode the text. *)
Definition shown (cols : Z) (text : pystr) (wrapped : list pystr) : Prop :=
  wrap (Some cols) text = Ok wrapped /\ cols <= maxsize /\ encodable text = true.

(** The texts of the diagnostics. *)
Definition msg_no_display (lines : Z) : pystr :=
  str "[W]: No display definition on line " ++ str_of_Z lines.

Definition msg_odd_columns (lines : Z) : pystr :=
  str "[W]: Multiple rows with odd number of columns on line " ++ str_of_Z lines.

Definition msg_source_cols (cols lines : Z) : pystr :=
  str "[W]: Source text longer than " ++ str_of_Z cols
  ++ str " cols as defined on line " ++ str_of_Z lines ++ str ":".

Definition msg_source_rows (rows lines : Z) : pystr :=
  str "[W]: Wrapped source text longer than " ++ str_of_Z rows
  ++ str " rows as defined on line " ++ str_of_Z lines ++ str ":".

Definition msg_overflow (lines cols rows diff : Z) : pystr :=
  str "[E]: Text is longer than definition on line " ++ str_of_Z lines
  ++ str ": cols=" ++ str_of_Z cols ++ str " rows=" ++ str_of_Z rows
  ++ str " (rows diff=" ++ str_of_Z diff ++ str ")".

Definition msg_placeholder (lines : Z) : pystr :=
  str "[E]: Unequal count of % escapes on line " ++ str_of_Z lines ++ str ":".

Definition msg_first (a b : char) (lines : Z) : pystr :=
  str "[W]: Differing first punctuation character (" ++ [a] ++ str " => "
  ++ [b] ++ str ") on line " ++ str_of_Z lines ++ str ":".

Definition msg_last (a b : char) (lines : Z) : pystr :=
  str "[W]: Differing last punctuation character (" ++ [a] ++ str " => "
  ++ [b] ++ str ") on line " ++ str_of_Z lines ++ str ":".

Definition msg_short (lines : Z) : pystr :=
  str "[W]: Short translation on line " ++ str_of_Z lines ++ str ":".

Definition msg_unknown_definition (comment : list pystr) (lines : Z) : pystr :=
  str "Unknown display definition " ++ join_with [c_space] comment
  ++ str " on line " ++ str_of_Z lines.

(** The loop over [comment[1:]] in [parse_txt]. *)
Fixpoint parse_items (comment : list pystr) (lines : Z) (items : list pystr)
  (cols rows : option Z) : outcome (option Z * option Z) :=
  match items with
  | [] => Ok (cols, rows)
  | item :: more =>
      match py_split c_equals item with
      | [key; val] =>
          if str_eqb key (str "c") then
            obind (py_int val) (fun v => parse_items comment lines more (Some v) rows)
          else if str_eqb key (str "r") then
            obind (py_int val) (fun v => parse_items comment lines more cols (Some v))
          else Raise (RuntimeError (msg_unknown_definition comment lines))
      | _ => Raise ValueError
      end
  end.

(** [cols != 20], where [cols] may be [None]. *)
Definition cols_is_not_20 (cols : option Z) : bool :=
  match cols with
  | Some c => negb (c =? 20)
  | None => true
  end.

(** The checks of one record, in the order of [parse_txt]; each definition
    is one commented block of the loop body. *)

Section Checks.

Variables (no_warning tty : bool) (lines cols rows : Z).
Variables (source translation : pystr).
Variables (wrapped_source wrapped_translation : list pystr).

Let rows_count_source : Z := len wrapped_source.
Let rows_count_translation : Z := len wrapped_translation.

Let show : M unit :=
  print_source_translation tty source translation
    wrapped_source wrapped_translation rows cols.

(** "Check for potential errors in the definition" *)
Definition check_source_overflow : M unit :=
  when (negb no_warning)
    (if (rows =? 1) && ((len source >? cols) || (rows_count_source >? rows)) then
       print (yellow tty (msg_source_cols cols lines));;
       print_truncated tty source cols;;
       print []
     else if rows_count_source >? rows then
       print (yellow tty (msg_source_rows rows lines));;
       print_wrapped tty wrapped_source rows cols;;
       print []
     else ret tt).

(** "Check for translation lenght" *)
Definition check_overflow : M unit :=
  when ((rows_count_translation >? rows)
        || (rows =? 1) && (len translation >? cols))
    (print (red tty (msg_overflow lines cols rows (rows_count_translation - rows)));;
     show).

(** "Different count of % sequences" *)
Definition check_placeholder : M unit :=
  when (negb (count c_percent source =? count c_percent translation)
        && (len translation >? 0))
    (print (red tty (msg_placeholder lines));;
     show).

(** "Different first/last character" *)
Definition check_punctuation : M unit :=
  when (negb no_warning && (len source >? 0) && (len translation >? 0))
    (source_end <- lift (last_char (strip source));;
     translation_end <- lift (last_char (strip translation));;
     source_0 <- lift (first_char source);;
     translation_0 <- lift (first_char translation);;
     let start_diff :=
       negb (ign_char_first source_0 && ign_char_first translation_0)
       && negb (chr_eqb source_0 translation_0) in
     let end_diff :=
       negb (ign_char_last source_end && ign_char_last translation_end)
       && negb (chr_eqb source_end translation_end) in
     when (start_diff || end_diff)
       (when start_diff
          (print (yellow tty (msg_first source_0 translation_0 lines)));;
        when end_diff
          (source_last <- lift (last_char source);;
           translation_last <- lift (last_char translation);;
           print (yellow tty (msg_last source_last translation_last lines)));;
        show)).

(** "Short translation": [len(t.strip()) < len(s.strip()) / 2] compares an
    integer with half an integer, which is [2 * a < b]. *)
Definition check_short : M unit :=
  when (negb no_warning && (len source >? 0) && (len translation >? 0))
    (when (2 * len (strip translation) <? len (strip source))
       (print (yellow tty (msg_short lines));;
        show)).

Definition checks : M unit :=
  check_source_overflow;;
  check_overflow;;
  check_placeholder;;
  check_punctuation;;
  check_short.

End Checks.

(** [src.readline()]: the text up to and including the next line feed, or
    what is left of the file; and the file after it. *)
Fixpoint readline (src : pystr) : pystr * pystr :=
  match src with
  | [] => ([], [])
  | c :: r =>
      if chr_eqb c c_lf then ([c], r)
      else let '(line, r') := readline r in (c :: line, r')
  end.

(** What one pass of the [while True] loop leaves to the next: the file
    after the frame, the counter [lines], and the local [translation], which
    is unbound ([None]) until a translation line has been read. *)
Record frame_state : Type := {
  fs_src : pystr;
  fs_lines : Z;
  fs_translation : option pystr
}.

(** "Check if columns and rows are defined": the columns and rows of the
    frame whose definition line splits into [comment].  [translation] is the
    local of that name as the previous pass left it. *)
Definition display_definition (no_warning tty : bool) (lines : Z)
  (comment : list pystr) (translation : option pystr) : M (option Z * Z) :=
  '(cols, rows) <- lift (parse_items comment lines (tl comment) None None);;
  cols <- match cols, rows with
          | None, None =>
              when (negb no_warning) (print (yellow tty (msg_no_display lines)));;
              match translation with
              | Some translation => ret (Some (len translation))
              | None => raise UnboundLocalError
              end
          | _, _ => ret cols
          end;;
  rows <- match rows with
          | None => ret 1
          | Some rows =>
              when ((rows >? 1) && cols_is_not_20 cols)
                (print (yellow tty (msg_odd_columns lines)));;
              ret rows
          end;;
  ret (cols, rows).

(** The body of the [while True] loop; [None] is [break]. *)
Definition frame (no_warning tty : bool) (st : frame_state)
  : M (option frame_state) :=
  let lines := fs_lines st in
  let '(line1, src1) := readline (fs_src st) in
  let comment := py_split c_space line1 in
  '(cols, rows) <- display_definition no_warning tty lines comment
                     (fs_translation st);;
  let '(line2, src2) := readline src1 in
  let source := strip_chars [c_quote] (slice_to line2 (-1)) in
  let '(line3, src3) := readline src2 in
  let translation := strip_chars [c_quote] (slice_to line3 (-1)) in
  let translation :=
    if str_eqb translation (str "\x00") then [] else translation in
  source <- lift (unescape source);;
  translation <- lift (unescape translation);;
  wrapped_source <- lift (wrap cols source);;
  wrapped_translation <- lift (wrap cols translation);;
  (* [wrap] has raised unless [cols] is an integer *)
  cols <- lift (match cols with Some c => Ok c | None => Raise TypeError end);;
  checks no_warning tty lines cols rows source translation
    wrapped_source wrapped_translation;;
  let '(line4, src4) := readline src3 in
  if negb (len line4 =? 1) then ret None
  else ret (Some {| fs_src := src4; fs_lines := lines + 4;
                    fs_translation := Some translation |}).

(** The source and the translation of the frame at [st], as [frame] takes
    them from its second and third line, before they are decoded. *)
Definition frame_source (st : frame_state) : pystr :=
  let '(_, src1) := readline (fs_src st) in
  let '(line2, _) := readline src1 in
  strip_chars [c_quote] (slice_to line2 (-1)).

(** The translation as the file has it, and with the sentinel of an empty
    translation replaced. *)
Definition frame_translation_text (st : frame_state) : pystr :=
  let '(_, src1) := readline (fs_src st) in
  let '(_, src2) := readline src1 in
  let '(line3, _) := readline src2 in
  strip_chars [c_quote] (slice_to line3 (-1)).

Definition frame_translation (st : frame_state) : pystr :=
  let translation := frame_translation_text st in
  if str_eqb translation (str "\x00") then [] else translation.

Fixpoint parse_loop (fuel : nat) (no_warning tty : bool) (st : frame_state)
  : M unit :=
  match fuel with
  | O => lift Timeout
  | S fuel' =>
      next <- frame no_warning tty st;;
      match next with
      | None => ret tt
      | Some st' => parse_loop fuel' no_warning tty st'
      end
  end.

(** [open(file_path)]: the text of the file as the text layer delivers it
    (decoded, with line ends translated to line feeds), or [None] when there
    is no such file. *)
Definition filesystem : Type := pystr -> option pystr.

Definition parse_txt (fs : filesystem) (tty : bool) (lang : pystr)
  (no_warning : bool) : M unit :=
  let file_path :=
    if str_eqb lang (str "en") then str "lang_en.txt"
    else str "lang_en_" ++ lang ++ str ".txt" in
  print (green tty (str "Start " ++ lang ++ str " lang-check"));;
  match fs file_path with
  | None => raise FileNotFoundError
  | Some text =>
      parse_loop (S (length text)) no_warning tty
        {| fs_src := text; fs_lines := 1; fs_translation := None |};;
      print (green tty (str "End " ++ lang ++ str " lang-check"))
  end.

(** What [main] writes to [stderr]: [print_exc()] and [parser.error]. *)
Inductive stderr_event : Type :=
| Traceback (e : exn)
| UsageError (e : exn).

Inductive exit_status : Type :=
| Exit (code : Z)
| Hang.

Record run : Type := {
  run_stdout : list pystr;
  run_stderr : list stderr_event;
  run_status : exit_status
}.

(** [exit(main())] with the arguments already parsed.  [parser.error]
    prints the usage and the message and leaves the interpreter with status
    2 ([SystemExit] is not an [Exception]); the [return 1] after it is never
    reached. *)
Definition main (fs : filesystem) (tty : bool) (lang : pystr)
  (no_warning : bool) : run :=
  match parse_txt fs tty lang no_warning with
  | (out, Ok _) =>
      {| run_stdout := out; run_stderr := []; run_status := Exit 0 |}
  | (out, Raise exc) =>
      {| run_stdout := out; run_stderr := [Traceback exc; UsageError exc];
         run_status := Exit 2 |}
  | (out, Timeout) =>
      {| run_stdout := out; run_stderr := []; run_status := Hang |}
  end.


(** ** Reading the output *)

(** The diagnostics of the script, by the text they start with. *)
Inductive tag : Type :=
| WNoDisplay | WOddColumns | WSourceCols | WSourceRows
| EOverflow | EPlaceholder | WPunctFirst | WPunctLast | WShort.

Inductive severity : Type := Warning | Error.

Definition tag_severity (t : tag) : severity :=
  match t with
  | EOverflow | EPlaceholder => Error
  | _ => Warning
  end.

Fixpoint starts_with (p s : pystr) : bool :=
  match p with
  | [] => true
  | a :: p' =>
      match s with
      | b :: s' => chr_eqb a b && starts_with p' s'
      | [] => false
      end
  end.

(** A line without the colour sequence [ESC[0;NNm] in front of it. *)
Definition uncolor (line : pystr) : pystr :=
  match line with
  | e :: b :: z :: sc :: _ :: _ :: m :: rest =>
      if starts_with [e; b; z; sc] ([c_esc] ++ str "[0;") && chr_eqb m 109%N
      then rest else line
  | _ => line
  end.

Definition tag_of (line : pystr) : option tag :=
  let l := uncolor line in
  if starts_with (str "[W]: No display definition") l then Some WNoDisplay
  else if starts_with (str "[W]: Multiple rows") l then Some WOddColumns
  else if starts_with (str "[W]: Source text longer") l then Some WSourceCols
  else if starts_with (str "[W]: Wrapped source text longer") l then Some WSourceRows
  else if starts_with (str "[E]: Text is longer") l then Some EOverflow
  else if starts_with (str "[E]: Unequal count") l then Some EPlaceholder
  else if starts_with (str "[W]: Differing first") l then Some WPunctFirst
  else if starts_with (str "[W]: Differing last") l then Some WPunctLast
  else if starts_with (str "[W]: Short translation") l then Some WShort
  else None.

(** The diagnostics among the printed lines, in the order printed. *)
Fixpoint tags (out : list pystr) : list tag :=
  match out with
  | [] => []
  | l :: out' =>
      match tag_of l with
      | Some t => t :: tags out'
      | None => tags out'
      end
  end.

Definition out_tags {A : Type} (m : M A) : list tag := tags (fst m).

(** The place of a diagnostic in the order in which a frame emits them. *)
Definition tag_rank (t : tag) : Z :=
  match t with
  | WNoDisplay => 0
  | WOddColumns => 1
  | WSourceCols | WSourceRows => 2
  | EOverflow => 3
  | EPlaceholder => 4
  | WPunctFirst => 5
  | WPunctLast => 6
  | WShort => 7
  end.

Definition tag_before (a b : tag) : Prop := tag_rank a < tag_rank b.

(** ** Words *)

Definition flush (cur : pystr) : list pystr :=
  match cur with
  | [] => []
  | _ :: _ => [rev cur]
  end.

(** The maximal runs of characters that are not whitespace, for a notion
    [sp] of whitespace; [cur] is the run being read, reversed. *)
Fixpoint words_from (sp : char -> bool) (cur : pystr) (s : pystr) : list pystr :=
  match s with
  | [] => flush cur
  | c :: r => if sp c then flush cur ++ words_from sp [] r
              else words_from sp (c :: cur) r
  end.

(** [s.split()]: the words between Unicode whitespace. *)
Definition py_words (s : pystr) : list pystr := words_from py_isspace [] s.

(** The words between the whitespace characters of [textwrap]. *)
Definition re_words (s : pystr) : list pystr := words_from re_ws [] s.

(** [' '.join(s.split())]: [s] with its whitespace normalized. *)
Definition normalize (s : pystr) : pystr := join_with [c_space] (py_words s).

(** ** Chunks

    A chunk of whitespace; a list of chunks in which no two neighbours are
    both words; and the runs of whitespace and of other characters of a
    text, which is what [wordsep_re] splits a text without hyphens into. *)

Definition space_chunk (chunk : pystr) : bool := forallb re_ws chunk.

Fixpoint separated (chunks : list pystr) : Prop :=
  match chunks with
  | c1 :: (c2 :: _) as more =>
      (space_chunk c1 || space_chunk c2 = true) /\ separated more
  | _ => True
  end.

Definition in_space (k : chunk_kind) : bool :=
  match k with InSpace => true | _ => false end.

Fixpoint runs (cur : pystr) (in_space : bool) (rest : pystr) : list pystr :=
  match rest with
  | [] => flush cur
  | c :: r =>
      if Bool.eqb (re_ws c) in_space then runs (c :: cur) in_space r
      else flush cur ++ runs [c] (re_ws c) r
  end.

(** Chunks as [_wrap_chunks] keeps them whole: none is empty, no two
    neighbours are both words, and every word fits the width. *)
Definition chunks_ok (width : Z) (chunks : list pystr) : Prop :=
  Forall (fun c => c <> []) chunks
  /\ separated chunks
  /\ Forall (fun c => space_chunk c = true \/ len c <= width) chunks.

(** ** Escape sequences, as a grammar

    [Escaped raw text]: [raw] is a sequence of plain characters and
    well-formed escape sequences, and [text] is [raw] with every escape
    sequence replaced by the character it stands for. *)

Definition escape_table : list (char * char) :=
  [ (92, 92); (39, 39); (34, 34); (97, 7); (98, 8); (102, 12); (110, 10);
    (114, 13); (116, 9); (118, 11) ]%N.

Fixpoint index_of (c : char) (s : pystr) (i : N) : option N :=
  match s with
  | [] => None
  | x :: r => if chr_eqb x c then Some i else index_of c r (i + 1)%N
  end.

(** The value of a digit in base 8 or 16. *)
Definition digit_value (c : char) : option N :=
  match index_of c (str "0123456789abcdef") 0%N with
  | Some v => Some v
  | None => index_of c (str "ABCDEF") 10%N
  end.

Definition is_digit_below (base : N) (c : char) : Prop :=
  exists v, digit_value c = Some v /\ (v < base)%N.

(** The number a string of digits denotes. *)
Definition number (base : N) (ds : pystr) : N :=
  fold_left (fun acc c =>
    (base * acc + match digit_value c with Some v => v | None => 0 end)%N) ds 0%N.

Inductive Escaped : pystr -> pystr -> Prop :=
| Esc_end : Escaped [] []
| Esc_plain c raw text :
    c <> c_backslash -> Escaped raw text -> Escaped (c :: raw) (c :: text)
| Esc_simple c v raw text :
    In (c, v) escape_table -> Escaped raw text ->
    Escaped (c_backslash :: c :: raw) (v :: text)
| Esc_octal ds raw text :
    (1 <= length ds <= 3)%nat -> Forall (is_digit_below 8) ds ->
    ((length ds < 3)%nat ->
     match raw with c :: _ => ~ is_digit_below 8 c | [] => True end) ->
    Escaped raw text ->
    Escaped (c_backslash :: ds ++ raw) (number 8 ds :: text)
| Esc_hex n x ds raw text :
    In (x, n) [(120%N, 2%nat); (117%N, 4%nat); (85%N, 8%nat)] ->
    length ds = n -> Forall (is_digit_below 16) ds ->
    (number 16 ds <= 1114111)%N ->
    Escaped raw text ->
    Escaped (c_backslash :: x :: ds ++ raw) (number 16 ds :: text)
| Esc_name (name : pystr) v raw text :
    name <> [] -> ~ In 125%N name -> db_name name = Some v ->
    Escaped raw text ->
    Escaped (c_backslash :: 78%N :: 123%N :: name ++ 125%N :: raw) (v :: text).

(** ** Language files for the examples *)

(** One frame of a language file: the display definition, the source text
    and the translation, the two texts between double quotes. *)
Definition frame_text (definition source translation : pystr) : pystr :=
  definition ++ [c_lf]
  ++ [c_quote] ++ source ++ [c_quote] ++ [c_lf]
  ++ [c_quote] ++ translation ++ [c_quote] ++ [c_lf].

(** Frames with a blank line between them; the file ends with the last
    translation line. *)
Definition file_text (frames : list pystr) : pystr := join_with [c_lf] frames.

(** A file system that holds [lang_en.txt] only. *)
Definition only_lang_en (text : pystr) : filesystem :=
  fun path => if str_eqb path (str "lang_en.txt") then Some text else None.

Definition file_ok : pystr :=
  file_text [frame_text (str "MSG_OK c=20 r=1") (str "OK") (str "OK")].

Definition file_no_definition : pystr :=
  file_text [frame_text (str "MSG_HELLO") (str "Hello") (str "Hallo")].

Definition file_no_definition_later : pystr :=
  file_text [frame_text (str "MSG_HELLO c=20 r=1") (str "Hello") (str "Hallo");
             frame_text (str "MSG_MORNING") (str "Good morning") (str "Guten Morgen")].

Definition file_odd_columns : pystr :=
  file_text [frame_text (str "MSG_OK c=18 r=2") (str "OK") (str "OK")].

Definition file_unknown_key : pystr :=
  file_text [frame_text (str "MSG_OK c=20 r=1") (str "OK") (str "OK");
             frame_text (str "MSG_BAD x=1") (str "OK") (str "OK")].

Definition file_rows_only : pystr :=
  file_text [frame_text (str "MSG_OK r=2") (str "OK") (str "OK")].

Definition file_both_overflow : pystr :=
  file_text [frame_text (str "MSG_ABCD c=2 r=1") (str "abcd") (str "abcd")].

Definition file_tab : pystr :=
  file_text [frame_text (str "MSG_TAB c=3 r=1") (str "abc") (str "a\tb")].

Definition file_blank_source : pystr :=
  file_text [frame_text (str "MSG_BLANK c=20 r=1") (str " ") (str "x")].


Definition file_empty_translation : pystr :=
  file_text [frame_text (str "MSG_EMPTY c=20 r=1") (str "Hello") (str "\x00")].

(** * Properties *)


(** ** Output of sequenced computations *)

Lemma tags_app (a b : list pystr) : tags (a ++ b) = tags a ++ tags b.
Proof.
  induction a as [|l a IH]; simpl; [reflexivity|].
  destruct (tag_of l); simpl; now rewrite IH.
Qed.

Lemma out_tags_bind {A B : Type} (m : M A) (f : A -> M B) :
  out_tags (bind m f)
  = out_tags m ++ match snd m with Ok a => out_tags (f a) | _ => [] end.
Proof.
  unfold out_tags, bind. destruct m as [out [a|e|]]; simpl.
  - destruct (f a) as [out' r]; simpl. apply tags_app.
  - now rewrite app_nil_r.
  - now rewrite app_nil_r.
Qed.

Lemma snd_bind {A B : Type} (m : M A) (f : A -> M B) :
  snd (bind m f)
  = match snd m with Ok a => snd (f a) | Raise e => Raise e | Timeout => Timeout end.
Proof.
  unfold bind. destruct m as [out [a|e|]]; simpl; try reflexivity.
  now destruct (f a).
Qed.

Lemma out_tags_when (b : bool) (m : M unit) :
  out_tags (when b m) = if b then out_tags m else [].
Proof. now destruct b. Qed.

Lemma snd_when (b : bool) (m : M unit) :
  snd (when b m) = if b then snd m else Ok tt.
Proof. now destruct b. Qed.

Lemma bind_lift_ok {A B : Type} (a : A) (f : A -> M B) :
  bind (lift (Ok a)) f = f a.
Proof. unfold bind, lift. now destruct (f a). Qed.

Lemma bind_ret {A B : Type} (a : A) (f : A -> M B) : bind (ret a) f = f a.
Proof. apply bind_lift_ok. Qed.

Lemma bind_lift_raise {A B : Type} (e : exn) (f : A -> M B) :
  bind (lift (Raise e : outcome A)) f = ([], Raise e).
Proof. reflexivity. Qed.

Lemma bind_no_timeout {A B : Type} (m : M A) (f : A -> M B) :
  snd m <> Timeout -> (forall a, snd (f a) <> Timeout) ->
  snd (bind m f) <> Timeout.
Proof.
  intros Hm Hf. rewrite snd_bind. destruct (snd m); [apply Hf|discriminate|].
  contradiction.
Qed.

Lemma out_tags_emit (l : pystr) :
  out_tags (emit l) = match tag_of l with Some t => [t] | None => [] end.
Proof. unfold out_tags; simpl. now destruct (tag_of l). Qed.

Lemma snd_emit (l : pystr) : snd (emit l) = Ok tt.
Proof. reflexivity. Qed.

Lemma len_app {A : Type} (a b : list A) : len (a ++ b) = len a + len b.
Proof. unfold len. rewrite length_app. lia. Qed.

Lemma len_nonneg {A : Type} (a : list A) : 0 <= len a.
Proof. unfold len. lia. Qed.

Lemma len_cons {A : Type} (x : A) (a : list A) : len (x :: a) = 1 + len a.
Proof. unfold len. simpl length. lia. Qed.

(** *** Lines that [stdout] can encode *)

Lemma encodable_app (a b : pystr) :
  encodable (a ++ b) = encodable a && encodable b.
Proof. apply forallb_app. Qed.

Lemma encodable_ascii (s : pystr) :
  forallb is_ascii s = true -> encodable s = true.
Proof.
  unfold encodable, stdout_encodes. induction s as [|c s IH]; [reflexivity|].
  simpl. intros H. apply andb_true_iff in H. destruct H as [-> H].
  now rewrite IH.
Qed.

Lemma string_of_uint_ascii (d : Decimal.uint) :
  forallb is_ascii (str (NilEmpty.string_of_uint d)) = true.
Proof. induction d; [reflexivity|exact IHd..]. Qed.

Lemma str_of_Z_ascii (n : Z) : forallb is_ascii (str_of_Z n) = true.
Proof.
  unfold str_of_Z, NilZero.string_of_int, NilZero.string_of_uint.
  destruct (Z.to_int n) as [d|d]; destruct d;
    first [reflexivity
          |match goal with
           | |- forallb is_ascii (str (NilEmpty.string_of_uint ?u)) = true =>
               apply (string_of_uint_ascii u)
           | |- forallb is_ascii (str (String _ (NilEmpty.string_of_uint ?u))) = true =>
               apply (string_of_uint_ascii u)
           end].
Qed.

Lemma encodable_str_of_Z (n : Z) : encodable (str_of_Z n) = true.
Proof. apply encodable_ascii, str_of_Z_ascii. Qed.

Lemma encodable_color tty (n : Z) (text : pystr) :
  encodable (color_maybe tty n text) = encodable text.
Proof.
  unfold color_maybe. destruct tty; [|reflexivity].
  rewrite !encodable_app, encodable_str_of_Z.
  change (encodable [c_esc]) with true. change (encodable (str "[0;")) with true.
  change (encodable (str "m")) with true. change (encodable (str "[0m")) with true.
  cbn [andb]. now rewrite andb_true_r.
Qed.

Lemma encodable_repeat_space (n : nat) : encodable (repeat c_space n) = true.
Proof. induction n as [|n IH]; [reflexivity|exact IH]. Qed.

Lemma encodable_ljust (s : pystr) (w : Z) : encodable (ljust s w) = encodable s.
Proof.
  unfold ljust. now rewrite encodable_app, encodable_repeat_space, andb_true_r.
Qed.

Lemma encodable_rjust (s : pystr) (w : Z) : encodable (rjust s w) = encodable s.
Proof. unfold rjust. now rewrite encodable_app, encodable_repeat_space. Qed.

Lemma encodable_firstn (n : nat) (s : pystr) :
  encodable s = true -> encodable (firstn n s) = true.
Proof.
  intros H. rewrite <- (firstn_skipn n s), encodable_app in H.
  now apply andb_true_iff in H.
Qed.

Lemma encodable_skipn (n : nat) (s : pystr) :
  encodable s = true -> encodable (skipn n s) = true.
Proof.
  intros H. rewrite <- (firstn_skipn n s), encodable_app in H.
  now apply andb_true_iff in H.
Qed.


(** *** [print] *)

Lemma print_ok (l : pystr) : encodable l = true -> print l = emit l.
Proof. unfold print. now intros ->. Qed.

Lemma print_fails (l : pystr) :
  encodable l = false -> print l = ([], Raise UnicodeEncodeError).
Proof. unfold print. now intros ->. Qed.

Lemma snd_print (l : pystr) :
  snd (print l) = if encodable l then Ok tt else Raise UnicodeEncodeError.
Proof. unfold print. now destruct (encodable l). Qed.

Lemma out_tags_print (l : pystr) :
  out_tags (print l)
  = if encodable l then match tag_of l with Some t => [t] | None => [] end
    else [].
Proof. unfold print. destruct (encodable l); [apply out_tags_emit|reflexivity]. Qed.

(** Proves that a line put together from literals, numerals, colours and
    texts known to be encodable is encodable. *)
Ltac enc :=
  repeat first
    [ rewrite encodable_app | rewrite encodable_color
    | rewrite encodable_str_of_Z | rewrite encodable_ljust
    | rewrite encodable_rjust ];
  repeat match goal with
         | |- _ && _ = true => apply andb_true_intro; split
         end;
  first [assumption | reflexivity | apply encodable_str_of_Z
        | now apply encodable_firstn | now apply encodable_skipn ].

Lemma tag_of_no_display tty lines :
  tag_of (yellow tty (msg_no_display lines)) = Some WNoDisplay.
Proof. destruct tty; reflexivity. Qed.

Lemma tag_of_odd_columns tty lines :
  tag_of (yellow tty (msg_odd_columns lines)) = Some WOddColumns.
Proof. destruct tty; reflexivity. Qed.

Lemma tag_of_source_cols tty cols lines :
  tag_of (yellow tty (msg_source_cols cols lines)) = Some WSourceCols.
Proof. destruct tty; reflexivity. Qed.

Lemma tag_of_source_rows tty rows lines :
  tag_of (yellow tty (msg_source_rows rows lines)) = Some WSourceRows.
Proof. destruct tty; reflexivity. Qed.

Lemma tag_of_overflow tty lines cols rows diff :
  tag_of (red tty (msg_overflow lines cols rows diff)) = Some EOverflow.
Proof. destruct tty; reflexivity. Qed.

Lemma tag_of_placeholder tty lines :
  tag_of (red tty (msg_placeholder lines)) = Some EPlaceholder.
Proof. destruct tty; reflexivity. Qed.

Lemma tag_of_first tty a b lines :
  tag_of (yellow tty (msg_first a b lines)) = Some WPunctFirst.
Proof. destruct tty; reflexivity. Qed.

Lemma tag_of_last tty a b lines :
  tag_of (yellow tty (msg_last a b lines)) = Some WPunctLast.
Proof. destruct tty; reflexivity. Qed.

Lemma tag_of_short tty lines :
  tag_of (yellow tty (msg_short lines)) = Some WShort.
Proof. destruct tty; reflexivity. Qed.

(** A line that starts with a blank is no diagnostic. *)
Lemma tag_of_blank_start (l : pystr) : tag_of (c_space :: l) = None.
Proof.
  unfold tag_of.
  assert (E : uncolor (c_space :: l) = c_space :: l).
  { unfold uncolor. destruct l as [|? [|? [|? [|? [|? [|? ?]]]]]]; reflexivity. }
  rewrite E. reflexivity.
Qed.

Lemma out_tags_lift {A : Type} (o : outcome A) : out_tags (lift o) = [].
Proof. reflexivity. Qed.

Lemma snd_lift {A : Type} (o : outcome A) : snd (lift o) = o.
Proof. reflexivity. Qed.

Lemma out_tags_ret {A : Type} (a : A) : out_tags (ret a) = [].
Proof. reflexivity. Qed.

Lemma snd_ret {A : Type} (a : A) : snd (ret a) = Ok a.
Proof. reflexivity. Qed.

Lemma tag_of_source_text : tag_of (str " source text:") = None.
Proof. reflexivity. Qed.

Lemma tag_of_translated_text : tag_of (str " translated text:") = None.
Proof. reflexivity. Qed.

Lemma tag_of_empty : tag_of [] = None.
Proof. reflexivity. Qed.

(** The diagnostics are ASCII texts and numerals: [print] writes them on
    every platform. *)
Lemma print_no_display tty lines :
  print (yellow tty (msg_no_display lines)) = emit (yellow tty (msg_no_display lines)).
Proof. apply print_ok. unfold yellow, msg_no_display. enc. Qed.

Lemma print_odd_columns tty lines :
  print (yellow tty (msg_odd_columns lines)) = emit (yellow tty (msg_odd_columns lines)).
Proof. apply print_ok. unfold yellow, msg_odd_columns. enc. Qed.

Lemma print_source_cols tty cols lines :
  print (yellow tty (msg_source_cols cols lines))
  = emit (yellow tty (msg_source_cols cols lines)).
Proof. apply print_ok. unfold yellow, msg_source_cols. enc. Qed.

Lemma print_source_rows tty rows lines :
  print (yellow tty (msg_source_rows rows lines))
  = emit (yellow tty (msg_source_rows rows lines)).
Proof. apply print_ok. unfold yellow, msg_source_rows. enc. Qed.

Lemma print_overflow tty lines cols rows diff :
  print (red tty (msg_overflow lines cols rows diff))
  = emit (red tty (msg_overflow lines cols rows diff)).
Proof. apply print_ok. unfold red, msg_overflow. enc. Qed.

Lemma print_placeholder tty lines :
  print (red tty (msg_placeholder lines)) = emit (red tty (msg_placeholder lines)).
Proof. apply print_ok. unfold red, msg_placeholder. enc. Qed.

Lemma print_short tty lines :
  print (yellow tty (msg_short lines)) = emit (yellow tty (msg_short lines)).
Proof. apply print_ok. unfold yellow, msg_short. enc. Qed.

Lemma print_source_text : print (str " source text:") = emit (str " source text:").
Proof. now apply print_ok. Qed.

Lemma print_translated_text :
  print (str " translated text:") = emit (str " translated text:").
Proof. now apply print_ok. Qed.

Lemma print_empty : print [] = emit [].
Proof. now apply print_ok. Qed.

(** A line that starts with a blank adds no diagnostic, printed or not. *)
Lemma out_tags_print_blank_start (l : pystr) : out_tags (print (c_space :: l)) = [].
Proof.
  rewrite out_tags_print, tag_of_blank_start. now destruct (encodable _).
Qed.

Lemma print_no_timeout (l : pystr) : snd (print l) <> Timeout.
Proof. rewrite snd_print. destruct (encodable l); discriminate. Qed.

(** *** The displays of a text *)

Lemma out_tags_print_truncated tty text cols :
  out_tags (print_truncated tty text cols) = [].
Proof.
  unfold print_truncated. rewrite out_tags_bind, out_tags_lift, snd_lift.
  cbn [app]. destruct (len text <=? cols).
  - unfold py_ljust. destruct (fits_ssize_t cols); cbn [obind]; [|reflexivity].
    change (str "   |" ++ ?x) with (c_space :: str "  |" ++ x).
    apply out_tags_print_blank_start.
  - change (str "   |" ++ ?x) with (c_space :: str "  |" ++ x).
    apply out_tags_print_blank_start.
Qed.

Lemma snd_print_truncated tty text cols :
  cols <= maxsize -> encodable text = true ->
  snd (print_truncated tty text cols) = Ok tt.
Proof.
  intros Hc He. unfold print_truncated. rewrite snd_bind, snd_lift.
  destruct (len text <=? cols) eqn:E.
  - apply Z.leb_le in E. pose proof (len_nonneg text).
    unfold py_ljust, fits_ssize_t.
    replace ((- maxsize - 1 <=? cols) && (cols <=? maxsize)) with true
      by (symmetry; apply andb_true_iff; split; apply Z.leb_le; lia).
    cbn [obind]. rewrite print_ok; [reflexivity|]. enc.
  - rewrite print_ok; [reflexivity|]. unfold slice_to, slice_from. enc.
Qed.

Lemma print_truncated_no_timeout tty text cols :
  snd (print_truncated tty text cols) <> Timeout.
Proof.
  unfold print_truncated. rewrite snd_bind, snd_lift.
  destruct (len text <=? cols).
  - unfold py_ljust. destruct (fits_ssize_t cols); cbn [obind];
      [apply print_no_timeout|discriminate].
  - apply print_no_timeout.
Qed.

Lemma out_tags_print_wrapped_from tty r wrapped rows cols :
  out_tags (print_wrapped_from tty r wrapped rows cols) = [].
Proof.
  revert r. induction wrapped as [|line more IH]; intros r;
    cbn [print_wrapped_from]; [reflexivity|].
  rewrite out_tags_bind, out_tags_lift, snd_lift. cbn [app].
  destruct (format_width line cols) as [field| |]; [|reflexivity|reflexivity].
  rewrite out_tags_bind. change (str " " ++ ?x) with (c_space :: x).
  rewrite out_tags_print_blank_start. cbn [app].
  destruct (snd (print _)); [apply IH|reflexivity|reflexivity].
Qed.

Lemma snd_print_wrapped_from tty r wrapped rows cols :
  0 <= cols <= maxsize -> Forall (fun l => encodable l = true) wrapped ->
  snd (print_wrapped_from tty r wrapped rows cols) = Ok tt.
Proof.
  intros Hc. revert r. induction wrapped as [|line more IH]; intros r Hw;
    cbn [print_wrapped_from]; [reflexivity|].
  inversion Hw as [|? ? Hl Hm]; subst.
  unfold format_width.
  replace (cols <? 0) with false by (symmetry; apply Z.ltb_ge; lia).
  replace (cols >? maxsize) with false
    by (symmetry; rewrite Z.gtb_ltb; apply Z.ltb_ge; lia).
  rewrite bind_lift_ok. rewrite print_ok.
  - rewrite snd_bind. cbn [snd emit]. now apply IH.
  - destruct (r >=? rows); enc.
Qed.

Lemma print_wrapped_from_no_timeout tty r wrapped rows cols :
  snd (print_wrapped_from tty r wrapped rows cols) <> Timeout.
Proof.
  revert r. induction wrapped as [|line more IH]; intros r;
    cbn [print_wrapped_from]; [discriminate|].
  rewrite snd_bind, snd_lift.
  destruct (format_width line cols) eqn:F; [|discriminate|].
  - rewrite snd_bind, snd_print. destruct (encodable _); [apply IH|discriminate].
  - unfold format_width in F. destruct (cols <? 0); [discriminate|].
    destruct (cols >? maxsize); discriminate.
Qed.

Lemma out_tags_print_wrapped tty wrapped rows cols :
  out_tags (print_wrapped tty wrapped rows cols) = [].
Proof. apply out_tags_print_wrapped_from. Qed.

Lemma snd_print_wrapped tty wrapped rows cols :
  0 <= cols <= maxsize -> Forall (fun l => encodable l = true) wrapped ->
  snd (print_wrapped tty wrapped rows cols) = Ok tt.
Proof. apply snd_print_wrapped_from. Qed.

Create Rewrite HintDb out_db.
#[local] Hint Rewrite @out_tags_bind @snd_bind out_tags_when snd_when
  print_no_display print_odd_columns print_source_cols print_source_rows
  print_overflow print_placeholder print_short print_source_text
  print_translated_text print_empty
  out_tags_emit snd_emit @out_tags_lift @snd_lift @out_tags_ret @snd_ret
  out_tags_print_wrapped out_tags_print_truncated
  tag_of_source_text tag_of_translated_text tag_of_empty
  tag_of_no_display tag_of_odd_columns tag_of_source_cols tag_of_source_rows
  tag_of_overflow tag_of_placeholder tag_of_first tag_of_last tag_of_short
  app_nil_r app_nil_l : out_db.

Lemma out_tags_show tty source translation ws wt rows cols :
  out_tags (print_source_translation tty source translation ws wt rows cols) = [].
Proof.
  unfold print_source_translation.
  destruct (rows =? 1); autorewrite with out_db;
    repeat match goal with
           | |- context [match ?o with Ok _ => _ | Raise _ => _ | Timeout => _ end] =>
               destruct o
           end; reflexivity.
Qed.

#[local] Hint Rewrite out_tags_show : out_db.

Ltac bool_facts :=
  repeat match goal with
  | H : _ && _ = true |- _ => apply andb_true_iff in H; destruct H
  | H : _ || _ = false |- _ => apply orb_false_iff in H; destruct H
  | H : negb _ = true |- _ => apply negb_true_iff in H
  | H : negb _ = false |- _ => apply negb_false_iff in H
  | H : (_ =? _) = true |- _ => apply Z.eqb_eq in H
  | H : (_ =? _) = false |- _ => apply Z.eqb_neq in H
  | H : (_ >? _) = true |- _ => rewrite Z.gtb_ltb in H; apply Z.ltb_lt in H
  | H : (_ >? _) = false |- _ => rewrite Z.gtb_ltb in H; apply Z.ltb_ge in H
  | H : (_ <? _) = true |- _ => apply Z.ltb_lt in H
  | H : (_ <? _) = false |- _ => apply Z.ltb_ge in H
  end.

(** ** The checks, block by block *)

(** Splits the goal on every outcome and condition that is left in it. *)
Ltac split_outcomes :=
  repeat match goal with
         | |- context [match ?o with Ok _ => _ | Raise _ => _ | Timeout => _ end] =>
             destruct o
         | |- context [if ?b then _ else _] => destruct b
         end.

Ltac split_conditions_in H :=
  repeat match type of H with
         | context [if ?b then _ else _] => destruct b
         end.

Section CheckBlocks.

Variables (no_warning tty : bool) (lines cols rows : Z).
Variables (source translation : pystr).
Variables (ws wt : list pystr).

(** The diagnostic is the first line a block prints, and it is always
    written: the diagnostics of a block do not depend on what becomes of the
    display after it. *)
Lemma check_source_overflow_tags :
  out_tags (check_source_overflow no_warning tty lines cols rows source ws)
  = if negb no_warning then
      if (rows =? 1) && ((len source >? cols) || (len ws >? rows))
      then [WSourceCols]
      else if len ws >? rows then [WSourceRows] else []
    else [].
Proof.
  unfold check_source_overflow. rewrite out_tags_when. destruct (negb no_warning); [|reflexivity].
  destruct ((rows =? 1) && _); [|destruct (len ws >? rows)];
    autorewrite with out_db; cbn [snd emit]; autorewrite with out_db;
    split_outcomes; reflexivity.
Qed.

Lemma check_overflow_tags :
  out_tags (check_overflow tty lines cols rows source translation ws wt)
  = if (len wt >? rows) || (rows =? 1) && (len translation >? cols)
    then [EOverflow] else [].
Proof.
  unfold check_overflow. rewrite out_tags_when.
  destruct (_ || _); autorewrite with out_db; reflexivity.
Qed.

Lemma check_placeholder_tags :
  out_tags (check_placeholder tty lines cols rows source translation ws wt)
  = if negb (count c_percent source =? count c_percent translation)
       && (len translation >? 0)
    then [EPlaceholder] else [].
Proof.
  unfold check_placeholder. rewrite out_tags_when.
  destruct (_ && _); autorewrite with out_db; reflexivity.
Qed.

Lemma check_short_out_tags :
  out_tags (check_short no_warning tty lines cols rows source translation ws wt)
  = if negb no_warning && (len source >? 0) && (len translation >? 0)
       && (2 * len (strip translation) <? len (strip source))
    then [WShort] else [].
Proof.
  unfold check_short. rewrite !out_tags_when.
  destruct (negb no_warning && (len source >? 0) && (len translation >? 0));
    [|reflexivity].
  destruct (_ <? _); [|reflexivity].
  autorewrite with out_db. reflexivity.
Qed.

(** The punctuation check prints "first" before "last", and nothing else
    that is a diagnostic. *)
Lemma check_punctuation_tags :
  In (out_tags (check_punctuation no_warning tty lines cols rows source
                  translation ws wt))
     [[]; [WPunctFirst]; [WPunctLast]; [WPunctFirst; WPunctLast]].
Proof.
  unfold check_punctuation. rewrite out_tags_when.
  destruct (negb no_warning && (len source >? 0) && (len translation >? 0));
    [|now left].
  destruct (last_char (strip source)) as [se|e|];
    [rewrite bind_lift_ok; cbv beta|now left|now left].
  destruct (last_char (strip translation)) as [te|e|];
    [rewrite bind_lift_ok; cbv beta|now left|now left].
  destruct (first_char source) as [s0|e|];
    [rewrite bind_lift_ok; cbv beta|now left|now left].
  destruct (first_char translation) as [t0|e|];
    [rewrite bind_lift_ok; cbv beta|now left|now left].
  cbv zeta.
  destruct (negb (ign_char_first s0 && ign_char_first t0) && negb (chr_eqb s0 t0));
    destruct (negb (ign_char_last se && ign_char_last te) && negb (chr_eqb se te));
    cbn [orb when];
    repeat first
      [ progress autorewrite with out_db
      | rewrite out_tags_print | rewrite snd_print
      | rewrite tag_of_first | rewrite tag_of_last
      | match goal with
        | |- context [match ?o with Ok _ => _ | Raise _ => _ | Timeout => _ end] =>
            destruct o
        | |- context [if ?b then _ else _] => destruct b
        end ];
    simpl; tauto.
Qed.

Lemma check_short_tags :
  In (out_tags (check_short no_warning tty lines cols rows source translation ws wt))
     [[]; [WShort]].
Proof. rewrite check_short_out_tags. destruct (_ && _); simpl; tauto. Qed.

(** The diagnostics of the checks: those of the blocks, up to the block
    that raises. *)
Lemma checks_unfold_tags :
  out_tags (checks no_warning tty lines cols rows source translation ws wt)
  = out_tags (check_source_overflow no_warning tty lines cols rows source ws)
    ++ match snd (check_source_overflow no_warning tty lines cols rows source ws) with
       | Ok _ =>
    out_tags (check_overflow tty lines cols rows source translation ws wt)
    ++ match snd (check_overflow tty lines cols rows source translation ws wt) with
       | Ok _ =>
    out_tags (check_placeholder tty lines cols rows source translation ws wt)
    ++ match snd (check_placeholder tty lines cols rows source translation ws wt) with
       | Ok _ =>
    out_tags (check_punctuation no_warning tty lines cols rows source translation
                ws wt)
    ++ match snd (check_punctuation no_warning tty lines cols rows source
                    translation ws wt) with
       | Ok _ => out_tags (check_short no_warning tty lines cols rows source
                             translation ws wt)
       | _ => []
       end
       | _ => []
       end
       | _ => []
       end
       | _ => []
       end.
Proof. unfold checks. now rewrite !out_tags_bind. Qed.

Lemma checks_tags :
  exists o p punct short,
    out_tags (checks no_warning tty lines cols rows source translation ws wt)
    = out_tags (check_source_overflow no_warning tty lines cols rows source ws)
      ++ o ++ p ++ punct ++ short
    /\ (o = out_tags (check_overflow tty lines cols rows source translation ws wt)
        \/ o = [])
    /\ (p = out_tags (check_placeholder tty lines cols rows source translation
                        ws wt)
        \/ p = [])
    /\ (punct = out_tags (check_punctuation no_warning tty lines cols rows source
                            translation ws wt)
        \/ punct = [])
    /\ (short = out_tags (check_short no_warning tty lines cols rows source
                            translation ws wt)
        \/ short = []).
Proof.
  rewrite checks_unfold_tags.
  set (t2 := out_tags (check_overflow tty lines cols rows source translation ws wt)).
  set (t3 := out_tags (check_placeholder tty lines cols rows source translation
                         ws wt)).
  set (t4 := out_tags (check_punctuation no_warning tty lines cols rows source
                         translation ws wt)).
  set (t5 := out_tags (check_short no_warning tty lines cols rows source
                         translation ws wt)).
  destruct (snd (check_source_overflow _ _ _ _ _ _ _));
    [|exists [], [], [], []; repeat split; auto..].
  destruct (snd (check_overflow _ _ _ _ _ _ _ _));
    [|exists t2, [], [], []; rewrite ?app_nil_r; repeat split; auto..].
  destruct (snd (check_placeholder _ _ _ _ _ _ _ _));
    [|exists t2, t3, [], []; rewrite ?app_nil_r; repeat split; auto..].
  destruct (snd (check_punctuation _ _ _ _ _ _ _ _ _));
    [|exists t2, t3, t4, []; rewrite ?app_nil_r; repeat split; auto..].
  exists t2, t3, t4, t5. repeat split; auto.
Qed.

(** Every diagnostic of the checks is one of a block. *)
Lemma in_checks_tags_inv (t : tag) :
  In t (out_tags (checks no_warning tty lines cols rows source translation ws wt))
  -> In t (out_tags (check_source_overflow no_warning tty lines cols rows source ws))
     \/ In t (out_tags (check_overflow tty lines cols rows source translation ws wt))
     \/ In t (out_tags (check_placeholder tty lines cols rows source translation
                          ws wt))
     \/ In t (out_tags (check_punctuation no_warning tty lines cols rows source
                          translation ws wt))
     \/ In t (out_tags (check_short no_warning tty lines cols rows source
                          translation ws wt)).
Proof.
  destruct checks_tags as (o & p & punct & short & -> & Ho & Hp & Hq & Hs).
  rewrite !in_app_iff.
  destruct Ho as [->| ->], Hp as [->| ->], Hq as [->| ->], Hs as [->| ->];
    simpl; tauto.
Qed.

Lemma checks_tags_sets :
  exists l o p punct short,
    out_tags (checks no_warning tty lines cols rows source translation ws wt)
    = l ++ o ++ p ++ punct ++ short
    /\ In l [ []; [WSourceCols]; [WSourceRows] ]
    /\ In o [ []; [EOverflow] ] /\ In p [ []; [EPlaceholder] ]
    /\ In punct [ []; [WPunctFirst]; [WPunctLast]; [WPunctFirst; WPunctLast] ]
    /\ In short [ []; [WShort] ].
Proof.
  destruct checks_tags as (o & p & punct & short & E & Ho & Hp & Hq & Hs).
  exists (out_tags (check_source_overflow no_warning tty lines cols rows source ws)),
    o, p, punct, short.
  split; [exact E|]. split; [|split; [|split; [|split]]].
  - rewrite check_source_overflow_tags. split_outcomes; simpl; tauto.
  - destruct Ho as [->| ->]; [|now left].
    rewrite check_overflow_tags. split_outcomes; simpl; tauto.
  - destruct Hp as [->| ->]; [|now left].
    rewrite check_placeholder_tags. split_outcomes; simpl; tauto.
  - destruct Hq as [->| ->]; [|now left]. apply check_punctuation_tags.
  - destruct Hs as [->| ->]; [|now left]. apply check_short_tags.
Qed.

(** *** No block runs out of fuel *)

Lemma show_no_timeout :
  snd (print_source_translation tty source translation ws wt rows cols)
  <> Timeout.
Proof.
  unfold print_source_translation.
  apply bind_no_timeout; [|intros _; apply print_no_timeout].
  destruct (rows =? 1);
    repeat (apply bind_no_timeout; [|intros _]);
    first [apply print_no_timeout | apply print_truncated_no_timeout
          | apply print_wrapped_from_no_timeout].
Qed.

Lemma check_source_overflow_no_timeout :
  snd (check_source_overflow no_warning tty lines cols rows source ws) <> Timeout.
Proof.
  unfold check_source_overflow. rewrite snd_when.
  destruct (negb no_warning); [|discriminate].
  destruct ((rows =? 1) && _); [|destruct (len ws >? rows); [|discriminate]];
    repeat (apply bind_no_timeout; [|intros _]);
    first [apply print_no_timeout | apply print_truncated_no_timeout
          | apply print_wrapped_from_no_timeout].
Qed.

Lemma check_overflow_no_timeout :
  snd (check_overflow tty lines cols rows source translation ws wt) <> Timeout.
Proof.
  unfold check_overflow. rewrite snd_when. destruct (_ || _); [|discriminate].
  apply bind_no_timeout; [apply print_no_timeout|intros _; apply show_no_timeout].
Qed.

Lemma check_placeholder_no_timeout :
  snd (check_placeholder tty lines cols rows source translation ws wt) <> Timeout.
Proof.
  unfold check_placeholder. rewrite snd_when. destruct (_ && _); [|discriminate].
  apply bind_no_timeout; [apply print_no_timeout|intros _; apply show_no_timeout].
Qed.

Lemma check_short_no_timeout :
  snd (check_short no_warning tty lines cols rows source translation ws wt)
  <> Timeout.
Proof.
  unfold check_short. rewrite !snd_when.
  destruct (_ && _); [|discriminate]. destruct (_ <? _); [|discriminate].
  apply bind_no_timeout; [apply print_no_timeout|intros _; apply show_no_timeout].
Qed.

Lemma check_punctuation_no_timeout :
  snd (check_punctuation no_warning tty lines cols rows source translation ws wt)
  <> Timeout.
Proof.
  unfold check_punctuation. rewrite snd_when.
  destruct (negb no_warning && (len source >? 0) && (len translation >? 0));
    [|discriminate].
  apply bind_no_timeout;
    [unfold last_char; destruct (rev _); discriminate|intros source_end].
  apply bind_no_timeout;
    [unfold last_char; destruct (rev _); discriminate|intros translation_end].
  apply bind_no_timeout;
    [unfold first_char; destruct source; discriminate|intros source_0].
  apply bind_no_timeout;
    [unfold first_char; destruct translation; discriminate|intros translation_0].
  cbv zeta. rewrite snd_when. destruct (_ || _); [|discriminate].
  apply bind_no_timeout;
    [rewrite snd_when; destruct (_ && _); [apply print_no_timeout|discriminate]|].
  intros _. apply bind_no_timeout; [|intros _; apply show_no_timeout].
  rewrite snd_when. destruct (_ && _); [|discriminate].
  apply bind_no_timeout;
    [unfold last_char; destruct (rev _); discriminate|intros source_last].
  apply bind_no_timeout;
    [unfold last_char; destruct (rev _); discriminate|intros translation_last].
  apply print_no_timeout.
Qed.

Lemma checks_no_timeout :
  snd (checks no_warning tty lines cols rows source translation ws wt) <> Timeout.
Proof.
  unfold checks.
  apply bind_no_timeout; [apply check_source_overflow_no_timeout|intros _].
  apply bind_no_timeout; [apply check_overflow_no_timeout|intros _].
  apply bind_no_timeout; [apply check_placeholder_no_timeout|intros _].
  apply bind_no_timeout; [apply check_punctuation_no_timeout|intros _].
  apply check_short_no_timeout.
Qed.

(** *** The blocks on texts that [stdout] can show *)

Section Displayed.

Hypothesis Hcols : 0 <= cols <= maxsize.
Hypothesis Hsource : encodable source = true.
Hypothesis Hws : Forall (fun l => encodable l = true) ws.

Lemma check_source_overflow_ok :
  snd (check_source_overflow no_warning tty lines cols rows source ws) = Ok tt.
Proof.
  unfold check_source_overflow. rewrite snd_when. destruct (negb no_warning); [|reflexivity].
  destruct ((rows =? 1) && _); [|destruct (len ws >? rows)];
    autorewrite with out_db; cbn [snd emit];
    rewrite ?snd_print_truncated, ?snd_print_wrapped by (assumption || lia);
    autorewrite with out_db; reflexivity.
Qed.

Hypothesis Htranslation : encodable translation = true.
Hypothesis Hwt : Forall (fun l => encodable l = true) wt.

Lemma snd_show :
  snd (print_source_translation tty source translation ws wt rows cols) = Ok tt.
Proof.
  unfold print_source_translation.
  destruct (rows =? 1); autorewrite with out_db; cbn [snd emit];
    rewrite ?snd_print_truncated, ?snd_print_wrapped by (assumption || lia);
    cbn [snd emit];
    rewrite ?snd_print_truncated, ?snd_print_wrapped by (assumption || lia);
    autorewrite with out_db; reflexivity.
Qed.

Lemma check_overflow_ok :
  snd (check_overflow tty lines cols rows source translation ws wt) = Ok tt.
Proof.
  unfold check_overflow. rewrite snd_when.
  destruct (_ || _); autorewrite with out_db; cbn [snd emit];
    rewrite ?snd_show; reflexivity.
Qed.

Lemma check_placeholder_ok :
  snd (check_placeholder tty lines cols rows source translation ws wt) = Ok tt.
Proof.
  unfold check_placeholder. rewrite snd_when.
  destruct (_ && _); autorewrite with out_db; cbn [snd emit];
    rewrite ?snd_show; reflexivity.
Qed.

Lemma check_short_ok :
  snd (check_short no_warning tty lines cols rows source translation ws wt)
  = Ok tt.
Proof.
  unfold check_short. rewrite !snd_when.
  destruct (negb no_warning && (len source >? 0) && (len translation >? 0));
    [|reflexivity].
  destruct (_ <? _); [|reflexivity].
  autorewrite with out_db. cbn [snd emit]. rewrite ?snd_show. reflexivity.
Qed.


Lemma checks_outcome :
  snd (checks no_warning tty lines cols rows source translation ws wt)
  = snd (check_punctuation no_warning tty lines cols rows source translation ws wt).
Proof.
  unfold checks.
  rewrite snd_bind, check_source_overflow_ok.
  rewrite snd_bind, check_overflow_ok.
  rewrite snd_bind, check_placeholder_ok.
  rewrite snd_bind, check_short_ok.
  destruct (snd _) as [[]| |]; reflexivity.
Qed.

End Displayed.

(** When the source is shown, the checks reach the overflow check. *)
Lemma checks_tags_from_overflow :
  snd (check_source_overflow no_warning tty lines cols rows source ws) = Ok tt ->
  exists rest,
    out_tags (checks no_warning tty lines cols rows source translation ws wt)
    = out_tags (check_source_overflow no_warning tty lines cols rows source ws)
      ++ out_tags (check_overflow tty lines cols rows source translation ws wt)
      ++ rest.
Proof. intros H. rewrite checks_unfold_tags, H. eexists. reflexivity. Qed.

End CheckBlocks.



(** ** Words *)

Lemma re_ws_isspace (c : char) : re_ws c = true -> py_isspace c = true.
Proof.
  unfold re_ws, py_isspace. intros H.
  apply orb_true_iff in H. destruct H as [H|H].
  - rewrite H. reflexivity.
  - apply N.eqb_eq in H. subst c. reflexivity.
Qed.

Section Words.

Variable sp : char -> bool.

Lemma words_from_space cur a c b :
  sp c = true ->
  words_from sp cur (a ++ c :: b) = words_from sp cur a ++ words_from sp [] b.
Proof.
  intros Hc. revert cur. induction a as [|x a IH]; intros cur; simpl.
  - now rewrite Hc.
  - destruct (sp x); [|apply IH].
    now rewrite IH, app_assoc.
Qed.

Lemma words_from_all_space cur a :
  forallb sp a = true -> words_from sp cur a = flush cur.
Proof.
  revert cur. induction a as [|x a IH]; intros cur H; simpl in *; [reflexivity|].
  apply andb_true_iff in H. destruct H as [Hx Ha].
  rewrite Hx, IH by assumption. simpl. apply app_nil_r.
Qed.

(** Two texts that meet at whitespace have the words of both. *)
Lemma words_from_app a b :
  (exists a' c, a = a' ++ [c] /\ sp c = true)
  \/ (exists c b', b = c :: b' /\ sp c = true) ->
  words_from sp [] (a ++ b) = words_from sp [] a ++ words_from sp [] b.
Proof.
  intros [(a' & c & -> & Hc)|(c & b' & -> & Hc)].
  - rewrite <- app_assoc. simpl.
    rewrite !words_from_space by assumption. simpl. now rewrite app_nil_r.
  - rewrite words_from_space by assumption. simpl. now rewrite Hc.
Qed.

End Words.

Lemma space_chunk_no_words (c : pystr) :
  space_chunk c = true -> py_words c = [].
Proof.
  intros H. unfold py_words. apply words_from_all_space.
  unfold space_chunk in H. rewrite forallb_forall in *.
  intros x Hx. apply re_ws_isspace. now apply H.
Qed.

Lemma space_chunk_last (c : pystr) :
  c <> [] -> space_chunk c = true ->
  exists c' x, c = c' ++ [x] /\ py_isspace x = true.
Proof.
  intros Hne H. destruct (exists_last Hne) as (c' & x & ->).
  exists c', x. split; [reflexivity|].
  unfold space_chunk in H. rewrite forallb_app in H.
  apply andb_true_iff in H. destruct H as [_ H]. simpl in H.
  apply re_ws_isspace. now destruct (re_ws x).
Qed.

Lemma space_chunk_head (c : pystr) :
  c <> [] -> space_chunk c = true ->
  exists x c', c = x :: c' /\ py_isspace x = true.
Proof.
  intros Hne H. destruct c as [|x c']; [congruence|].
  exists x, c'. split; [reflexivity|].
  simpl in H. apply andb_true_iff in H. now apply re_ws_isspace.
Qed.

Lemma py_words_concat (chunks : list pystr) :
  Forall (fun c => c <> []) chunks -> separated chunks ->
  py_words (concat chunks) = concat (map py_words chunks).
Proof.
  induction chunks as [|c1 chunks IH]; intros Hne Hsep; [reflexivity|].
  inversion Hne as [|? ? Hc1 Hrest]; subst.
  destruct chunks as [|c2 more].
  - simpl. now rewrite !app_nil_r.
  - destruct Hsep as [Hs Hsep].
    change (concat (c1 :: c2 :: more)) with (c1 ++ concat (c2 :: more)).
    change (map py_words (c1 :: c2 :: more))
      with (py_words c1 :: map py_words (c2 :: more)).
    cbn [concat]. rewrite <- IH by assumption.
    cbn [concat]. unfold py_words. apply words_from_app.
    apply orb_true_iff in Hs. destruct Hs as [Hs|Hs].
    + left. now apply space_chunk_last.
    + right. inversion Hrest; subst.
      destruct (space_chunk_head c2) as (x & c' & -> & Hx); try assumption.
      exists x, (c' ++ concat more). split; [reflexivity|assumption].
Qed.


(** ** The chunks of [_split] *)

Lemma flush_concat (cur : pystr) : concat (flush cur) = rev cur.
Proof. destruct cur; [reflexivity|]. simpl flush. cbn [concat]. apply app_nil_r. Qed.

Lemma wordsep_step_concat prev cur k c rest' :
  (k = AtStart -> cur = []) ->
  let '(done, cur', k') := wordsep_step prev cur k c rest' in
  concat done ++ rev cur' = rev cur ++ [c] /\ (k' = AtStart -> cur' = []).
Proof.
  intros Hk. unfold wordsep_step.
  destruct k.
  - rewrite Hk by reflexivity. split; [reflexivity|].
    destruct (re_ws c); [discriminate|]. destruct (emdash_at _ _); discriminate.
  - destruct (re_ws c).
    + split; [reflexivity|discriminate].
    + split; [simpl; now rewrite app_nil_r|].
      destruct (emdash_at _ _); discriminate.
  - destruct (chr_eqb c c_hyphen).
    + split; [reflexivity|discriminate].
    + split; [simpl; now rewrite app_nil_r|].
      destruct (re_ws c); [discriminate|]. destruct (emdash_at _ _); discriminate.
  - destruct (hyphen_break prev c rest').
    + split; [simpl; now rewrite !app_nil_r|reflexivity].
    + destruct (re_ws c || emdash_at prev (c :: rest')).
      * split; [simpl; now rewrite app_nil_r|].
        destruct (re_ws c); [discriminate|]. destruct (emdash_at _ _); discriminate.
      * split; [reflexivity|discriminate].
Qed.

(** The matches leave no gap: together they are the text. *)
Lemma wordsep_concat prev cur k rest :
  (k = AtStart -> cur = []) ->
  concat (wordsep prev cur k rest) = rev cur ++ rest.
Proof.
  revert prev cur k. induction rest as [|c rest' IH]; intros prev cur k Hk.
  - simpl. destruct cur; [reflexivity|]. simpl. now rewrite !app_nil_r.
  - cbn [wordsep].
    pose proof (wordsep_step_concat prev cur k c rest' Hk) as H.
    destruct (wordsep_step prev cur k c rest') as [[done cur'] k'].
    destruct H as [H1 H2].
    rewrite concat_app, IH by assumption.
    rewrite app_assoc, H1, <- app_assoc. reflexivity.
Qed.

Lemma _split_concat (text : pystr) : concat (_split text) = text.
Proof. unfold _split. now rewrite wordsep_concat. Qed.

Lemma emdash_at_no_hyphen prev c rest' :
  c <> c_hyphen -> emdash_at prev (c :: rest') = false.
Proof.
  intros Hc. unfold emdash_at. destruct prev as [|p prev]; [reflexivity|].
  simpl. unfold chr_eqb. destruct (N.eqb_spec c c_hyphen); [contradiction|].
  simpl. apply andb_false_r.
Qed.

Lemma hyphen_break_no_hyphen prev c rest' :
  c <> c_hyphen -> hyphen_break prev c rest' = false.
Proof.
  intros Hc. unfold hyphen_break, chr_eqb.
  destruct (N.eqb_spec c c_hyphen); [contradiction|reflexivity].
Qed.

(** Without hyphens the matches are the runs of whitespace and of other
    characters. *)
Lemma wordsep_runs prev cur k rest :
  ~ In c_hyphen rest ->
  match k with
  | AtStart => cur = []
  | InSpace | InWord => cur <> []
  | InDash => False
  end ->
  wordsep prev cur k rest = runs cur (in_space k) rest.
Proof.
  revert prev cur k. induction rest as [|c rest' IH]; intros prev cur k Hh Hk.
  - reflexivity.
  - assert (Hc : c <> c_hyphen) by (intros ->; apply Hh; now left).
    assert (Hh' : ~ In c_hyphen rest') by (intros H; apply Hh; now right).
    cbn [wordsep runs]. unfold wordsep_step.
    rewrite (emdash_at_no_hyphen prev c rest' Hc).
    rewrite (hyphen_break_no_hyphen prev c rest' Hc).
    rewrite orb_false_r.
    destruct k; [subst cur| | contradiction |]; destruct (re_ws c) eqn:Ews;
      cbn [in_space Bool.eqb flush app];
      try (rewrite IH by (try assumption; discriminate); reflexivity).
    + destruct cur; [congruence|]. cbn [flush app].
      rewrite IH by (try assumption; discriminate). reflexivity.
    + destruct cur; [congruence|]. cbn [flush app].
      rewrite IH by (try assumption; discriminate). reflexivity.
Qed.

Lemma _split_runs (text : pystr) :
  ~ In c_hyphen text -> _split text = runs [] false text.
Proof. intros H. unfold _split. now rewrite wordsep_runs. Qed.

Lemma flush_nonempty (cur : pystr) : Forall (fun c => c <> []) (flush cur).
Proof.
  destruct cur as [|x cur]; simpl; constructor; [|constructor].
  intros H. apply (f_equal (@length _)) in H.
  simpl in H. rewrite length_app in H. simpl in H. lia.
Qed.

Lemma runs_nonempty cur b rest : Forall (fun c => c <> []) (runs cur b rest).
Proof.
  revert cur b. induction rest as [|c r IH]; intros cur b; simpl.
  - apply flush_nonempty.
  - destruct (Bool.eqb (re_ws c) b); [apply IH|].
    apply Forall_app. split; [apply flush_nonempty|apply IH].
Qed.

Lemma space_chunk_rev (c : pystr) : space_chunk (rev c) = space_chunk c.
Proof.
  unfold space_chunk. induction c as [|x c IH]; [reflexivity|].
  simpl. rewrite forallb_app, IH. simpl. rewrite andb_true_r. apply andb_comm.
Qed.

(** A run of whitespace under way ends up as a chunk of whitespace at the
    head of the runs. *)
Lemma runs_space_head cur rest :
  cur <> [] -> space_chunk cur = true ->
  exists h t, runs cur true rest = h :: t /\ space_chunk h = true.
Proof.
  revert cur. induction rest as [|c r IH]; intros cur Hne Hsp; simpl.
  - destruct cur as [|x cur]; [congruence|]. exists (rev (x :: cur)), [].
    split; [reflexivity|]. now rewrite space_chunk_rev.
  - destruct (re_ws c) eqn:E; simpl.
    + apply IH; [discriminate|]. simpl. now rewrite E.
    + destruct cur as [|x cur]; [congruence|]. simpl.
      exists (rev (x :: cur)), (runs [c] false r).
      split; [reflexivity|]. now rewrite space_chunk_rev.
Qed.

Lemma separated_cons_space c chunks :
  space_chunk c = true -> separated chunks -> separated (c :: chunks).
Proof.
  intros Hc Hs. destruct chunks as [|c2 more]; [exact I|].
  split; [now rewrite Hc|assumption].
Qed.

Lemma runs_separated cur b rest :
  (b = true -> space_chunk cur = true) -> separated (runs cur b rest).
Proof.
  revert cur b. induction rest as [|c r IH]; intros cur b Hb; simpl.
  - destruct cur; simpl; exact I.
  - destruct (re_ws c) eqn:E; destruct b; simpl.
    + apply IH. intros _. simpl. rewrite E. now apply Hb.
    + destruct cur as [|x cur]; simpl.
      * apply IH. intros _. simpl. now rewrite E.
      * destruct (runs_space_head [c] r) as (h & t & Hr & Hh);
          [discriminate|simpl; now rewrite E|].
        pose proof (IH [c] true) as Hs. rewrite Hr in *.
        split; [rewrite Hh; apply orb_true_r|].
        apply Hs. intros _. simpl. now rewrite E.
    + destruct cur as [|x cur]; simpl.
      * apply IH. discriminate.
      * apply separated_cons_space.
        -- rewrite <- (space_chunk_rev (x :: cur)) in Hb. now apply Hb.
        -- apply IH. discriminate.
    + apply IH. discriminate.
Qed.

(** Every run is whitespace or a word of the text. *)
Lemma runs_words cur b rest :
  (b = true -> space_chunk cur = true) ->
  Forall (fun c => space_chunk c = true
                   \/ In c (words_from re_ws (if b then [] else cur) rest))
         (runs cur b rest).
Proof.
  revert cur b. induction rest as [|c r IH]; intros cur b Hb; simpl.
  - destruct cur as [|x cur]; simpl; [constructor|].
    constructor; [|constructor].
    destruct b.
    + left. rewrite <- (space_chunk_rev (x :: cur)) in Hb. now apply Hb.
    + right. now left.
  - destruct (re_ws c) eqn:E; destruct b; simpl.
    + apply (IH (c :: cur) true). intros _. simpl. rewrite E. now apply Hb.
    + apply Forall_app. split.
      * destruct cur as [|x cur]; simpl; [constructor|].
        constructor; [|constructor]. right. now left.
      * assert (H : true = true -> space_chunk [c] = true)
          by (intros _; simpl; now rewrite E).
        specialize (IH [c] true H). simpl in IH.
        eapply Forall_impl; [|exact IH]. simpl.
        intros a [Ha|Ha]; [now left|right]. apply in_or_app. now right.
    + apply Forall_app. split.
      * destruct cur as [|x cur]; simpl; [constructor|].
        constructor; [|constructor]. left.
        rewrite <- (space_chunk_rev (x :: cur)) in Hb. now apply Hb.
      * apply (IH [c] false). discriminate.
    + apply (IH (c :: cur) false). discriminate.
Qed.


(** ** Blank chunks *)

Lemma lstrip_by_head p s c r : lstrip_by p s = c :: r -> p c = false.
Proof.
  induction s as [|x s IH]; simpl; [discriminate|].
  destruct (p x) eqn:E; [exact IH|]. intros H. injection H as -> _. exact E.
Qed.

Lemma lstrip_by_all p s : forallb p s = true -> lstrip_by p s = [].
Proof.
  induction s as [|x s IH]; simpl; [reflexivity|].
  intros H. apply andb_true_iff in H. destruct H as [Hx Hs]. now rewrite Hx, IH.
Qed.

Lemma lstrip_by_nil p s : lstrip_by p s = [] -> forallb p s = true.
Proof.
  induction s as [|x s IH]; simpl; [reflexivity|].
  destruct (p x); [exact IH|discriminate].
Qed.

Lemma strip_by_nil_iff p s : strip_by p s = [] <-> forallb p s = true.
Proof.
  unfold strip_by, rstrip_by. split.
  - intros H. apply lstrip_by_nil.
    destruct (lstrip_by p s) as [|c r] eqn:E; [reflexivity|].
    apply lstrip_by_head in E.
    apply (f_equal (@rev _)) in H. rewrite rev_involutive in H. simpl in H.
    apply lstrip_by_nil in H. rewrite forallb_app in H.
    apply andb_true_iff in H. destruct H as [_ H]. simpl in H.
    rewrite E in H. discriminate.
  - intros H. now rewrite (lstrip_by_all p s H).
Qed.

Lemma blank_iff (c : pystr) : blank c = true <-> forallb py_isspace c = true.
Proof.
  unfold blank, strip. rewrite <- strip_by_nil_iff.
  destruct (strip_by py_isspace c); split; congruence.
Qed.

Lemma blank_no_words (c : pystr) : blank c = true -> py_words c = [].
Proof.
  intros H. apply blank_iff in H. unfold py_words.
  now rewrite words_from_all_space.
Qed.

Lemma space_chunk_blank (c : pystr) : space_chunk c = true -> blank c = true.
Proof.
  intros H. apply blank_iff. unfold space_chunk in H.
  rewrite forallb_forall in *. intros x Hx. apply re_ws_isspace. now apply H.
Qed.

(** ** One pass of [_wrap_chunks] *)

Lemma fill_line_spec width cur_len cur_line chunks :
  exists pre post,
    fill_line width cur_len cur_line chunks
    = (cur_line ++ pre, cur_len + len (concat pre), post)
    /\ chunks = pre ++ post
    /\ match post with
       | [] => True
       | c :: _ => cur_len + len (concat pre) + len c > width
       end
    /\ (cur_len <= width -> cur_len + len (concat pre) <= width).
Proof.
  revert cur_len cur_line. induction chunks as [|c r IH]; intros cur_len cur_line.
  - exists [], []. simpl. rewrite app_nil_r. repeat split.
    + f_equal. f_equal. unfold len. simpl. lia.
    + unfold len. simpl. lia.
  - simpl. destruct (cur_len + len c <=? width) eqn:E.
    + destruct (IH (cur_len + len c) (cur_line ++ [c]))
        as (pre & post & H1 & H2 & H3 & H4).
      apply Z.leb_le in E.
      exists (c :: pre), post. rewrite H1. repeat split.
      * rewrite <- app_assoc. simpl. f_equal. f_equal.
        rewrite len_app. lia.
      * simpl. now rewrite H2.
      * destruct post; [exact I|]. simpl concat. rewrite len_app. lia.
      * intros _. simpl concat. rewrite len_app. lia.
    + exists [], (c :: r). rewrite app_nil_r. repeat split.
      * f_equal. f_equal. unfold len. simpl. lia.
      * apply Z.leb_gt in E. unfold len at 1. simpl. lia.
      * unfold len. simpl. lia.
Qed.

Lemma rfind_from_bound ch s i best :
  best < i + len s -> rfind_from ch s i best < i + len s.
Proof.
  revert i best. induction s as [|x s IH]; intros i best H; simpl.
  - exact H.
  - rewrite len_cons in *. pose proof (len_nonneg s). destruct (chr_eqb x ch).
    + replace (i + (1 + len s)) with (i + 1 + len s) by lia. apply IH. lia.
    + replace (i + (1 + len s)) with (i + 1 + len s) by lia. apply IH. lia.
Qed.

Lemma slice_to_from (s : pystr) (i : Z) : slice_to s i ++ slice_from s i = s.
Proof. apply firstn_skipn. Qed.

Lemma len_slice_to (s : pystr) (i : Z) : 0 <= i -> len (slice_to s i) <= i.
Proof.
  intros H. unfold slice_to, slice_index, len.
  destruct (i <? 0) eqn:E; [apply Z.ltb_lt in E; lia|].
  rewrite length_firstn. lia.
Qed.

(** What [_handle_long_word] does to a chunk that is longer than the width:
    the two pieces make up the chunk, something is left of it, and on an
    empty line something is taken from it. *)
Lemma _handle_long_word_spec chunk cur_len width :
  0 < width -> 0 <= cur_len <= width -> len chunk > width ->
  let '(piece, remainder) := _handle_long_word chunk cur_len width in
  piece ++ remainder = chunk /\ remainder <> []
  /\ (cur_len = 0 -> piece <> []).
Proof.
  intros Hw Hc Hl. unfold _handle_long_word.
  destruct (width <? 1) eqn:E; [apply Z.ltb_lt in E; lia|].
  set (space_left := width - cur_len).
  set (hyphen := rfind c_hyphen chunk space_left).
  assert (Hh : hyphen < space_left).
  { unfold hyphen, rfind.
    pose proof (rfind_from_bound c_hyphen (slice_to chunk space_left) 0 (-1)) as B.
    pose proof (len_slice_to chunk space_left) as L.
    pose proof (len_nonneg (slice_to chunk space_left)).
    unfold space_left in *. lia. }
  set (end_ := if (len chunk >? space_left) && (hyphen >? 0) && _
               then hyphen + 1 else space_left).
  assert (He : 0 <= end_ <= space_left /\ (cur_len = 0 -> 1 <= end_)).
  { unfold end_. destruct (_ && _) eqn:C.
    - apply andb_true_iff in C. destruct C as [C _].
      apply andb_true_iff in C. destruct C as [_ C].
      rewrite Z.gtb_ltb in C. apply Z.ltb_lt in C. lia.
    - unfold space_left. lia. }
  clearbody end_. split; [apply slice_to_from|].
  assert (Hi : slice_index chunk end_ = Z.to_nat end_).
  { unfold slice_index. destruct (end_ <? 0) eqn:C; [apply Z.ltb_lt in C; lia|].
    reflexivity. }
  split.
  - unfold slice_from. rewrite Hi. intros H.
    apply (f_equal (@length _)) in H. rewrite length_skipn in H. simpl in H.
    unfold len, space_left in *. lia.
  - intros H0. unfold slice_to. rewrite Hi. intros H.
    apply (f_equal (@length _)) in H. rewrite length_firstn in H. simpl in H.
    unfold len, space_left in *. lia.
Qed.

Lemma measure_app a b : measure (a ++ b) = (measure a + measure b)%nat.
Proof. unfold measure. rewrite concat_app, !length_app. lia. Qed.

Lemma measure_cons c r : measure (c :: r) = (length c + 1 + measure r)%nat.
Proof. unfold measure. simpl. rewrite length_app. lia. Qed.

Lemma drop_trailing_blank_cases cur_line :
  drop_trailing_blank cur_line = cur_line
  \/ exists c, cur_line = drop_trailing_blank cur_line ++ [c] /\ blank c = true.
Proof.
  unfold drop_trailing_blank.
  destruct (rev cur_line) as [|c r] eqn:E; [now left|].
  destruct (blank c) eqn:B; [|now left].
  right. exists c. split; [|assumption].
  apply (f_equal (@rev _)) in E. rewrite rev_involutive in E. exact E.
Qed.


Lemma drop_trailing_blank_snoc cur_line c :
  blank c = true -> drop_trailing_blank (cur_line ++ [c]) = cur_line.
Proof.
  intros H. unfold drop_trailing_blank. rewrite rev_app_distr. simpl.
  rewrite H. apply rev_involutive.
Qed.

Lemma measure_drop_trailing cur_line :
  (measure (drop_trailing_blank cur_line) <= measure cur_line)%nat.
Proof.
  destruct (drop_trailing_blank_cases cur_line) as [->|(c & E & _)]; [lia|].
  rewrite E at 2. rewrite measure_app. lia.
Qed.

(** Every pass of the loop takes a chunk or a character off the stack. *)
Lemma _wrap_chunks_pass_measure width c0 rest0 lines :
  0 < width ->
  (measure (fst (_wrap_chunks_pass width c0 rest0 lines))
   < measure (c0 :: rest0))%nat.
Proof.
  intros Hw. unfold _wrap_chunks_pass.
  set (chunks1 := if blank c0 && _ then rest0 else c0 :: rest0).
  assert (H1 : chunks1 = rest0 \/ chunks1 = c0 :: rest0)
    by (unfold chunks1; destruct (_ && _); auto).
  destruct (fill_line_spec width 0 [] chunks1) as (pre & post & F & E & C & B).
  rewrite F. cbn [app]. clearbody chunks1.
  assert (Hfin : forall chunks' cur_line,
    (measure chunks' < measure (c0 :: rest0))%nat ->
    (measure (fst (match drop_trailing_blank cur_line with
                   | [] => (chunks', lines)
                   | _ :: _ => (chunks', lines ++ [join (drop_trailing_blank cur_line)])
                   end)) < measure (c0 :: rest0))%nat).
  { intros chunks' cur_line H. now destruct (drop_trailing_blank cur_line). }
  assert (Hm : (measure post <= measure chunks1)%nat)
    by (rewrite E, measure_app; lia).
  assert (Hm1 : (measure chunks1 <= measure (c0 :: rest0))%nat)
    by (destruct H1 as [->| ->]; [rewrite measure_cons|]; lia).
  destruct post as [|c r].
  - apply Hfin. rewrite app_nil_r in E. subst pre.
    destruct H1 as [->| ->]; [rewrite measure_cons; lia|].
    unfold measure at 1. simpl. rewrite measure_cons. lia.
  - destruct (len c >? width) eqn:L.
    + rewrite Z.gtb_ltb in L. apply Z.ltb_lt in L.
      pose proof (_handle_long_word_spec c (0 + len (concat pre)) width Hw) as S.
      pose proof (len_nonneg (concat pre)).
      destruct (_handle_long_word c (0 + len (concat pre)) width) as [piece remainder].
      destruct S as (S1 & S2 & S3); [lia|lia|].
      apply Hfin. rewrite measure_cons.
      assert (length piece + length remainder = length c)%nat
        by (rewrite <- S1, length_app; lia).
      destruct pre as [|p pre].
      * assert (piece <> []) by (apply S3; unfold len; simpl; lia).
        assert (length piece <> 0)%nat by (destruct piece; simpl; congruence).
        rewrite measure_cons in Hm. lia.
      * rewrite E in Hm1. rewrite ?measure_app, ?measure_cons in *. lia.
    + apply Hfin. rewrite Z.gtb_ltb in L. apply Z.ltb_ge in L.
      destruct pre as [|p pre].
      * unfold len in C at 1. simpl in C. lia.
      * rewrite E in Hm1. rewrite ?measure_app, ?measure_cons in *. lia.
Qed.

(** [_wrap_chunks] ends within its fuel. *)
Lemma _wrap_chunks_loop_ends fuel width chunks lines :
  0 < width -> (measure chunks < fuel)%nat ->
  exists res, _wrap_chunks_loop fuel width chunks lines = Ok res.
Proof.
  intros Hw. revert chunks lines.
  induction fuel as [|fuel IH]; intros chunks lines Hf; [lia|].
  destruct chunks as [|c0 rest0]; [now exists lines|].
  cbn [_wrap_chunks_loop].
  pose proof (_wrap_chunks_pass_measure width c0 rest0 lines Hw) as P.
  destruct (_wrap_chunks_pass width c0 rest0 lines) as [chunks' lines'].
  apply IH. simpl in P. lia.
Qed.

Theorem wrap_never_times_out width text : wrap width text <> Timeout.
Proof.
  unfold wrap, _wrap_chunks. destruct width as [w|]; [|discriminate].
  destruct (w <=? 0) eqn:E; [discriminate|]. apply Z.leb_gt in E.
  destruct (_wrap_chunks_loop_ends (wrap_fuel (_split_chunks text)) w
              (_split_chunks text) [] E) as (res & ->); [|discriminate].
  unfold wrap_fuel. lia.
Qed.


(** ** A text that fits on one line *)

Lemma expandtabs_no_tab col text :
  ~ In c_tab text -> expandtabs col text = text.
Proof.
  revert col. induction text as [|c r IH]; intros col H; [reflexivity|].
  simpl. unfold chr_eqb. destruct (N.eqb_spec c c_tab) as [->|_].
  - exfalso. apply H. now left.
  - assert (H' : ~ In c_tab r) by (intros X; apply H; now right).
    destruct (_ || _); now rewrite IH.
Qed.

Lemma len_munge_no_tab text :
  ~ In c_tab text -> len (_munge_whitespace text) = len text.
Proof.
  intros H. unfold _munge_whitespace, translate_ws, len.
  now rewrite expandtabs_no_tab, length_map.
Qed.

Lemma wrap_one_line width text lines :
  wrap (Some width) text = Ok lines ->
  ~ In c_tab text -> len text <= width -> len lines <= 1.
Proof.
  unfold wrap, _wrap_chunks. intros H Ht Hl.
  destruct (width <=? 0) eqn:E; [discriminate|]. apply Z.leb_gt in E.
  assert (Hc : len (concat (_split_chunks text)) <= width).
  { unfold _split_chunks. rewrite _split_concat, len_munge_no_tab; assumption. }
  unfold wrap_fuel in H. cbn [_wrap_chunks_loop] in H.
  destruct (_split_chunks text) as [|c0 rest0].
  - injection H as <-. unfold len. simpl. lia.
  - unfold _wrap_chunks_pass in H. cbn [blank negb andb] in H.
    rewrite andb_false_r in H.
    destruct (fill_line_spec width 0 [] (c0 :: rest0))
      as (pre & post & F & Ep & C & B).
    rewrite F in H. cbn [app] in H.
    destruct post as [|c r].
    + destruct (drop_trailing_blank pre); cbn [_wrap_chunks_loop] in H.
      * destruct (measure _); injection H as <-; unfold len; simpl; lia.
      * destruct (measure _); injection H as <-; unfold len; simpl; lia.
    + exfalso. rewrite Ep, concat_app in Hc. cbn [concat] in Hc.
      rewrite !len_app in Hc. pose proof (len_nonneg (concat r)). lia.
Qed.

(** ** Wrapping keeps the words *)

Lemma separated_app_l a b : separated (a ++ b) -> separated a.
Proof.
  induction a as [|x a IH]; intros H; [exact I|].
  destruct a as [|y a]; [exact I|].
  destruct H as [H1 H2]. split; [exact H1|]. apply IH. exact H2.
Qed.

Lemma separated_app_r a b : separated (a ++ b) -> separated b.
Proof.
  induction a as [|x a IH]; intros H; [exact H|].
  apply IH. destruct a as [|y a].
  - simpl in *. destruct b; [exact I|]. apply H.
  - apply H.
Qed.

Lemma chunks_ok_app width a b :
  chunks_ok width (a ++ b) -> chunks_ok width a /\ chunks_ok width b.
Proof.
  intros (H1 & H2 & H3). apply Forall_app in H1, H3.
  destruct H1, H3. unfold chunks_ok.
  pose proof (separated_app_l a b H2). pose proof (separated_app_r a b H2).
  tauto.
Qed.

Lemma chunks_ok_tail width c chunks :
  chunks_ok width (c :: chunks) -> chunks_ok width chunks.
Proof. intros H. now apply (chunks_ok_app width [c] chunks). Qed.

Lemma ok_chunks_words width chunks :
  chunks_ok width chunks -> py_words (concat chunks) = flat_map py_words chunks.
Proof.
  intros (H1 & H2 & _). rewrite flat_map_concat_map. now apply py_words_concat.
Qed.

Lemma space_chunk_app a b :
  space_chunk (a ++ b) = space_chunk a && space_chunk b.
Proof. apply forallb_app. Qed.

Lemma _wrap_chunks_pass_words width c0 rest0 lines :
  0 < width -> chunks_ok width (c0 :: rest0) ->
  let '(chunks', lines') := _wrap_chunks_pass width c0 rest0 lines in
  chunks_ok width chunks'
  /\ flat_map py_words lines' ++ flat_map py_words chunks'
     = flat_map py_words lines ++ flat_map py_words (c0 :: rest0).
Proof.
  intros Hw Hok. unfold _wrap_chunks_pass.
  set (chunks1 := if blank c0 && _ then rest0 else c0 :: rest0).
  assert (H1 : chunks_ok width chunks1
               /\ flat_map py_words chunks1 = flat_map py_words (c0 :: rest0)).
  { unfold chunks1. destruct (blank c0) eqn:Bl; cbn [andb].
    - destruct (negb _); [|now split].
      split; [now apply chunks_ok_tail in Hok|].
      simpl. now rewrite blank_no_words.
    - now split. }
  clearbody chunks1. destruct H1 as [Hok1 <-].
  destruct (fill_line_spec width 0 [] chunks1) as (pre & post & F & E & C & B).
  rewrite F. cbn [app]. subst chunks1.
  destruct (chunks_ok_app _ _ _ Hok1) as [Hpre Hpost].
  rewrite flat_map_app.
  assert (Hfin : forall kept chunks',
    chunks_ok width kept ->
    flat_map py_words kept = flat_map py_words pre ->
    chunks_ok width chunks' ->
    flat_map py_words chunks' = flat_map py_words post ->
    let '(chunks'', lines') :=
      match kept with
      | [] => (chunks', lines)
      | _ :: _ => (chunks', lines ++ [join kept])
      end in
    chunks_ok width chunks''
    /\ flat_map py_words lines' ++ flat_map py_words chunks''
       = flat_map py_words lines ++ flat_map py_words pre ++ flat_map py_words post).
  { intros kept chunks' Hk1 Hk2 Hc Hw'.
    destruct kept as [|k kept].
    - split; [assumption|]. rewrite <- Hk2, Hw'. reflexivity.
    - split; [assumption|].
      rewrite flat_map_app. cbn [flat_map]. unfold join.
      rewrite (ok_chunks_words width) by assumption.
      rewrite Hk2, Hw', app_nil_r, <- app_assoc. reflexivity. }
  assert (Hk : chunks_ok width (drop_trailing_blank pre)
               /\ flat_map py_words (drop_trailing_blank pre)
                  = flat_map py_words pre).
  { destruct (drop_trailing_blank_cases pre) as [->|(x & Ex & Bx)]; [now split|].
    split.
    - rewrite Ex in Hpre. now apply chunks_ok_app in Hpre.
    - rewrite Ex at 2. rewrite flat_map_app. simpl.
      now rewrite blank_no_words, !app_nil_r. }
  destruct Hk as [Hk1 Hk2].
  destruct post as [|c r].
  - cbv zeta. apply Hfin; [assumption|assumption|assumption|reflexivity].
  - destruct (len c >? width) eqn:L.
    + rewrite Z.gtb_ltb in L. apply Z.ltb_lt in L.
      assert (Hsp : space_chunk c = true).
      { destruct Hpost as (_ & _ & H3). inversion H3 as [|? ? [H|H] _]; subst;
          [assumption|lia]. }
      pose proof (_handle_long_word_spec c (0 + len (concat pre)) width Hw) as S.
      pose proof (len_nonneg (concat pre)).
      destruct (_handle_long_word c (0 + len (concat pre)) width) as [piece remainder].
      destruct S as (S1 & S2 & _); [lia|lia|].
      rewrite <- S1, space_chunk_app in Hsp.
      apply andb_true_iff in Hsp. destruct Hsp as [Hp Hr].
      cbv zeta.
      rewrite drop_trailing_blank_snoc by now apply space_chunk_blank.
      apply Hfin; [assumption|reflexivity| |].
      * destruct (chunks_ok_tail _ _ _ Hpost) as (T1 & T2 & T3).
        split; [|split].
        -- now constructor.
        -- now apply separated_cons_space.
        -- constructor; [now left|assumption].
      * simpl. rewrite (space_chunk_no_words remainder Hr).
        rewrite <- S1. rewrite (space_chunk_no_words (piece ++ remainder)).
        -- reflexivity.
        -- rewrite space_chunk_app, Hp, Hr. reflexivity.
    + cbv zeta. apply Hfin; [assumption|assumption|assumption|reflexivity].
Qed.

Lemma _wrap_chunks_loop_words fuel width chunks lines :
  0 < width -> chunks_ok width chunks -> (measure chunks < fuel)%nat ->
  exists res,
    _wrap_chunks_loop fuel width chunks lines = Ok res
    /\ flat_map py_words res
       = flat_map py_words lines ++ flat_map py_words chunks.
Proof.
  intros Hw. revert chunks lines.
  induction fuel as [|fuel IH]; intros chunks lines Hok Hf; [lia|].
  destruct chunks as [|c0 rest0].
  - exists lines. split; [reflexivity|]. simpl. now rewrite app_nil_r.
  - cbn [_wrap_chunks_loop].
    pose proof (_wrap_chunks_pass_measure width c0 rest0 lines Hw) as P.
    pose proof (_wrap_chunks_pass_words width c0 rest0 lines Hw Hok) as Q.
    destruct (_wrap_chunks_pass width c0 rest0 lines) as [chunks' lines'].
    destruct Q as [Q1 Q2]. simpl in P.
    destruct (IH chunks' lines' Q1) as (res & R1 & R2); [lia|].
    exists res. split; [assumption|]. now rewrite R2, Q2.
Qed.


(** ** Whitespace munging keeps the words *)

Lemma translate_ws_app a b :
  translate_ws (a ++ b) = translate_ws a ++ translate_ws b.
Proof. apply map_app. Qed.

Lemma translate_ws_blanks n :
  translate_ws (repeat c_space n) = repeat c_space n.
Proof. induction n as [|n IH]; [reflexivity|]. simpl. now rewrite <- IH at 2. Qed.

Lemma words_from_blanks sp cur n rest :
  sp c_space = true ->
  words_from sp cur (repeat c_space (S n) ++ rest)
  = flush cur ++ words_from sp [] rest.
Proof.
  intros H. revert cur. induction n as [|n IH]; intros cur.
  - simpl. now rewrite H.
  - change (repeat c_space (S (S n)) ++ rest)
      with (c_space :: (repeat c_space (S n) ++ rest)).
    cbn [words_from]. rewrite H, IH. reflexivity.
Qed.

Lemma words_from_munge sp col cur text :
  (forall c, re_ws c = true -> sp c = true) ->
  words_from sp cur (translate_ws (expandtabs col text)) = words_from sp cur text.
Proof.
  intros Hsp. revert col cur.
  induction text as [|c r IH]; intros col cur; [reflexivity|].
  cbn [expandtabs]. unfold chr_eqb.
  destruct (N.eqb_spec c c_tab) as [->|Ht].
  - rewrite translate_ws_app, translate_ws_blanks.
    assert (E : exists n, (8 - col mod 8)%nat = S n).
    { pose proof (Nat.mod_upper_bound col 8). exists (7 - col mod 8)%nat. lia. }
    destruct E as (n & ->).
    rewrite words_from_blanks by now apply Hsp.
    cbn [words_from]. rewrite (Hsp c_tab) by reflexivity. now rewrite IH.
  - assert (E : forall col', words_from sp cur (translate_ws (c :: expandtabs col' r))
                             = words_from sp cur (c :: r)).
    { intros col'. unfold translate_ws. cbn [map]. fold (translate_ws (expandtabs col' r)).
      destruct (re_ws c) eqn:W; cbn [words_from].
      - rewrite (Hsp c_space) by reflexivity. rewrite (Hsp c W). now rewrite IH.
      - destruct (sp c); now rewrite IH. }
    destruct (_ || _); apply E.
Qed.

Lemma py_words_munge text : py_words (_munge_whitespace text) = py_words text.
Proof. apply words_from_munge, re_ws_isspace. Qed.

Lemma re_words_munge text : re_words (_munge_whitespace text) = re_words text.
Proof. now apply words_from_munge. Qed.

Lemma in_expandtabs x col text :
  In x (expandtabs col text) -> x = c_space \/ In x text.
Proof.
  revert col. induction text as [|c r IH]; intros col; [intros []|].
  cbn [expandtabs]. destruct (chr_eqb c c_tab).
  - intros H. apply in_app_or in H. destruct H as [H|H].
    + left. now apply repeat_spec in H.
    + destruct (IH _ H); [now left|right; now right].
  - destruct (_ || _); intros [->|H]; try (right; now left);
      (destruct (IH _ H); [now left|right; now right]).
Qed.

Lemma munge_no_hyphen text :
  ~ In c_hyphen text -> ~ In c_hyphen (_munge_whitespace text).
Proof.
  intros H X. unfold _munge_whitespace, translate_ws in X.
  apply in_map_iff in X. destruct X as (x & E & X).
  destruct (re_ws x) eqn:W; [discriminate|]. subst x.
  apply in_expandtabs in X. destruct X as [X|X]; [discriminate|contradiction].
Qed.

Lemma py_words_join_with (lines : list pystr) :
  py_words (join_with [c_space] lines) = flat_map py_words lines.
Proof.
  induction lines as [|x lines IH]; [reflexivity|].
  destruct lines as [|y lines].
  - simpl. now rewrite app_nil_r.
  - change (join_with [c_space] (x :: y :: lines))
      with (x ++ c_space :: join_with [c_space] (y :: lines)).
    unfold py_words at 1. rewrite words_from_space by reflexivity.
    fold (py_words x). fold (py_words (join_with [c_space] (y :: lines))).
    rewrite IH. reflexivity.
Qed.

Lemma _split_chunks_ok width text :
  ~ In c_hyphen text ->
  Forall (fun word => len word <= width) (re_words text) ->
  chunks_ok width (_split_chunks text).
Proof.
  intros Hh Hw. unfold _split_chunks.
  rewrite _split_runs by now apply munge_no_hyphen.
  split; [apply runs_nonempty|]. split; [apply runs_separated; discriminate|].
  pose proof (runs_words [] false (_munge_whitespace text)) as R.
  eapply Forall_impl; [|apply R; discriminate].
  intros c [H|H]; [now left|right].
  fold (re_words (_munge_whitespace text)) in H. rewrite re_words_munge in H.
  rewrite Forall_forall in Hw. now apply Hw.
Qed.

(** C4 (amended): for every width of at least 1 and every text that contains
    no hyphen and whose words (the maximal runs of characters other than
    tab, line feed, vertical tab, form feed, carriage return and blank) are
    at most [width] characters long, [wrap] returns fragments that split no
    word: the words of the fragments, in order, are the words of the text.
    Hence the fragments joined with single blanks have the same
    whitespace-normalized form as the text. *)
Theorem wrap_keeps_words (width : Z) (text : pystr) :
  1 <= width ->
  ~ In c_hyphen text ->
  Forall (fun word => len word <= width) (re_words text) ->
  exists lines,
    wrap (Some width) text = Ok lines
    /\ flat_map py_words lines = py_words text
    /\ normalize (join_with [c_space] lines) = normalize text.
Proof.
  intros Hw Hh Hl. unfold wrap, _wrap_chunks.
  destruct (width <=? 0) eqn:E; [apply Z.leb_le in E; lia|].
  pose proof (_split_chunks_ok width text Hh Hl) as Hok.
  destruct (_wrap_chunks_loop_words (wrap_fuel (_split_chunks text)) width
              (_split_chunks text) [] ltac:(lia) Hok) as (lines & R1 & R2).
  { unfold wrap_fuel. lia. }
  exists lines. split; [assumption|].
  assert (W : flat_map py_words lines = py_words text).
  { rewrite R2. cbn [flat_map app].
    rewrite <- (ok_chunks_words width) by assumption.
    unfold _split_chunks. now rewrite _split_concat, py_words_munge. }
  split; [assumption|].
  unfold normalize. now rewrite py_words_join_with, W.
Qed.


(** ** What [stdout] can encode of a wrapped text *)

Lemma encodable_concat_app (a b : list pystr) :
  encodable (concat (a ++ b)) = encodable (concat a) && encodable (concat b).
Proof. now rewrite concat_app, encodable_app. Qed.

Lemma encodable_munge (text : pystr) :
  encodable text = true -> encodable (_munge_whitespace text) = true.
Proof.
  unfold encodable, _munge_whitespace, translate_ws.
  rewrite !forallb_forall. intros H x Hx.
  apply in_map_iff in Hx. destruct Hx as (c & <- & Hc).
  destruct (re_ws c); [reflexivity|].
  apply in_expandtabs in Hc. destruct Hc as [->|Hc]; [reflexivity|now apply H].
Qed.

Lemma encodable_drop_trailing_blank (cur_line : list pystr) :
  encodable (concat cur_line) = true ->
  encodable (concat (drop_trailing_blank cur_line)) = true.
Proof.
  destruct (drop_trailing_blank_cases cur_line) as [->|(c & E & _)];
    [trivial|].
  intros H. rewrite E, encodable_concat_app in H.
  now apply andb_true_iff in H.
Qed.

Lemma _wrap_chunks_pass_encodable width (c0 : pystr) (rest0 lines : list pystr) :
  encodable (concat (c0 :: rest0)) = true ->
  Forall (fun l => encodable l = true) lines ->
  encodable (concat (fst (_wrap_chunks_pass width c0 rest0 lines))) = true
  /\ Forall (fun l => encodable l = true)
       (snd (_wrap_chunks_pass width c0 rest0 lines)).
Proof.
  intros Hc Hl. unfold _wrap_chunks_pass.
  set (chunks1 := if blank c0 && _ then rest0 else c0 :: rest0).
  assert (H1 : encodable (concat chunks1) = true).
  { unfold chunks1. destruct (_ && _); [|exact Hc].
    cbn [concat] in Hc. rewrite encodable_app in Hc.
    now apply andb_true_iff in Hc. }
  destruct (fill_line_spec width 0 [] chunks1) as (pre & post & F & E & _ & _).
  rewrite F. cbn [app]. clearbody chunks1. subst chunks1.
  rewrite encodable_concat_app in H1. apply andb_true_iff in H1.
  destruct H1 as [Hpre Hpost].
  assert (Hfin : forall chunks' cur_line : list pystr,
    encodable (concat chunks') = true -> encodable (concat cur_line) = true ->
    encodable (concat (fst (match drop_trailing_blank cur_line with
                            | [] => (chunks', lines)
                            | _ :: _ =>
                                (chunks',
                                 lines ++ [join (drop_trailing_blank cur_line)])
                            end))) = true
    /\ Forall (fun l => encodable l = true)
         (snd (match drop_trailing_blank cur_line with
               | [] => (chunks', lines)
               | _ :: _ =>
                   (chunks', lines ++ [join (drop_trailing_blank cur_line)])
               end))).
  { intros chunks' cur_line Hch Hcur.
    apply encodable_drop_trailing_blank in Hcur.
    destruct (drop_trailing_blank cur_line) as [|x l]; [now split|].
    cbn [fst snd]. split; [exact Hch|].
    apply Forall_app. split; [exact Hl|]. now constructor. }
  destruct post as [|c r]; [now apply Hfin|].
  destruct (len c >? width); [|now apply Hfin].
  unfold _handle_long_word.
  match goal with
  | |- context [slice_to c ?e] => set (end_ := e)
  end.
  cbn [concat] in Hpost. rewrite encodable_app in Hpost.
  apply andb_true_iff in Hpost. destruct Hpost as [Hc0 Hr].
  rewrite <- (slice_to_from c end_), encodable_app in Hc0.
  apply andb_true_iff in Hc0. destruct Hc0 as [Hp Hq].
  apply Hfin.
  - cbn [concat]. now rewrite encodable_app, Hq, Hr.
  - rewrite encodable_concat_app, Hpre. cbn [concat]. now rewrite app_nil_r.
Qed.

Lemma _wrap_chunks_loop_encodable fuel width chunks lines res :
  encodable (concat chunks) = true ->
  Forall (fun l => encodable l = true) lines ->
  _wrap_chunks_loop fuel width chunks lines = Ok res ->
  Forall (fun l => encodable l = true) res.
Proof.
  revert chunks lines.
  induction fuel as [|fuel IH]; intros chunks lines Hc Hl H.
  - destruct chunks; [|discriminate]. now injection H as <-.
  - destruct chunks as [|c0 rest0]; [now injection H as <-|].
    cbn [_wrap_chunks_loop] in H.
    pose proof (_wrap_chunks_pass_encodable width c0 rest0 lines Hc Hl) as P.
    destruct (_wrap_chunks_pass width c0 rest0 lines) as [chunks' lines'].
    destruct P as [P1 P2]. now apply (IH chunks' lines').
Qed.

(** The lines of a text that [stdout] can encode can be encoded. *)
Lemma wrap_encodable width text lines :
  wrap width text = Ok lines -> encodable text = true ->
  Forall (fun l => encodable l = true) lines.
Proof.
  unfold wrap, _wrap_chunks. destruct width as [w|]; [|discriminate].
  destruct (w <=? 0); [discriminate|]. intros H He.
  apply (_wrap_chunks_loop_encodable _ _ _ [] _) in H;
    [assumption| |constructor].
  unfold _split_chunks. rewrite _split_concat. now apply encodable_munge.
Qed.

Lemma wrap_ok_positive (width : option Z) (text : pystr) (l : list pystr) :
  wrap width text = Ok l -> exists c, width = Some c /\ 0 < c.
Proof.
  unfold wrap, _wrap_chunks. destruct width as [c|]; [|discriminate].
  destruct (c <=? 0) eqn:E; [discriminate|]. intros _.
  exists c. split; [reflexivity|]. apply Z.leb_gt in E. lia.
Qed.

(** What the displays of a shown text need. *)
Lemma shown_displays cols text wrapped :
  shown cols text wrapped ->
  0 <= cols <= maxsize /\ encodable text = true
  /\ Forall (fun l => encodable l = true) wrapped.
Proof.
  intros (W & M & E). pose proof (wrap_ok_positive _ _ _ W) as (c & C & P).
  injection C as <-. split; [lia|]. split; [exact E|].
  now apply (wrap_encodable _ _ _ W).
Qed.

(** ** The order and the conditions of the diagnostics *)

Ltac bool_goal :=
  rewrite ?orb_true_iff, ?andb_true_iff, ?negb_true_iff, ?Z.gtb_ltb,
    ?Z.ltb_lt, ?Z.eqb_eq, ?Z.eqb_neq.

Lemma in_singleton_if (b : bool) (t u : tag) :
  In t (if b then [u] else []) <-> b = true /\ t = u.
Proof. destruct b; simpl; intuition congruence. Qed.

Lemma in_punctuation_tags no_warning tty lines cols rows source translation ws wt t :
  In t (out_tags (check_punctuation no_warning tty lines cols rows source
                    translation ws wt))
  -> t = WPunctFirst \/ t = WPunctLast.
Proof.
  pose proof (check_punctuation_tags no_warning tty lines cols rows source
                translation ws wt) as P.
  simpl in P. intros X.
  destruct P as [P|[P|[P|[P|[]]]]]; rewrite <- P in X; simpl in X;
    intuition congruence.
Qed.

(** The overflow error is the first line of the second block: it is
    printed whenever its condition holds and the first block has ended
    normally. *)
Lemma overflow_fires_iff no_warning tty lines cols rows source translation ws wt :
  snd (check_source_overflow no_warning tty lines cols rows source ws) = Ok tt ->
  In EOverflow
     (out_tags (checks no_warning tty lines cols rows source translation ws wt))
  <-> (len wt >? rows) || (rows =? 1) && (len translation >? cols) = true.
Proof.
  intros H1. split.
  - intros H. apply in_checks_tags_inv in H.
    rewrite check_source_overflow_tags, check_overflow_tags,
      check_placeholder_tags, check_short_out_tags in H.
    destruct H as [H|[H|[H|[H|H]]]].
    + split_conditions_in H; simpl in H; intuition discriminate.
    + now apply in_singleton_if in H.
    + apply in_singleton_if in H. destruct H; discriminate.
    + apply in_punctuation_tags in H. destruct H; discriminate.
    + apply in_singleton_if in H. destruct H; discriminate.
  - intros C.
    destruct (checks_tags_from_overflow no_warning tty lines cols rows source
                translation ws wt H1) as (rest & ->).
    rewrite check_overflow_tags, C, !in_app_iff. right. left. now left.
Qed.

Lemma source_overflow_shown no_warning tty lines cols rows source ws :
  no_warning = true \/ shown cols source ws ->
  snd (check_source_overflow no_warning tty lines cols rows source ws) = Ok tt.
Proof.
  intros [->|S]; [reflexivity|].
  apply shown_displays in S. destruct S as (Hc & He & Hw).
  now apply check_source_overflow_ok.
Qed.

(** C6 (amended): for a record whose source [stdout] can show (or with
    warnings disabled, when the source is not shown before this check):
    with [rows = 1] the Overflow Error is emitted if and only if the decoded
    translation is longer than [columns] or wraps into more than one line;
    the second can only add something when the translation contains a tab
    (which [wrap] expands), so for a translation without tabs it is emitted
    if and only if its length exceeds [columns].  With [rows > 1] it is
    emitted if and only if the number of wrapped lines exceeds [rows]. *)
Theorem overflow_error_iff no_warning tty lines cols rows source translation ws wt :
  no_warning = true \/ shown cols source ws ->
  wrap (Some cols) translation = Ok wt ->
  (rows = 1 -> ~ In c_tab translation ->
   (In EOverflow
       (out_tags (checks no_warning tty lines cols rows source translation ws wt))
    <-> cols < len translation))
  /\ (rows = 1 ->
      (In EOverflow
          (out_tags (checks no_warning tty lines cols rows source translation ws wt))
       <-> cols < len translation \/ 1 < len wt))
  /\ (1 < rows ->
      (In EOverflow
          (out_tags (checks no_warning tty lines cols rows source translation ws wt))
       <-> rows < len wt)).
Proof.
  intros Hshown Hwrap.
  rewrite (overflow_fires_iff _ _ _ _ _ _ _ _ _
             (source_overflow_shown _ tty lines _ rows _ _ Hshown)).
  assert (G : rows = 1 ->
              ((len wt >? rows) || (rows =? 1) && (len translation >? cols) = true
               <-> cols < len translation \/ 1 < len wt)).
  { intros ->. rewrite orb_true_iff, andb_true_iff, !Z.gtb_ltb, !Z.ltb_lt.
    change (1 =? 1) with true. intuition congruence. }
  split; [|split].
  - intros Hr Ht. rewrite (G Hr). split; [|now left].
    intros [H|H]; [assumption|].
    destruct (Z_lt_ge_dec cols (len translation)) as [L|L]; [assumption|].
    pose proof (wrap_one_line cols translation wt Hwrap Ht). lia.
  - exact G.
  - intros Hr. rewrite orb_true_iff, andb_true_iff, !Z.gtb_ltb, !Z.ltb_lt, Z.eqb_eq.
    split; [intros [H|[H _]]; [assumption|lia]|now left].
Qed.


Lemma strongly_sorted_tags (l : list tag) :
  In l [ []; [WSourceCols]; [WSourceRows] ] ->
  forall o p punct short,
  In o [ []; [EOverflow] ] -> In p [ []; [EPlaceholder] ] ->
  In punct [ []; [WPunctFirst]; [WPunctLast]; [WPunctFirst; WPunctLast] ] ->
  In short [ []; [WShort] ] ->
  StronglySorted tag_before (l ++ o ++ p ++ punct ++ short).
Proof.
  intros Hl o p punct short Ho Hp Hpunct Hshort.
  simpl in Hl, Ho, Hp, Hpunct, Hshort.
  repeat match goal with
         | H : _ \/ _ |- _ => destruct H as [<-|H]
         | H : False |- _ => destruct H
         end;
  cbn [app]; repeat constructor.
Qed.

(** C5 (amended): the diagnostics of a record are emitted in one fixed
    order: first the Source-overflow Warning, then the translation Overflow
    Error, then the Placeholder-count Error, then the Punctuation-drift
    Warnings (first character, then last character), then the
    Short-translation Warning.  In particular the source-overflow warning is
    printed before the overflow error when both are emitted. *)
Theorem checks_in_order no_warning tty lines cols rows source translation ws wt :
  StronglySorted tag_before
    (out_tags (checks no_warning tty lines cols rows source translation ws wt)).
Proof.
  destruct (checks_tags_sets no_warning tty lines cols rows source translation ws wt)
    as (l & o & p & punct & short & -> & Hl & Ho & Hp & Hq & Hs).
  now apply strongly_sorted_tags.
Qed.

Lemma last_char_ok (s : pystr) : s <> [] -> exists c, last_char s = Ok c.
Proof.
  intros H. unfold last_char. destruct (rev s) as [|c r] eqn:E.
  - apply (f_equal (@rev _)) in E. rewrite rev_involutive in E. contradiction.
  - now exists c.
Qed.

Lemma check_punctuation_blank tty lines cols rows source translation ws wt :
  0 < len source -> 0 < len translation ->
  strip source = [] \/ strip translation = [] ->
  check_punctuation false tty lines cols rows source translation ws wt
  = ([], Raise IndexError).
Proof.
  intros Hs Ht Hstrip. unfold check_punctuation.
  replace (negb false && (len source >? 0) && (len translation >? 0)) with true
    by (symmetry; rewrite !andb_true_iff, !Z.gtb_ltb, !Z.ltb_lt; auto).
  cbn [when].
  destruct (strip source) as [|x s'] eqn:Es; [reflexivity|].
  destruct (last_char_ok (x :: s')) as (c & ->); [discriminate|].
  rewrite bind_lift_ok.
  destruct Hstrip as [H|H]; [discriminate|]. rewrite H. reflexivity.
Qed.

(** The checks end in an exception as soon as one block does. *)
Lemma checks_raise_of_punctuation
  no_warning tty lines cols rows source translation ws wt e :
  snd (check_punctuation no_warning tty lines cols rows source translation ws wt)
  = Raise e ->
  exists e',
    snd (checks no_warning tty lines cols rows source translation ws wt)
    = Raise e'.
Proof.
  intros P. unfold checks.
  pose proof (check_source_overflow_no_timeout no_warning tty lines cols rows
                source ws) as T1.
  pose proof (check_overflow_no_timeout tty lines cols rows source translation
                ws wt) as T2.
  pose proof (check_placeholder_no_timeout tty lines cols rows source
                translation ws wt) as T3.
  rewrite snd_bind.
  destruct (snd (check_source_overflow _ _ _ _ _ _ _)) as [[]|e1|];
    [|now exists e1|contradiction].
  rewrite snd_bind.
  destruct (snd (check_overflow _ _ _ _ _ _ _ _)) as [[]|e2|];
    [|now exists e2|contradiction].
  rewrite snd_bind.
  destruct (snd (check_placeholder _ _ _ _ _ _ _ _)) as [[]|e3|];
    [|now exists e3|contradiction].
  rewrite snd_bind, P. now exists e.
Qed.

(** C10: a record whose decoded source or decoded translation is not empty
    but consists of whitespace only, the other text being not empty either
    and warnings being enabled, makes the punctuation check raise
    [IndexError] (the last character of an empty stripped text) without
    having printed anything: the checks of the record end in an exception,
    and in this one whenever [stdout] can show the two texts in the checks
    before. *)
Theorem punctuation_check_raises tty lines cols rows source translation ws wt :
  0 < len source -> 0 < len translation ->
  strip source = [] \/ strip translation = [] ->
  check_punctuation false tty lines cols rows source translation ws wt
  = ([], Raise IndexError)
  /\ (exists e,
        snd (checks false tty lines cols rows source translation ws wt) = Raise e)
  /\ (shown cols source ws -> shown cols translation wt ->
      snd (checks false tty lines cols rows source translation ws wt)
      = Raise IndexError).
Proof.
  intros Hs Ht Hstrip.
  pose proof (check_punctuation_blank tty lines cols rows source translation
                ws wt Hs Ht Hstrip) as P.
  split; [exact P|]. split.
  - apply (checks_raise_of_punctuation _ _ _ _ _ _ _ _ _ IndexError).
    now rewrite P.
  - intros Ss St. apply shown_displays in Ss, St.
    destruct Ss as (Hc & He & Hw), St as (_ & He' & Hw').
    rewrite checks_outcome by assumption. now rewrite P.
Qed.

(** ** The escape decoder against the grammar of escape sequences *)

Lemma digit_value_cases (c : char) (v : N) :
  digit_value c = Some v ->
  hex_val c = Some v
  /\ ((v < 8)%N ->
      octal_digit c = true /\ (c - 48)%N = v
      /\ chr_eqb c c_lf = false /\ simple_escape c = None).
Proof.
  unfold digit_value.
  set (lower := str "0123456789abcdef"). vm_compute in lower. subst lower.
  set (upper := str "ABCDEF"). vm_compute in upper. subst upper.
  cbn [index_of]. unfold chr_eqb.
  repeat match goal with
         | |- context [N.eqb ?x c] =>
             destruct (N.eqb_spec x c) as [<-|?];
             [intros H; injection H as <-; split;
              [reflexivity|intros Hv; first [now repeat split|exfalso; lia]]|]
         end.
  discriminate.
Qed.

Lemma octal_digit_below (c : char) : octal_digit c = true -> is_digit_below 8 c.
Proof.
  unfold octal_digit. intros H. apply andb_true_iff in H. destruct H as [H1 H2].
  apply N.leb_le in H1, H2.
  assert (E : In c [48; 49; 50; 51; 52; 53; 54; 55]%N) by (simpl; lia).
  simpl in E.
  repeat match goal with
         | H : _ \/ _ |- _ => destruct H as [<-|H]
         end;
  try contradiction;
  match goal with
  | |- is_digit_below _ ?d => exists (d - 48)%N; split; [reflexivity|vm_compute; reflexivity]
  end.
Qed.

Lemma not_octal_digit (c : char) : ~ is_digit_below 8 c -> octal_digit c = false.
Proof.
  intros H. destruct (octal_digit c) eqn:E; [|reflexivity].
  exfalso. now apply H, octal_digit_below.
Qed.

Lemma unicode_escape_from_skip (p s : pystr) (k : nat) :
  unicode_escape_from (length p + k) (p ++ s) = unicode_escape_from k s.
Proof. induction p as [|c p IH]; [reflexivity|exact IH]. Qed.

Lemma until_brace_name (name raw : pystr) :
  ~ In 125%N name -> until_brace (name ++ 125%N :: raw) = Some name.
Proof.
  induction name as [|c name IH]; intros H; [reflexivity|].
  simpl. unfold chr_eqb. destruct (N.eqb_spec c 125) as [->|_].
  - exfalso. apply H. now left.
  - rewrite IH; [reflexivity|]. intros X. apply H. now right.
Qed.

Lemma hex_digits_number (ds raw : pystr) (acc : N) :
  Forall (is_digit_below 16) ds ->
  hex_digits (length ds) acc (ds ++ raw)
  = Some (fold_left (fun a c =>
            (16 * a + match digit_value c with Some v => v | None => 0 end)%N)
          ds acc).
Proof.
  intros H. revert acc. induction H as [|c ds (v & Hv & _) _ IH]; intros acc.
  - reflexivity.
  - simpl. destruct (digit_value_cases c v Hv) as [-> _]. rewrite Hv. apply IH.
Qed.

Lemma escape_at_simple (c v : char) (r : pystr) :
  In (c, v) escape_table -> escape_at (c :: r) = Ok ([v], 1%nat).
Proof.
  unfold escape_table. simpl. intros H.
  repeat match goal with
         | H : _ \/ _ |- _ => destruct H as [H|H]
         end;
  try contradiction; injection H as <- <-; reflexivity.
Qed.

Lemma escape_at_hex (x : char) (n : nat) (r : pystr) :
  In (x, n) [(120%N, 2%nat); (117%N, 4%nat); (85%N, 8%nat)] ->
  escape_at (x :: r) = hex_escape n r.
Proof.
  simpl. intros [H|[H|[H|[]]]]; injection H as <- <-; reflexivity.
Qed.

Lemma escape_at_name (r : pystr) :
  escape_at (78%N :: 123%N :: r)
  = match until_brace r with
    | Some (n :: name) =>
        match db_name (n :: name) with
        | Some v => Ok ([v], (3 + length (n :: name))%nat)
        | None => Raise UnicodeDecodeError
        end
    | _ => Raise UnicodeDecodeError
    end.
Proof. reflexivity. Qed.

Lemma escape_at_octal (ds raw : pystr) :
  (1 <= length ds <= 3)%nat -> Forall (is_digit_below 8) ds ->
  ((length ds < 3)%nat ->
   match raw with c :: _ => ~ is_digit_below 8 c | [] => True end) ->
  escape_at (ds ++ raw) = Ok ([number 8 ds], length ds).
Proof.
  intros Hlen Hds Hnext.
  assert (D : forall d, is_digit_below 8 d ->
              octal_digit d = true /\ digit_value d = Some (d - 48)%N
              /\ chr_eqb d c_lf = false /\ simple_escape d = None).
  { intros d (v & Hv & Hlt). destruct (digit_value_cases d v Hv) as [_ H].
    destruct (H Hlt) as (H1 & H2 & H3 & H4). rewrite H2. auto. }
  assert (Hraw : (length ds < 3)%nat ->
                 match raw with c :: _ => octal_digit c = false | [] => True end).
  { intros L. specialize (Hnext L). destruct raw; [exact I|].
    now apply not_octal_digit. }
  destruct ds as [|d1 [|d2 [|d3 [|d4 ds]]]]; simpl in Hlen; try lia.
  - inversion Hds as [|? ? H1 _]; subst.
    destruct (D d1 H1) as (O1 & V1 & L1 & S1).
    unfold number, escape_at. cbn [app fold_left length]. rewrite V1, L1, S1, O1.
    specialize (Hraw ltac:(simpl; lia)).
    destruct raw as [|c raw]; [|rewrite Hraw];
      match goal with |- Ok ([?a], ?n) = Ok ([?b], _) => replace a with b by lia; reflexivity end.
  - inversion Hds as [|? ? H1 Hds']; subst.
    inversion Hds' as [|? ? H2 _]; subst.
    destruct (D d1 H1) as (O1 & V1 & L1 & S1).
    destruct (D d2 H2) as (O2 & V2 & _).
    unfold number, escape_at. cbn [app fold_left length]. rewrite V1, V2, L1, S1, O1, O2.
    specialize (Hraw ltac:(simpl; lia)).
    destruct raw as [|c raw]; [|rewrite Hraw];
      match goal with |- Ok ([?a], ?n) = Ok ([?b], _) => replace a with b by lia; reflexivity end.
  - inversion Hds as [|? ? H1 Hds']; subst.
    inversion Hds' as [|? ? H2 Hds'']; subst.
    inversion Hds'' as [|? ? H3 _]; subst.
    destruct (D d1 H1) as (O1 & V1 & L1 & S1).
    destruct (D d2 H2) as (O2 & V2 & _).
    destruct (D d3 H3) as (O3 & V3 & _).
    unfold number, escape_at. cbn [app fold_left length]. rewrite V1, V2, V3, L1, S1, O1, O2, O3.
    match goal with |- Ok ([?a], ?n) = Ok ([?b], _) => replace a with b by lia; reflexivity end.
Qed.

Lemma unicode_escape_from_backslash (r : pystr) :
  unicode_escape_from 0 (c_backslash :: r)
  = obind (escape_at r) (fun '(out, n) =>
    obind (unicode_escape_from n r) (fun t => Ok (out ++ t))).
Proof. reflexivity. Qed.

(** The decoder computes what the grammar says. *)
Lemma decode_escaped (raw text : pystr) :
  Escaped raw text -> decode_unicode_escape raw = Ok text.
Proof.
  unfold decode_unicode_escape.
  induction 1 as [ | c raw text Hc _ IH | c v raw text Hc _ IH
                   | ds raw text Hlen Hds Hnext _ IH
                   | n x ds raw text Hx Hn Hds Hmax _ IH
                   | name v raw text Hne Hbr Hdb _ IH ].
  - reflexivity.
  - simpl. unfold chr_eqb. destruct (N.eqb_spec c c_backslash); [contradiction|].
    now rewrite IH.
  - rewrite unicode_escape_from_backslash, (escape_at_simple c v raw Hc).
    simpl. now rewrite IH.
  - rewrite unicode_escape_from_backslash, (escape_at_octal ds raw Hlen Hds Hnext).
    cbn [obind].
    rewrite <- (Nat.add_0_r (length ds)), unicode_escape_from_skip, IH.
    reflexivity.
  - change (c_backslash :: x :: ds ++ raw) with (c_backslash :: (x :: ds ++ raw)).
    rewrite unicode_escape_from_backslash, (escape_at_hex x n _ Hx).
    unfold hex_escape. subst n. rewrite hex_digits_number by assumption.
    fold (number 16 ds).
    apply N.leb_le in Hmax. rewrite Hmax. cbn [obind unicode_escape_from].
    rewrite <- (Nat.add_0_r (length ds)), unicode_escape_from_skip, IH.
    reflexivity.
  - change (c_backslash :: 78%N :: 123%N :: name ++ 125%N :: raw)
      with (c_backslash :: (78%N :: 123%N :: name ++ 125%N :: raw)).
    rewrite unicode_escape_from_backslash, escape_at_name.
    rewrite (until_brace_name name raw Hbr).
    destruct name as [|n name]; [congruence|]. rewrite Hdb.
    cbn [obind]. change (3 + length (n :: name))%nat
      with (S (S (S (length (n :: name))))).
    cbn [unicode_escape_from].
    change (n :: name ++ 125%N :: raw) with ((n :: name) ++ 125%N :: raw).
    rewrite <- (Nat.add_1_r (length (n :: name))).
    rewrite unicode_escape_from_skip. cbn [unicode_escape_from]. rewrite IH.
    reflexivity.
Qed.

Lemma escaped_plain (raw text : pystr) :
  Escaped raw text -> ~ In c_backslash raw -> text = raw.
Proof.
  induction 1; intros Hno; try reflexivity;
    try (exfalso; apply Hno; now left).
  f_equal. apply IHEscaped. intros X. apply Hno. now right.
Qed.

Lemma existsb_backslash (raw : pystr) :
  existsb (chr_eqb c_backslash) raw = true <-> In c_backslash raw.
Proof.
  rewrite existsb_exists. split.
  - intros (x & Hx & E). apply N.eqb_eq in E. now subst x.
  - intros H. exists c_backslash. split; [assumption|apply N.eqb_refl].
Qed.

(** C9 (amended): [unescape] returns a raw string without a backslash
    unchanged, whatever characters it contains.  On a raw string of ASCII
    characters whose backslash sequences are all well-formed escape
    sequences it returns the string with each sequence replaced by the
    character it stands for.  On a raw string that contains a backslash and
    a character outside ASCII it fails: [encode('ascii')] raises
    [UnicodeEncodeError]. *)
Theorem unescape_spec (raw : pystr) :
  (~ In c_backslash raw -> unescape raw = Ok raw)
  /\ (forall text,
        forallb is_ascii raw = true -> Escaped raw text ->
        unescape raw = Ok text)
  /\ (In c_backslash raw -> forallb is_ascii raw = false ->
      unescape raw = Raise UnicodeEncodeError).
Proof.
  unfold unescape, encode_ascii.
  destruct (existsb (chr_eqb c_backslash) raw) eqn:E; cbn [negb].
  - apply existsb_backslash in E. split; [contradiction|]. split.
    + intros text Ha He. rewrite Ha. cbn [obind]. now apply decode_escaped.
    + intros _ Ha. now rewrite Ha.
  - assert (Hno : ~ In c_backslash raw).
    { intros X. apply existsb_backslash in X. congruence. }
    split; [reflexivity|]. split; [|contradiction].
    intros text _ He. f_equal. symmetry. now apply escaped_plain.
Qed.

(** ** The fuel is enough: no run ends in [Timeout] *)

Ltac split_matches :=
  repeat match goal with
         | |- context [match ?x with _ => _ end] => destruct x
         end.

Lemma py_int_no_timeout (val : pystr) : py_int val <> Timeout.
Proof. unfold py_int. split_matches; discriminate. Qed.

Lemma obind_no_timeout {A B : Type} (m : outcome A) (f : A -> outcome B) :
  m <> Timeout -> (forall a, f a <> Timeout) -> obind m f <> Timeout.
Proof. destruct m; simpl; auto. discriminate. Qed.

Lemma parse_items_no_timeout comment lines items cols rows :
  parse_items comment lines items cols rows <> Timeout.
Proof.
  revert cols rows. induction items as [|item more IH]; intros cols rows; simpl.
  - discriminate.
  - destruct (py_split c_equals item) as [|key [|val [|? ?]]]; try discriminate.
    destruct (str_eqb key (str "c")).
    + apply obind_no_timeout; [apply py_int_no_timeout|intros; apply IH].
    + destruct (str_eqb key (str "r")); [|discriminate].
      apply obind_no_timeout; [apply py_int_no_timeout|intros; apply IH].
Qed.

Lemma escape_at_no_timeout (r : pystr) : escape_at r <> Timeout.
Proof. unfold escape_at, hex_escape. split_matches; discriminate. Qed.

Lemma unicode_escape_from_no_timeout (skip : nat) (s : pystr) :
  unicode_escape_from skip s <> Timeout.
Proof.
  revert skip. induction s as [|c r IH]; intros skip; simpl; [discriminate|].
  destruct skip as [|k]; [|apply IH].
  destruct (chr_eqb c c_backslash).
  - apply obind_no_timeout; [apply escape_at_no_timeout|].
    intros [out n]. apply obind_no_timeout; [apply IH|discriminate].
  - apply obind_no_timeout; [apply IH|discriminate].
Qed.

Lemma unescape_no_timeout (text : pystr) : unescape text <> Timeout.
Proof.
  unfold unescape, encode_ascii, decode_unicode_escape.
  destruct (negb _); [discriminate|].
  destruct (forallb is_ascii text); [|discriminate].
  apply unicode_escape_from_no_timeout.
Qed.

Lemma readline_length (src : pystr) :
  (length (fst (readline src)) + length (snd (readline src)) = length src)%nat.
Proof.
  induction src as [|c r IH]; [reflexivity|]. simpl.
  destruct (chr_eqb c c_lf); [reflexivity|].
  destruct (readline r) as [line r']. simpl in *. lia.
Qed.

Lemma bind_ok_inv {A B : Type} (m : M A) (f : A -> M B) out (b : B) :
  bind m f = (out, Ok b) ->
  exists o1 a o2, m = (o1, Ok a) /\ f a = (o2, Ok b).
Proof.
  unfold bind. destruct m as [o1 [a|e|]]; try discriminate.
  destruct (f a) as [o2 r] eqn:E. intros H. injection H as _ ->.
  now exists o1, a, o2.
Qed.

Lemma display_definition_no_timeout no_warning tty lines comment translation :
  snd (display_definition no_warning tty lines comment translation) <> Timeout.
Proof.
  unfold display_definition.
  apply bind_no_timeout; [apply parse_items_no_timeout|]. intros [cols rows].
  apply bind_no_timeout.
  { destruct cols, rows; try discriminate.
    apply bind_no_timeout;
      [rewrite snd_when; destruct (negb _); [apply print_no_timeout|discriminate]|].
    intros _. destruct translation; discriminate. }
  intros cols'. apply bind_no_timeout; [|discriminate].
  destruct rows; [|discriminate].
  apply bind_no_timeout;
    [rewrite snd_when; destruct (_ && _); [apply print_no_timeout|discriminate]|].
  discriminate.
Qed.

Lemma frame_no_timeout no_warning tty st :
  snd (frame no_warning tty st) <> Timeout.
Proof.
  unfold frame.
  destruct (readline (fs_src st)) as [line1 src1].
  apply bind_no_timeout; [apply display_definition_no_timeout|].
  intros [cols' rows'].
  destruct (readline src1) as [line2 src2].
  destruct (readline src2) as [line3 src3].
  apply bind_no_timeout; [apply unescape_no_timeout|]. intros source.
  apply bind_no_timeout; [apply unescape_no_timeout|]. intros translation.
  apply bind_no_timeout; [apply wrap_never_times_out|]. intros ws.
  apply bind_no_timeout; [apply wrap_never_times_out|]. intros wt.
  apply bind_no_timeout; [destruct cols'; discriminate|]. intros cols''.
  apply bind_no_timeout; [apply checks_no_timeout|]. intros _.
  destruct (readline src3) as [line4 src4].
  destruct (negb _); discriminate.
Qed.

(** A frame that goes on with the loop has read at least one character. *)
Lemma frame_progress no_warning tty st out st' :
  frame no_warning tty st = (out, Ok (Some st')) ->
  (length (fs_src st') < length (fs_src st))%nat.
Proof.
  unfold frame.
  pose proof (readline_length (fs_src st)) as L1.
  destruct (readline (fs_src st)) as [line1 src1].
  pose proof (readline_length src1) as L2.
  destruct (readline src1) as [line2 src2].
  pose proof (readline_length src2) as L3.
  destruct (readline src2) as [line3 src3].
  pose proof (readline_length src3) as L4.
  destruct (readline src3) as [line4 src4].
  simpl in L1, L2, L3, L4.
  intros H.
  apply bind_ok_inv in H. destruct H as (? & [cols rows] & ? & _ & H).
  do 6 (apply bind_ok_inv in H; destruct H as (? & ? & ? & _ & H)).
  destruct (negb (len line4 =? 1)) eqn:E; [discriminate|].
  apply negb_false_iff, Z.eqb_eq in E. unfold len in E.
  injection H as _ <-. simpl. lia.
Qed.

Lemma parse_loop_no_timeout fuel no_warning tty st :
  (length (fs_src st) < fuel)%nat ->
  snd (parse_loop fuel no_warning tty st) <> Timeout.
Proof.
  revert st. induction fuel as [|fuel IH]; intros st Hf; [lia|].
  cbn [parse_loop]. rewrite snd_bind.
  pose proof (frame_no_timeout no_warning tty st) as T.
  pose proof (frame_progress no_warning tty st) as P.
  destruct (frame no_warning tty st) as [out [[st'|]|e|]]; simpl in *;
    try discriminate; [|contradiction].
  apply IH. specialize (P out st' eq_refl). lia.
Qed.

Theorem parse_txt_never_times_out fs tty lang no_warning :
  snd (parse_txt fs tty lang no_warning) <> Timeout.
Proof.
  unfold parse_txt. apply bind_no_timeout; [apply print_no_timeout|]. intros _.
  destruct (fs _) as [text|]; [|discriminate].
  apply bind_no_timeout; [|intros _; apply print_no_timeout].
  apply parse_loop_no_timeout. simpl. lia.
Qed.

(** X19: [main] ends, whatever the file holds, and with status 0 or 2:
    the loop over the frames does not run forever, and status 1 is never
    returned. *)
Theorem main_exit_status fs tty lang no_warning :
  run_status (main fs tty lang no_warning) = Exit 0
  \/ run_status (main fs tty lang no_warning) = Exit 2.
Proof.
  unfold main.
  pose proof (parse_txt_never_times_out fs tty lang no_warning) as T.
  destruct (parse_txt fs tty lang no_warning) as [out [a|e|]]; simpl in *;
    [now left|now right|contradiction].
Qed.

(** ** The display definition of a frame *)

(** A definition line without [c] and [r]: the warning, and then the length
    of whatever the local [translation] holds, the previous record's decoded
    translation, or [UnboundLocalError] in the first frame. *)
Lemma display_definition_without_keys no_warning tty lines comment translation :
  parse_items comment lines (tl comment) None None = Ok (None, None) ->
  display_definition no_warning tty lines comment translation
  = ((if no_warning then [] else [yellow tty (msg_no_display lines)]),
     match translation with
     | Some previous => Ok (Some (len previous), 1)
     | None => Raise UnboundLocalError
     end).
Proof.
  intros H. unfold display_definition. rewrite H, bind_lift_ok.
  rewrite print_no_display.
  destruct no_warning, translation; reflexivity.
Qed.

(** A definition line with [r] and without [c] leaves the columns at
    [None]. *)
Lemma display_definition_rows_only no_warning tty lines comment translation rows :
  parse_items comment lines (tl comment) None None = Ok (None, Some rows) ->
  display_definition no_warning tty lines comment translation
  = ((if rows >? 1 then [yellow tty (msg_odd_columns lines)] else []),
     Ok (None, rows)).
Proof.
  intros H. unfold display_definition. rewrite H, bind_lift_ok.
  cbv beta iota. rewrite print_odd_columns. destruct (rows >? 1); reflexivity.
Qed.

(** The warning about the columns of a definition with several rows is
    printed with warnings disabled too. *)
Lemma display_definition_odd_columns tty lines comment translation cols rows :
  parse_items comment lines (tl comment) None None = Ok (Some cols, Some rows) ->
  1 < rows -> cols <> 20 ->
  display_definition true tty lines comment translation
  = ([yellow tty (msg_odd_columns lines)], Ok (Some cols, rows)).
Proof.
  intros H Hr Hc. unfold display_definition. rewrite H, bind_lift_ok.
  cbv beta iota. rewrite bind_ret. cbn [cols_is_not_20].
  replace (rows >? 1) with true by (symmetry; rewrite Z.gtb_ltb; now apply Z.ltb_lt).
  replace (cols =? 20) with false by (symmetry; now apply Z.eqb_neq).
  rewrite print_odd_columns. reflexivity.
Qed.

(** Every frame with [r] and without [c] ends the run: no record of it is
    checked. *)
Lemma frame_rows_only_fails no_warning tty st rows :
  (let comment := py_split c_space (fst (readline (fs_src st))) in
   parse_items comment (fs_lines st) (tl comment) None None
   = Ok (None, Some rows)) ->
  exists e, snd (frame no_warning tty st) = Raise e.
Proof.
  intros H. unfold frame.
  destruct (readline (fs_src st)) as [line1 src1]. cbn [fst] in H. cbv zeta in H.
  cbv zeta. rewrite (display_definition_rows_only _ _ _ _ _ _ H).
  rewrite snd_bind. cbn [snd].
  destruct (readline src1) as [line2 src2].
  destruct (readline src2) as [line3 src3].
  rewrite snd_bind, snd_lift.
  match goal with
  | |- context [unescape ?s] =>
      pose proof (unescape_no_timeout s) as T1; destruct (unescape s) as [source|e|]
  end; [|now exists e|contradiction].
  rewrite snd_bind, snd_lift.
  match goal with
  | |- context [unescape ?s] =>
      pose proof (unescape_no_timeout s) as T2; destruct (unescape s) as [translation|e|]
  end; [|now exists e|contradiction].
  rewrite snd_bind, snd_lift. now exists TypeError.
Qed.

(** Whatever exception leaves [parse_txt]: a trace, a usage error and exit
    status 2. *)
Lemma main_on_failure fs tty lang no_warning e :
  snd (parse_txt fs tty lang no_warning) = Raise e ->
  run_stderr (main fs tty lang no_warning) = [Traceback e; UsageError e]
  /\ run_status (main fs tty lang no_warning) = Exit 2.
Proof.
  unfold main. destruct (parse_txt fs tty lang no_warning) as [out [a|e'|]];
    simpl; intros H; try discriminate.
  injection H as ->. now split.
Qed.

(** ** The checks of a record, exactly *)










Section ShownRecord.

Variables (no_warning tty : bool) (lines cols rows : Z).
Variables (source translation : pystr).
Variables (ws wt : list pystr).

Hypothesis Hcols : 0 <= cols <= maxsize.
Hypothesis Hsource : encodable source = true.
Hypothesis Hws : Forall (fun l => encodable l = true) ws.
Hypothesis Htranslation : encodable translation = true.
Hypothesis Hwt : Forall (fun l => encodable l = true) wt.




End ShownRecord.


Section TagMembership.

Variables (no_warning tty : bool) (lines cols rows : Z).
Variables (source translation : pystr).
Variables (ws wt : list pystr).
Variable t : tag.

Lemma in_source_overflow_tags :
  In t (out_tags (check_source_overflow no_warning tty lines cols rows source ws))
  <-> no_warning = false
      /\ (if (rows =? 1) && ((len source >? cols) || (len ws >? rows))
          then t = WSourceCols
          else (len ws >? rows) = true /\ t = WSourceRows).
Proof.
  rewrite check_source_overflow_tags.
  destruct no_warning; cbn [negb]; [simpl; intuition discriminate|].
  destruct ((rows =? 1) && _); [simpl; intuition congruence|].
  destruct (len ws >? rows); simpl; intuition congruence.
Qed.

Lemma in_overflow_tags :
  In t (out_tags (check_overflow tty lines cols rows source translation ws wt))
  <-> (len wt >? rows) || (rows =? 1) && (len translation >? cols) = true
      /\ t = EOverflow.
Proof. rewrite check_overflow_tags. apply in_singleton_if. Qed.

Lemma in_placeholder_tags :
  In t (out_tags (check_placeholder tty lines cols rows source translation ws wt))
  <-> negb (count c_percent source =? count c_percent translation)
      && (len translation >? 0) = true
      /\ t = EPlaceholder.
Proof. rewrite check_placeholder_tags. apply in_singleton_if. Qed.

Lemma in_short_tags :
  In t (out_tags (check_short no_warning tty lines cols rows source translation
                    ws wt))
  <-> negb no_warning && (len source >? 0) && (len translation >? 0)
      && (2 * len (strip translation) <? len (strip source)) = true
      /\ t = WShort.
Proof. rewrite check_short_out_tags. apply in_singleton_if. Qed.

(** The diagnostics of the first block are diagnostics of the checks. *)
Lemma in_checks_tags_source :
  In t (out_tags (check_source_overflow no_warning tty lines cols rows source ws))
  -> In t (out_tags (checks no_warning tty lines cols rows source translation
                       ws wt)).
Proof. intros H. rewrite checks_unfold_tags. apply in_or_app. now left. Qed.

End TagMembership.



(** X5: the warning that the source is longer than the columns is emitted
    if and only if warnings are enabled, [rows] is 1, and the source is
    longer than [cols] or wraps into more than one line; the warning that
    the wrapped source has too many rows if and only if warnings are
    enabled, [rows] is not 1, and the source wraps into more than [rows]
    lines. *)
Theorem source_overflow_iff no_warning tty lines cols rows source translation ws wt :
  (In WSourceCols
      (out_tags (checks no_warning tty lines cols rows source translation ws wt))
   <-> no_warning = false /\ rows = 1 /\ (cols < len source \/ 1 < len ws))
  /\ (In WSourceRows
         (out_tags (checks no_warning tty lines cols rows source translation ws wt))
      <-> no_warning = false /\ rows <> 1 /\ rows < len ws).
Proof.
  split.
  - split.
    + intros H. apply in_checks_tags_inv in H.
      rewrite in_source_overflow_tags, in_overflow_tags,
        in_placeholder_tags, in_short_tags in H.
      destruct H as [H|[H|[H|[H|H]]]]; try (intuition discriminate).
      * destruct H as [N H].
        destruct ((rows =? 1) && ((len source >? cols) || (len ws >? rows))) eqn:C;
          [|intuition discriminate].
        apply andb_true_iff in C. destruct C as [R C]. apply Z.eqb_eq in R.
        subst rows. apply orb_true_iff in C.
        rewrite !Z.gtb_ltb, !Z.ltb_lt in C. auto.
      * apply in_punctuation_tags in H. intuition discriminate.
    + intros (N & -> & C).
      apply in_checks_tags_source, in_source_overflow_tags.
      split; [assumption|].
      replace ((1 =? 1) && ((len source >? cols) || (len ws >? 1))) with true;
        [reflexivity|].
      symmetry. apply orb_true_iff. rewrite !Z.gtb_ltb, !Z.ltb_lt. exact C.
  - split.
    + intros H. apply in_checks_tags_inv in H.
      rewrite in_source_overflow_tags, in_overflow_tags,
        in_placeholder_tags, in_short_tags in H.
      destruct H as [H|[H|[H|[H|H]]]]; try (intuition discriminate).
      * destruct H as [N H].
        destruct ((rows =? 1) && ((len source >? cols) || (len ws >? rows))) eqn:C;
          [discriminate|].
        destruct H as [L _]. rewrite Z.gtb_ltb in L. apply Z.ltb_lt in L.
        split; [assumption|]. split; [|assumption].
        intros ->. change (1 =? 1) with true in C. cbn [andb] in C.
        apply orb_false_iff in C. destruct C as [_ C].
        rewrite Z.gtb_ltb in C. apply Z.ltb_ge in C. lia.
      * apply in_punctuation_tags in H. intuition discriminate.
    + intros (N & R & L).
      apply in_checks_tags_source, in_source_overflow_tags.
      split; [assumption|].
      replace (rows =? 1) with false by (symmetry; now apply Z.eqb_neq).
      cbn [andb]. split; [|reflexivity].
      rewrite Z.gtb_ltb. now apply Z.ltb_lt.
Qed.

Lemma check_punctuation_same no_warning tty lines cols rows text ws wt :
  out_tags (check_punctuation no_warning tty lines cols rows text text ws wt) = [].
Proof.
  unfold check_punctuation. rewrite out_tags_when.
  destruct (negb no_warning && (len text >? 0) && (len text >? 0));
    [|reflexivity].
  destruct (last_char (strip text)) as [se| |];
    [rewrite !bind_lift_ok|reflexivity|reflexivity].
  destruct (first_char text) as [s0| |];
    [rewrite !bind_lift_ok|reflexivity|reflexivity].
  cbv zeta. unfold chr_eqb. rewrite !N.eqb_refl. cbn [negb].
  now rewrite !andb_false_r.
Qed.

(** X6: a record whose translation is identical to its source gets no
    Placeholder-count Error, no punctuation warning and no Short-translation
    Warning: the only diagnostics it can get are those about overflow. *)
Theorem identical_texts_only_overflow no_warning tty lines cols rows text ws wt :
  Forall (fun t => In t [WSourceCols; WSourceRows; EOverflow])
    (out_tags (checks no_warning tty lines cols rows text text ws wt)).
Proof.
  apply Forall_forall. intros t H. apply in_checks_tags_inv in H.
  rewrite in_source_overflow_tags, in_overflow_tags,
    in_placeholder_tags, in_short_tags, check_punctuation_same in H.
  rewrite Z.eqb_refl in H. cbn [negb andb] in H.
  destruct H as [H|[H|[H|[H|H]]]].
  - destruct H as [_ H]. destruct (_ && _); simpl; intuition.
  - destruct H as [_ ->]. simpl. tauto.
  - destruct H; discriminate.
  - destruct H.
  - destruct H as [H _]. exfalso.
    apply andb_true_iff in H. destruct H as [_ H]. apply Z.ltb_lt in H.
    pose proof (len_nonneg (strip text)). lia.
Qed.

(** ** Frames *)

Lemma readline_nonempty (src : pystr) :
  length (fst (readline src)) = 0%nat -> length src = 0%nat.
Proof.
  destruct src as [|c r]; [reflexivity|]. simpl.
  destruct (chr_eqb c c_lf); [discriminate|].
  destruct (readline r); discriminate.
Qed.

(** X8: a pass of the loop that goes on with the next frame has read four
    lines that are not empty (at least four characters), has advanced the
    line counter by exactly 4, and leaves the local [translation] bound. *)
Theorem frame_continues no_warning tty st out st' :
  frame no_warning tty st = (out, Ok (Some st')) ->
  fs_lines st' = fs_lines st + 4
  /\ (exists t, fs_translation st' = Some t)
  /\ (length (fs_src st') + 4 <= length (fs_src st))%nat.
Proof.
  unfold frame.
  pose proof (readline_length (fs_src st)) as L1.
  pose proof (readline_nonempty (fs_src st)) as N1.
  destruct (readline (fs_src st)) as [line1 src1].
  pose proof (readline_length src1) as L2.
  pose proof (readline_nonempty src1) as N2.
  destruct (readline src1) as [line2 src2].
  pose proof (readline_length src2) as L3.
  pose proof (readline_nonempty src2) as N3.
  destruct (readline src2) as [line3 src3].
  pose proof (readline_length src3) as L4.
  destruct (readline src3) as [line4 src4].
  simpl in L1, L2, L3, L4, N1, N2, N3.
  intros H.
  apply bind_ok_inv in H. destruct H as (? & [cols rows] & ? & _ & H).
  do 2 (apply bind_ok_inv in H; destruct H as (? & ? & ? & _ & H)).
  do 4 (apply bind_ok_inv in H; destruct H as (? & ? & ? & _ & H)).
  destruct (negb (len line4 =? 1)) eqn:E; [discriminate|].
  apply negb_false_iff, Z.eqb_eq in E. unfold len in E.
  injection H as _ <-. cbn [fs_lines fs_translation fs_src].
  split; [reflexivity|]. split; [eexists; reflexivity|]. lia.
Qed.

(** How the display definition ends. *)
Lemma display_definition_outcome no_warning tty lines comment translation :
  snd (display_definition no_warning tty lines comment translation)
  = match parse_items comment lines (tl comment) None None with
    | Ok (None, None) =>
        match translation with
        | Some previous => Ok (Some (len previous), 1)
        | None => Raise UnboundLocalError
        end
    | Ok (cols, Some rows) => Ok (cols, rows)
    | Ok (cols, None) => Ok (cols, 1)
    | Raise e => Raise e
    | Timeout => Timeout
    end.
Proof.
  unfold display_definition.
  destruct (parse_items comment lines (tl comment) None None)
    as [[cols rows]|e|]; [rewrite bind_lift_ok|reflexivity|reflexivity].
  rewrite print_no_display, print_odd_columns.
  destruct cols as [c|], rows as [r|], translation as [t|], no_warning;
    cbv beta iota; cbn [negb when]; rewrite ?bind_ret;
    try (destruct (_ && _)); reflexivity.
Qed.

Lemma display_definition_ok_inv no_warning tty lines comment translation
  cols' rows' :
  snd (display_definition no_warning tty lines comment translation)
  = Ok (cols', rows') ->
  exists cols rows,
    parse_items comment lines (tl comment) None None = Ok (cols, rows)
    /\ cols' = match cols, rows with
               | None, None => option_map len translation
               | _, _ => cols
               end
    /\ rows' = match rows with Some r => r | None => 1 end.
Proof.
  rewrite display_definition_outcome.
  destruct (parse_items comment lines (tl comment) None None)
    as [[cols rows]|e|]; [|discriminate|discriminate].
  intros H. exists cols, rows. split; [reflexivity|].
  destruct cols as [c|], rows as [r|]; try (injection H as <- <-; now split).
  destruct translation as [t|]; [|discriminate].
  injection H as <- <-. now split.
Qed.

Lemma lift_ok_inv {A : Type} (o : outcome A) out (a : A) :
  lift o = (out, Ok a) -> o = Ok a.
Proof. unfold lift. intros H. now injection H. Qed.

(** What a pass of the loop that ends without an exception has done. *)
Lemma frame_ok_inv no_warning tty st out next :
  frame no_warning tty st = (out, Ok next) ->
  exists c rows source translation ws wt,
    snd (display_definition no_warning tty (fs_lines st)
           (py_split c_space (fst (readline (fs_src st)))) (fs_translation st))
    = Ok (Some c, rows)
    /\ unescape (frame_source st) = Ok source
    /\ unescape (frame_translation st) = Ok translation
    /\ wrap (Some c) source = Ok ws /\ wrap (Some c) translation = Ok wt
    /\ snd (checks no_warning tty (fs_lines st) c rows source translation ws wt)
       = Ok tt
    /\ (forall st', next = Some st' ->
        fs_translation st' = Some translation
        /\ fs_lines st' = fs_lines st + 4).
Proof.
  unfold frame, frame_source, frame_translation, frame_translation_text.
  destruct (readline (fs_src st)) as [line1 src1]. cbn [fst].
  destruct (readline src1) as [line2 src2].
  destruct (readline src2) as [line3 src3].
  intros H.
  apply bind_ok_inv in H. destruct H as (? & [cols' rows'] & ? & D & H).
  apply bind_ok_inv in H. destruct H as (? & source & ? & Us & H).
  apply bind_ok_inv in H. destruct H as (? & translation & ? & Ut & H).
  apply bind_ok_inv in H. destruct H as (? & ws & ? & Ws & H).
  apply bind_ok_inv in H. destruct H as (? & wt & ? & Wt & H).
  apply bind_ok_inv in H. destruct H as (? & c & ? & C & H).
  apply bind_ok_inv in H. destruct H as (? & [] & ? & K & H).
  apply lift_ok_inv in Us, Ut, Ws, Wt, C.
  destruct cols' as [c'|]; [|discriminate]. injection C as ->.
  exists c, rows', source, translation, ws, wt.
  split; [now rewrite D|]. split; [exact Us|]. split; [exact Ut|].
  split; [exact Ws|]. split; [exact Wt|]. split; [now rewrite K|].
  intros st' ->. destruct (readline src3) as [line4 src4].
  destruct (negb _); [discriminate|]. injection H as _ <-. now split.
Qed.

(** X9: a frame is checked to its end only with a positive number of
    columns: when a pass of the loop ends without an exception, its
    definition line gave [c] a positive value, or it gave neither [c] nor
    [r] and the previous record left a translation that is not empty.  A
    definition with [c] below 1, with [r] alone, or with no key in the first
    frame or after an empty translation ends the run. *)
Theorem frame_ok_columns no_warning tty st out next :
  frame no_warning tty st = (out, Ok next) ->
  exists cols rows,
    (let comment := py_split c_space (fst (readline (fs_src st))) in
     parse_items comment (fs_lines st) (tl comment) None None = Ok (cols, rows))
    /\ match cols, rows with
       | Some c, _ => 0 < c
       | None, None => exists previous,
                         fs_translation st = Some previous /\ 0 < len previous
       | None, Some _ => False
       end.
Proof.
  intros H. apply frame_ok_inv in H.
  destruct H as (c & rows' & source & translation & ws & wt & D & _ & _ & W & _).
  apply display_definition_ok_inv in D. destruct D as (cols & rows & P & C & _).
  apply wrap_ok_positive in W. destruct W as (c' & E & Hc). injection E as <-.
  exists cols, rows. split; [exact P|].
  destruct cols as [c0|], rows as [r0|]; try (injection C as ->; exact Hc);
    try discriminate.
  destruct (fs_translation st) as [previous|]; [|discriminate].
  exists previous. split; [reflexivity|]. now injection C as ->.
Qed.

Lemma split_on_no_sep (sep : char) (s cur : pystr) :
  ~ In sep s -> split_on sep cur s = [rev cur ++ s].
Proof.
  revert cur. induction s as [|c r IH]; intros cur H; simpl.
  - now rewrite app_nil_r.
  - destruct (chr_eqb c sep) eqn:E.
    + exfalso. apply H. left. unfold chr_eqb in E. now apply N.eqb_eq in E.
    + rewrite IH by (intros X; apply H; now right).
      simpl. now rewrite <- app_assoc.
Qed.

(** X10: a file whose first line has no blank (a message identifier
    without display definition, or no line at all: the empty file) ends the
    run in the first pass: after the start line and, with warnings enabled,
    the warning that there is no display definition on line 1, the local
    [translation] is read unbound, and the script leaves with the trace, the
    usage error and status 2.  A language argument that [stdout] cannot
    encode ends the run before, at the start line. *)
Theorem first_frame_without_definition fs tty lang no_warning text :
  fs (if str_eqb lang (str "en") then str "lang_en.txt"
      else str "lang_en_" ++ lang ++ str ".txt") = Some text ->
  ~ In c_space (fst (readline text)) ->
  main fs tty lang no_warning
  = if encodable lang then
      {| run_stdout :=
           green tty (str "Start " ++ lang ++ str " lang-check")
           :: (if no_warning then [] else [yellow tty (msg_no_display 1)]);
         run_stderr := [Traceback UnboundLocalError; UsageError UnboundLocalError];
         run_status := Exit 2 |}
    else
      {| run_stdout := [];
         run_stderr := [Traceback UnicodeEncodeError; UsageError UnicodeEncodeError];
         run_status := Exit 2 |}.
Proof.
  intros F H. unfold main, parse_txt.
  assert (E : encodable (green tty (str "Start " ++ lang ++ str " lang-check"))
              = encodable lang).
  { unfold green. rewrite encodable_color, !encodable_app.
    change (encodable (str "Start ")) with true.
    change (encodable (str " lang-check")) with true.
    now rewrite andb_true_r. }
  destruct (encodable lang) eqn:L.
  - rewrite print_ok by (now rewrite E). rewrite F.
    cbn [length parse_loop]. unfold frame. cbn [fs_src fs_lines fs_translation].
    destruct (readline text) as [line1 src1]. cbn [fst] in H.
    unfold py_split. rewrite (split_on_no_sep _ _ _ H).
    unfold display_definition. cbn [tl parse_items rev app].
    rewrite print_no_display.
    destruct no_warning; reflexivity.
  - rewrite print_fails by (now rewrite E). reflexivity.
Qed.

(** ** The decoder and the length of the text *)

Lemma hex_digits_length (n : nat) (acc : N) (s : pystr) (v : N) :
  hex_digits n acc s = Some v -> (n <= length s)%nat.
Proof.
  revert acc s. induction n as [|n IH]; intros acc s H; [lia|].
  destruct s as [|c r]; [discriminate|]. simpl in H.
  destruct (hex_val c); [|discriminate]. apply IH in H. simpl. lia.
Qed.

Lemma hex_escape_bound (n : nat) (s out : pystr) (m : nat) :
  hex_escape n s = Ok (out, m) ->
  (length out = 1 /\ m = S n /\ n <= length s)%nat.
Proof.
  unfold hex_escape. destruct (hex_digits n 0 s) as [v|] eqn:H; [|discriminate].
  apply hex_digits_length in H.
  destruct (v <=? 1114111)%N; [|discriminate].
  intros X. injection X as <- <-. auto.
Qed.

Lemma until_brace_length (s name : pystr) :
  until_brace s = Some name -> (S (length name) <= length s)%nat.
Proof.
  revert name. induction s as [|c r IH]; intros name H; [discriminate|].
  simpl in H. destruct (chr_eqb c 125%N).
  - injection H as <-. simpl. lia.
  - destruct (until_brace r) as [name'|]; [|discriminate].
    injection H as <-. specialize (IH _ eq_refl). simpl. lia.
Qed.

(** An escape sequence of [n] characters after the backslash gives at most
    [n + 1] characters, and [r] has these [n] characters. *)
Lemma escape_at_bound (r out : pystr) (n : nat) :
  escape_at r = Ok (out, n) ->
  (length out <= S n /\ 1 <= n <= length r)%nat.
Proof.
  unfold escape_at. destruct r as [|c r']; [discriminate|].
  destruct (chr_eqb c c_lf); [intros H; injection H as <- <-; simpl; lia|].
  destruct (simple_escape c); [intros H; injection H as <- <-; simpl; lia|].
  destruct (octal_digit c).
  { destruct r' as [|d2 r'']; [intros H; injection H as <- <-; simpl; lia|].
    destruct (octal_digit d2); [|intros H; injection H as <- <-; simpl; lia].
    destruct r'' as [|d3 r3]; [intros H; injection H as <- <-; simpl; lia|].
    destruct (octal_digit d3); intros H; injection H as <- <-; simpl; lia. }
  destruct (chr_eqb c 120%N);
    [intros H; apply hex_escape_bound in H; simpl; lia|].
  destruct (chr_eqb c 117%N);
    [intros H; apply hex_escape_bound in H; simpl; lia|].
  destruct (chr_eqb c 85%N);
    [intros H; apply hex_escape_bound in H; simpl; lia|].
  destruct (chr_eqb c 78%N); [|intros H; injection H as <- <-; simpl; lia].
  destruct r' as [|b r'']; [discriminate|].
  destruct (chr_eqb b 123%N); [|discriminate].
  destruct (until_brace r'') as [[|x name]|] eqn:U; try discriminate.
  apply until_brace_length in U.
  destruct (db_name (x :: name)); [|discriminate].
  intros H; injection H as <- <-. simpl in *. lia.
Qed.

Lemma unicode_escape_from_length (s : pystr) (skip : nat) (t : pystr) :
  unicode_escape_from skip s = Ok t -> (length t <= length s - skip)%nat.
Proof.
  revert skip t. induction s as [|c r IH]; intros skip t H; simpl in H.
  - injection H as <-. simpl. lia.
  - destruct skip as [|k]; [|apply IH in H; simpl; lia].
    destruct (chr_eqb c c_backslash).
    + destruct (escape_at r) as [[out n]| |] eqn:E; try discriminate.
      apply escape_at_bound in E. cbn [obind] in H.
      destruct (unicode_escape_from n r) as [t'| |] eqn:D; try discriminate.
      apply IH in D. injection H as <-. rewrite length_app. simpl. lia.
    + destruct (unicode_escape_from 0 r) as [t'| |] eqn:D; try discriminate.
      apply IH in D. injection H as <-. simpl. lia.
Qed.

(** X11: decoding never makes a text longer: a text that [unescape]
    decodes has at most as many characters as the raw text of the file, so
    a raw text that fits the display decodes to one that fits too. *)
Theorem unescape_not_longer (text decoded : pystr) :
  unescape text = Ok decoded -> len decoded <= len text.
Proof.
  unfold unescape, encode_ascii, decode_unicode_escape.
  destruct (negb _).
  - intros H. injection H as <-. lia.
  - destruct (forallb is_ascii text); [|discriminate]. cbn [obind].
    intros H. apply unicode_escape_from_length in H. unfold len. lia.
Qed.

Lemma unicode_escape_from_plain_prefix (p s : pystr) :
  ~ In c_backslash p ->
  unicode_escape_from 0 (p ++ s)
  = obind (unicode_escape_from 0 s) (fun t => Ok (p ++ t)).
Proof.
  induction p as [|c p IH]; intros H; simpl.
  - destruct (unicode_escape_from 0 s); reflexivity.
  - destruct (chr_eqb c c_backslash) eqn:E.
    + exfalso. apply H. left. unfold chr_eqb in E. apply N.eqb_eq in E.
      now subst c.
    + rewrite IH by (intros X; apply H; now right).
      destruct (unicode_escape_from 0 s); reflexivity.
Qed.

(** X12: an ASCII text that ends in a backslash which is the only one is
    not decoded: [unescape] raises [UnicodeDecodeError], which ends the
    run. *)
Theorem unescape_trailing_backslash (text : pystr) :
  forallb is_ascii text = true -> ~ In c_backslash text ->
  unescape (text ++ [c_backslash]) = Raise UnicodeDecodeError.
Proof.
  intros Ha Hno. unfold unescape, encode_ascii, decode_unicode_escape.
  replace (existsb (chr_eqb c_backslash) (text ++ [c_backslash])) with true.
  2:{ symmetry. apply existsb_backslash, in_or_app. right. now left. }
  cbn [negb]. rewrite forallb_app, Ha. cbn [forallb andb is_ascii].
  replace (is_ascii c_backslash) with true by reflexivity.
  cbn [andb obind].
  rewrite unicode_escape_from_plain_prefix by assumption. reflexivity.
Qed.

(** ** The definition line *)

Lemma split_on_join (sep : char) (s cur : pystr) :
  join_with [sep] (split_on sep cur s) = rev cur ++ s.
Proof.
  revert cur. induction s as [|c r IH]; intros cur.
  - simpl. now rewrite app_nil_r.
  - cbn [split_on]. destruct (chr_eqb c sep) eqn:E.
    + unfold chr_eqb in E. apply N.eqb_eq in E. subst c.
      specialize (IH []). cbn [rev app] in IH.
      destruct (split_on sep [] r) as [|x l] eqn:S.
      * destruct r; simpl in S; [discriminate|].
        destruct (chr_eqb _ _); discriminate.
      * change (join_with [sep] (rev cur :: x :: l))
          with (rev cur ++ [sep] ++ join_with [sep] (x :: l)).
        now rewrite IH.
    + rewrite IH. simpl. now rewrite <- app_assoc.
Qed.

Lemma split_on_length (sep : char) (s cur : pystr) :
  len (split_on sep cur s) = count sep s + 1.
Proof.
  revert cur. induction s as [|c r IH]; intros cur; [reflexivity|].
  cbn [split_on count]. destruct (chr_eqb c sep).
  - rewrite len_cons, IH. lia.
  - rewrite IH. lia.
Qed.

(** X13: an item of the definition line that does not hold exactly one
    [=] (a bare word, an empty item between two blanks, [c=2=3]) raises
    [ValueError], whatever its key is and whatever follows it. *)
Theorem parse_items_malformed_item comment lines item more cols rows :
  count c_equals item <> 1 ->
  parse_items comment lines (item :: more) cols rows = Raise ValueError.
Proof.
  intros H. cbn [parse_items].
  pose proof (split_on_length c_equals item []) as L. fold (py_split c_equals item) in L.
  destruct (py_split c_equals item) as [|key [|val [|x l]]]; try reflexivity.
  exfalso. apply H. unfold len in L. simpl in L. lia.
Qed.

(** X14: a frame whose definition line has, right after the identifier,
    an item [key=val] with a key other than [c] and [r] prints nothing and
    raises [RuntimeError]; the message quotes the whole definition line as
    it was read, line feed included, and the number of that line. *)
Theorem frame_unknown_key no_warning tty st item more key val :
  tl (py_split c_space (fst (readline (fs_src st)))) = item :: more ->
  py_split c_equals item = [key; val] ->
  str_eqb key (str "c") = false -> str_eqb key (str "r") = false ->
  frame no_warning tty st
  = ([], Raise (RuntimeError
                  (str "Unknown display definition " ++ fst (readline (fs_src st))
                   ++ str " on line " ++ str_of_Z (fs_lines st)))).
Proof.
  intros T S Kc Kr. unfold frame.
  destruct (readline (fs_src st)) as [line1 src1]. cbn [fst] in *.
  unfold display_definition. rewrite T. cbn [parse_items].
  rewrite S, Kc, Kr. rewrite bind_lift_raise.
  unfold msg_unknown_definition, py_split.
  rewrite split_on_join. reflexivity.
Qed.

Lemma lstrip_by_snoc_nil p (s : pystr) (x : char) :
  p x = true -> lstrip_by p s = [] -> lstrip_by p (s ++ [x]) = [].
Proof.
  intros Hx. induction s as [|c s IH]; simpl; [now rewrite Hx|].
  destruct (p c); [exact IH|discriminate].
Qed.

Lemma lstrip_by_snoc_cons p (s : pystr) (x c : char) (r : pystr) :
  lstrip_by p s = c :: r -> lstrip_by p (s ++ [x]) = c :: r ++ [x].
Proof.
  induction s as [|y s IH]; simpl; [discriminate|].
  destruct (p y); [exact IH|]. intros H. injection H as -> ->. reflexivity.
Qed.

Lemma int_digits_snoc (s : pystr) (prev : char) (acc : Z) (digits : nat) :
  int_digits prev acc digits (s ++ [c_lf])
  = match int_digits prev acc digits s with
    | Some (v, d, rest) => Some (v, d, rest ++ [c_lf])
    | None => None
    end.
Proof.
  revert prev acc digits. induction s as [|c r IH]; intros prev acc digits.
  - simpl. destruct (chr_eqb prev c_underscore); reflexivity.
  - cbn [app int_digits]. destruct (ascii_digit c); [apply IH|].
    destruct (chr_eqb c c_underscore).
    + destruct (chr_eqb prev c_underscore); [reflexivity|apply IH].
    + destruct (chr_eqb prev c_underscore); reflexivity.
Qed.

Lemma py_int_digits_snoc (neg : bool) (s : pystr) :
  match s ++ [c_lf] with
  | c :: _ =>
      if chr_eqb c c_underscore then Raise ValueError
      else match int_digits 0%N 0 O (s ++ [c_lf]) with
           | Some (v, S _, rest) =>
               match lstrip_by c_isspace rest with
               | [] => Ok (if neg then - v else v)
               | _ :: _ => Raise ValueError
               end
           | _ => Raise ValueError
           end
  | [] => Raise ValueError
  end
  = match s with
    | c :: _ =>
        if chr_eqb c c_underscore then Raise ValueError
        else match int_digits 0%N 0 O s with
             | Some (v, S _, rest) =>
                 match lstrip_by c_isspace rest with
                 | [] => Ok (if neg then - v else v)
                 | _ :: _ => Raise ValueError
                 end
             | _ => Raise ValueError
             end
    | [] => Raise ValueError
    end.
Proof.
  destruct s as [|c r]; [reflexivity|].
  change ((c :: r) ++ [c_lf]) with (c :: (r ++ [c_lf])) at 1.
  cbv iota. destruct (chr_eqb c c_underscore); [reflexivity|].
  rewrite int_digits_snoc.
  destruct (int_digits 0%N 0 0 (c :: r)) as [[[v d] rest]|]; [|reflexivity].
  destruct d as [|d]; [reflexivity|].
  destruct (lstrip_by c_isspace rest) as [|x l] eqn:L.
  - now rewrite (lstrip_by_snoc_nil c_isspace rest c_lf eq_refl L).
  - now rewrite (lstrip_by_snoc_cons _ _ c_lf _ _ L).
Qed.

(** X15: [int] reads a value with the line feed that ends the definition
    line as it reads the value alone: the last item of the line, [r=1] with
    the line feed after it, parses as [r=1]. *)
Theorem py_int_trailing_newline (val : pystr) :
  py_int (val ++ [c_lf]) = py_int val.
Proof.
  unfold py_int. rewrite map_app. cbn [map].
  replace (to_ascii_decimal c_lf) with c_lf by reflexivity.
  destruct (lstrip_by c_isspace (map to_ascii_decimal val)) as [|c r] eqn:L.
  - now rewrite (lstrip_by_snoc_nil c_isspace _ c_lf eq_refl L).
  - rewrite (lstrip_by_snoc_cons _ _ c_lf _ _ L).
    destruct (chr_eqb c 45%N); [apply (py_int_digits_snoc true r)|].
    destruct (chr_eqb c 43%N); [apply (py_int_digits_snoc false r)|].
    apply (py_int_digits_snoc false (c :: r)).
Qed.

(** The items of a definition line are read from left to right, each one
    starting from the columns and rows the items before it have set. *)
Lemma parse_items_app comment lines items more cols rows :
  parse_items comment lines (items ++ more) cols rows
  = obind (parse_items comment lines items cols rows)
      (fun '(cols', rows') => parse_items comment lines more cols' rows').
Proof.
  revert cols rows. induction items as [|item items IH]; intros cols rows.
  - reflexivity.
  - cbn [app parse_items].
    destruct (py_split c_equals item) as [|key [|val [|x l]]]; try reflexivity.
    destruct (str_eqb key (str "c")).
    + destruct (py_int val); cbn [obind]; [apply IH|reflexivity|reflexivity].
    + destruct (str_eqb key (str "r")); [|reflexivity].
      destruct (py_int val); cbn [obind]; [apply IH|reflexivity|reflexivity].
Qed.

(** X16: a key given twice keeps its last value.  Whatever the items of a
    definition line have set, a last item [c=val] sets the columns to the
    integer of [val] and leaves the rows as they are, and a last item
    [r=val] sets the rows and leaves the columns. *)
Theorem parse_items_last_value comment lines items (val : pystr) v cols rows c0 r0 :
  parse_items comment lines items cols rows = Ok (c0, r0) ->
  ~ In c_equals val -> py_int val = Ok v ->
  parse_items comment lines (items ++ [str "c=" ++ val]) cols rows
  = Ok (Some v, r0)
  /\ parse_items comment lines (items ++ [str "r=" ++ val]) cols rows
     = Ok (c0, Some v).
Proof.
  intros H Hv Hi. rewrite !parse_items_app, H. cbn [obind parse_items].
  unfold py_split.
  change (str "c=" ++ val) with (99%N :: c_equals :: val).
  change (str "r=" ++ val) with (114%N :: c_equals :: val).
  cbn [split_on]. change (chr_eqb 99%N c_equals) with false.
  change (chr_eqb 114%N c_equals) with false.
  change (chr_eqb c_equals c_equals) with true. cbv iota.
  rewrite !(split_on_no_sep _ _ _ Hv). cbn [rev app].
  change (str_eqb [99%N] (str "c")) with true.
  change (str_eqb [114%N] (str "c")) with false.
  change (str_eqb [114%N] (str "r")) with true. cbv iota.
  rewrite Hi. now split.
Qed.

(** ** The width of the wrapped lines *)

Lemma _handle_long_word_piece chunk cur_len width :
  0 < width -> 0 <= cur_len <= width ->
  len (fst (_handle_long_word chunk cur_len width)) <= width - cur_len.
Proof.
  intros Hw Hc. unfold _handle_long_word.
  destruct (width <? 1) eqn:E; [apply Z.ltb_lt in E; lia|].
  set (space_left := width - cur_len).
  set (hyphen := rfind c_hyphen chunk space_left).
  assert (Hh : hyphen < space_left).
  { unfold hyphen, rfind.
    pose proof (rfind_from_bound c_hyphen (slice_to chunk space_left) 0 (-1)) as B.
    pose proof (len_slice_to chunk space_left) as L.
    pose proof (len_nonneg (slice_to chunk space_left)).
    unfold space_left in *. lia. }
  set (end_ := if (len chunk >? space_left) && (hyphen >? 0) && _
               then hyphen + 1 else space_left).
  assert (He : 0 <= end_ <= space_left).
  { unfold end_. destruct (_ && _) eqn:C.
    - apply andb_true_iff in C. destruct C as [C _].
      apply andb_true_iff in C. destruct C as [_ C].
      rewrite Z.gtb_ltb in C. apply Z.ltb_lt in C. lia.
    - unfold space_left. lia. }
  clearbody end_. cbn [fst].
  pose proof (len_slice_to chunk end_). lia.
Qed.

Lemma len_concat_drop_trailing_blank cur_line :
  len (concat (drop_trailing_blank cur_line)) <= len (concat cur_line).
Proof.
  destruct (drop_trailing_blank_cases cur_line) as [->|(c & E & _)]; [lia|].
  rewrite E at 2. rewrite concat_app, len_app.
  pose proof (len_nonneg (concat [c])). lia.
Qed.

Lemma _wrap_chunks_pass_fit width c0 rest0 lines :
  0 < width ->
  Forall (fun l => len l <= width) lines ->
  Forall (fun l => len l <= width) (snd (_wrap_chunks_pass width c0 rest0 lines)).
Proof.
  intros Hw Hl. unfold _wrap_chunks_pass.
  set (chunks1 := if blank c0 && _ then rest0 else c0 :: rest0).
  destruct (fill_line_spec width 0 [] chunks1) as (pre & post & F & _ & _ & B).
  rewrite F. cbn [app]. clearbody chunks1.
  specialize (B ltac:(lia)).
  assert (Hfin : forall chunks' cur_line : list pystr,
    len (concat cur_line) <= width ->
    Forall (fun l => len l <= width)
      (snd (match drop_trailing_blank cur_line with
            | [] => (chunks', lines)
            | _ :: _ => (chunks', lines ++ [join (drop_trailing_blank cur_line)])
            end))).
  { intros chunks' cur_line H.
    pose proof (len_concat_drop_trailing_blank cur_line) as D.
    destruct (drop_trailing_blank cur_line) as [|x l]; [exact Hl|].
    cbn [snd]. apply Forall_app. split; [exact Hl|].
    constructor; [|constructor]. unfold join. lia. }
  destruct post as [|c r]; [now apply Hfin|].
  destruct (len c >? width); [|now apply Hfin].
  pose proof (len_nonneg (concat pre)).
  pose proof (_handle_long_word_piece c (0 + len (concat pre)) width Hw) as P.
  destruct (_handle_long_word c (0 + len (concat pre)) width) as [piece remainder].
  cbn [fst] in P. apply Hfin.
  rewrite concat_app, len_app. cbn [concat]. rewrite app_nil_r. lia.
Qed.

Lemma _wrap_chunks_loop_fit fuel width chunks lines res :
  0 < width ->
  Forall (fun l => len l <= width) lines ->
  _wrap_chunks_loop fuel width chunks lines = Ok res ->
  Forall (fun l => len l <= width) res.
Proof.
  intros Hw. revert chunks lines.
  induction fuel as [|fuel IH]; intros chunks lines Hl H.
  - destruct chunks; [|discriminate]. now injection H as <-.
  - destruct chunks as [|c0 rest0]; [now injection H as <-|].
    cbn [_wrap_chunks_loop] in H.
    pose proof (_wrap_chunks_pass_fit width c0 rest0 lines Hw Hl) as P.
    destruct (_wrap_chunks_pass width c0 rest0 lines) as [chunks' lines'].
    now apply (IH chunks' lines').
Qed.

(** X17: every line that [wrap] returns fits the width: a word that is
    longer than the width is cut, so no wrapped line of a source or of a
    translation has more than [cols] characters. *)
Theorem wrap_lines_fit width text lines :
  wrap (Some width) text = Ok lines ->
  Forall (fun l => len l <= width) lines.
Proof.
  unfold wrap, _wrap_chunks.
  destruct (width <=? 0) eqn:E; [discriminate|]. apply Z.leb_gt in E.
  apply _wrap_chunks_loop_fit; [assumption|constructor].
Qed.

(** ** The warnings of the display definition *)

(** X18: the two warnings of the display definition.  The warning that
    there is no display definition is printed if and only if warnings are
    enabled and the definition line gives neither [c] nor [r]; the warning
    about several rows with an odd number of columns if and only if the
    line gives [r] a value above 1 and does not give [c] the value 20,
    whether warnings are enabled or not. *)
Theorem display_definition_warnings no_warning tty lines comment translation :
  (In WNoDisplay
      (out_tags (display_definition no_warning tty lines comment translation))
   <-> no_warning = false
       /\ parse_items comment lines (tl comment) None None = Ok (None, None))
  /\ (In WOddColumns
         (out_tags (display_definition no_warning tty lines comment translation))
      <-> exists cols rows,
            parse_items comment lines (tl comment) None None
            = Ok (cols, Some rows)
            /\ 1 < rows /\ cols <> Some 20).
Proof.
  unfold display_definition.
  destruct (parse_items comment lines (tl comment) None None)
    as [[cols rows]|e|] eqn:P.
  2,3: split; (split; [intros []|]);
       [intros [_ X]; discriminate|intros (c & r & X & _); discriminate].
  rewrite bind_lift_ok.
  destruct cols as [c|], rows as [r|].
  - rewrite bind_ret. cbn [cols_is_not_20].
    destruct (r >? 1) eqn:R; destruct (c =? 20) eqn:C; cbn [negb andb when];
      autorewrite with out_db; cbn [app snd];
      rewrite Z.gtb_ltb in R;
      [apply Z.ltb_lt in R|apply Z.ltb_lt in R
      |apply Z.ltb_ge in R|apply Z.ltb_ge in R];
      [apply Z.eqb_eq in C|apply Z.eqb_neq in C
      |apply Z.eqb_eq in C|apply Z.eqb_neq in C];
      (split; [split; [simpl; intuition discriminate|intros [_ X]; discriminate]|]).
    + split; [intros []|]. intros (c' & r' & X & _ & N).
      injection X as <- <-. congruence.
    + split; [|intros _; now left]. intros _. exists (Some c), r.
      repeat split; [assumption|congruence].
    + split; [intros []|]. intros (c' & r' & X & L & _).
      injection X as <- <-. lia.
    + split; [intros []|]. intros (c' & r' & X & L & _).
      injection X as <- <-. lia.
  - rewrite !bind_ret. split; (split; [intros []|]).
    + intros [_ X]; discriminate.
    + intros (c' & r' & X & _); discriminate.
  - rewrite bind_ret. cbn [cols_is_not_20]. rewrite andb_true_r.
    destruct (r >? 1) eqn:R; cbn [when]; autorewrite with out_db; cbn [app snd];
      rewrite Z.gtb_ltb in R;
      [apply Z.ltb_lt in R|apply Z.ltb_ge in R];
      (split; [split; [simpl; intuition discriminate|intros [_ X]; discriminate]|]).
    + split; [|intros _; now left]. intros _. exists None, r.
      repeat split; [assumption|discriminate].
    + split; [intros []|]. intros (c' & r' & X & L & _).
      injection X as <- <-. lia.
  - split.
    + destruct no_warning, translation as [t|]; cbn [negb when];
        rewrite ?bind_ret; autorewrite with out_db; cbn [app snd];
        simpl; intuition discriminate.
    + split.
      * destruct no_warning, translation as [t|]; cbn [negb when];
          rewrite ?bind_ret; autorewrite with out_db; cbn [app snd];
          simpl; intuition discriminate.
      * intros (c' & r' & X & _); discriminate.
Qed.

(** ** A run with warnings disabled *)

Lemma Forall_out_tags_bind {A B : Type} (P : tag -> Prop) (m : M A) (f : A -> M B) :
  Forall P (out_tags m) -> (forall a, Forall P (out_tags (f a))) ->
  Forall P (out_tags (bind m f)).
Proof.
  intros Hm Hf. rewrite out_tags_bind. apply Forall_app. split; [exact Hm|].
  destruct (snd m); [apply Hf|constructor|constructor].
Qed.

Lemma display_definition_no_warning_tags tty lines comment translation :
  Forall (fun t => tag_severity t = Error \/ t = WOddColumns)
    (out_tags (display_definition true tty lines comment translation)).
Proof.
  unfold display_definition.
  destruct (parse_items comment lines (tl comment) None None)
    as [[cols rows]|e|]; [|constructor|constructor].
  rewrite bind_lift_ok.
  destruct cols as [c|], rows as [r|], translation as [t|];
    cbv beta iota; cbn [negb when]; rewrite ?bind_ret;
    try (destruct (_ && _); cbn [when]);
    autorewrite with out_db; cbn [app snd];
    repeat (apply Forall_cons || apply Forall_nil); now right.
Qed.

Lemma checks_no_warning_tags tty lines cols rows source translation ws wt :
  Forall (fun t => tag_severity t = Error \/ t = WOddColumns)
    (out_tags (checks true tty lines cols rows source translation ws wt)).
Proof.
  apply Forall_forall. intros t H. apply in_checks_tags_inv in H.
  rewrite in_source_overflow_tags, in_overflow_tags, in_placeholder_tags,
    in_short_tags in H.
  destruct H as [H|[H|[H|[H|H]]]].
  - destruct H; discriminate.
  - destruct H as [_ ->]. now left.
  - destruct H as [_ ->]. now left.
  - destruct H.
  - destruct H; discriminate.
Qed.

Lemma frame_no_warning_tags tty st :
  Forall (fun t => tag_severity t = Error \/ t = WOddColumns)
    (out_tags (frame true tty st)).
Proof.
  unfold frame.
  destruct (readline (fs_src st)) as [line1 src1].
  apply Forall_out_tags_bind; [apply display_definition_no_warning_tags|].
  intros [cols rows].
  destruct (readline src1) as [line2 src2].
  destruct (readline src2) as [line3 src3].
  do 5 (apply Forall_out_tags_bind; [constructor|]; intros ?).
  apply Forall_out_tags_bind; [apply checks_no_warning_tags|]. intros _.
  destruct (readline src3) as [line4 src4].
  destruct (negb _); constructor.
Qed.

Lemma parse_loop_no_warning_tags fuel tty st :
  Forall (fun t => tag_severity t = Error \/ t = WOddColumns)
    (out_tags (parse_loop fuel true tty st)).
Proof.
  revert st. induction fuel as [|fuel IH]; intros st; [constructor|].
  cbn [parse_loop].
  apply Forall_out_tags_bind; [apply frame_no_warning_tags|].
  intros [st'|]; [apply IH|constructor].
Qed.

Lemma tag_of_banner tty (word lang : pystr) (c : char) :
  c <> 91%N -> c <> 27%N ->
  tag_of (green tty (c :: word ++ lang ++ str " lang-check")) = None.
Proof.
  intros N E. unfold tag_of.
  assert (U : exists tail,
             uncolor (green tty (c :: word ++ lang ++ str " lang-check"))
             = c :: tail).
  { destruct tty; [eexists; reflexivity|].
    unfold green, color_maybe, uncolor.
    destruct (word ++ lang ++ str " lang-check")
      as [|? [|? [|? [|? [|? [|? ?]]]]]]; try (eexists; reflexivity).
    change ([c_esc] ++ str "[0;") with [27; 91; 48; 59]%N.
    cbn [starts_with]. unfold chr_eqb.
    replace (N.eqb c 27) with false by (symmetry; now apply N.eqb_neq).
    cbn [andb]. eexists; reflexivity. }
  destruct U as (tail & ->).
  assert (S : forall s : string,
             starts_with (str (String "[" s)) (c :: tail) = false).
  { intros s. change (str (String "[" s)) with (91%N :: str s).
    cbn [starts_with]. unfold chr_eqb.
    replace (N.eqb 91 c) with false
      by (symmetry; apply N.eqb_neq; congruence).
    reflexivity. }
  now rewrite !S.
Qed.

(** X2: with [--no-warning] a run prints no warning but the one about
    several rows with an odd number of columns: every other diagnostic in
    the output of [main] is an error. *)
Theorem no_warning_run fs tty lang :
  Forall (fun t => tag_severity t = Error \/ t = WOddColumns)
    (tags (run_stdout (main fs tty lang true))).
Proof.
  assert (R : run_stdout (main fs tty lang true)
              = fst (parse_txt fs tty lang true)).
  { unfold main. now destruct (parse_txt fs tty lang true) as [out [a|e|]]. }
  rewrite R. change (tags (fst (parse_txt fs tty lang true)))
    with (out_tags (parse_txt fs tty lang true)).
  unfold parse_txt.
  apply Forall_out_tags_bind.
  { rewrite out_tags_print.
    change (str "Start " ++ lang ++ str " lang-check")
      with (83%N :: str "tart " ++ lang ++ str " lang-check").
    rewrite tag_of_banner by discriminate. destruct (encodable _); constructor. }
  intros _. destruct (fs _) as [text|]; [|constructor].
  apply Forall_out_tags_bind; [apply parse_loop_no_warning_tags|].
  intros _. rewrite out_tags_print.
  change (str "End " ++ lang ++ str " lang-check")
    with (69%N :: str "nd " ++ lang ++ str " lang-check").
  rewrite tag_of_banner by discriminate. destruct (encodable _); constructor.
Qed.

(** ** The line of [print_truncated] *)



(** ** The separator line *)

Lemma readline_line (l r : pystr) :
  ~ In c_lf l -> readline (l ++ c_lf :: r) = (l ++ [c_lf], r).
Proof.
  induction l as [|c l IH]; intros H.
  - reflexivity.
  - cbn [app readline]. destruct (chr_eqb c c_lf) eqn:E.
    + exfalso. apply H. left. unfold chr_eqb in E. now apply N.eqb_eq in E.
    + rewrite IH by (intros X; apply H; now right). reflexivity.
Qed.

Lemma frame_ok_some_inv no_warning tty st out st' :
  frame no_warning tty st = (out, Ok (Some st')) ->
  len (fst (readline (snd (readline (snd (readline (snd (readline (fs_src st))))))))) = 1.
Proof.
  unfold frame.
  destruct (readline (fs_src st)) as [line1 src1]. cbn [snd].
  destruct (readline src1) as [line2 src2]. cbn [snd].
  destruct (readline src2) as [line3 src3]. cbn [snd].
  destruct (readline src3) as [line4 src4]. cbn [fst].
  intros H.
  apply bind_ok_inv in H. destruct H as (? & [cols rows] & ? & _ & H).
  do 6 (apply bind_ok_inv in H; destruct H as (? & ? & ? & _ & H)).
  destruct (negb (len line4 =? 1)) eqn:E; [discriminate|].
  now apply negb_false_iff, Z.eqb_eq in E.
Qed.

(** X21: a separator line that is not empty ends the loop: the pass
    whose three lines are followed by a line [sep] with at least one
    character before its line feed behaves as if the file ended there.  What
    follows the separator is not read, and no diagnostic says so. *)
Theorem frame_stops_at_separator no_warning tty lines previous l1 l2 l3 sep rest :
  ~ In c_lf l1 -> ~ In c_lf l2 -> ~ In c_lf l3 -> ~ In c_lf sep -> sep <> [] ->
  frame no_warning tty
    {| fs_src := l1 ++ c_lf :: l2 ++ c_lf :: l3 ++ c_lf :: sep ++ c_lf :: rest;
       fs_lines := lines; fs_translation := previous |}
  = frame no_warning tty
      {| fs_src := l1 ++ c_lf :: l2 ++ c_lf :: l3 ++ c_lf :: sep ++ [c_lf];
         fs_lines := lines; fs_translation := previous |}
  /\ forall st',
       snd (frame no_warning tty
              {| fs_src := l1 ++ c_lf :: l2 ++ c_lf :: l3 ++ c_lf :: sep ++ c_lf :: rest;
                 fs_lines := lines; fs_translation := previous |})
       <> Ok (Some st').
Proof.
  intros H1 H2 H3 H4 Hs.
  assert (L : (len (sep ++ [c_lf]) =? 1) = false).
  { apply Z.eqb_neq. rewrite len_app. destruct sep as [|x sep']; [congruence|].
    rewrite len_cons. pose proof (len_nonneg sep').
    change (len [c_lf]) with 1. lia. }
  split.
  - unfold frame. cbn [fs_src fs_lines fs_translation].
    rewrite !(readline_line l1) by assumption. cbv beta iota zeta.
    rewrite !(readline_line l2) by assumption. cbv beta iota zeta.
    rewrite !(readline_line l3) by assumption. cbv beta iota zeta.
    rewrite !(readline_line sep) by assumption. cbv beta iota zeta.
    rewrite L. reflexivity.
  - intros st' H.
    destruct (frame _ _ _) as [out o] eqn:F. cbn [snd] in H. subst o.
    apply frame_ok_some_inv in F. cbn [fs_src] in F.
    rewrite (readline_line l1) in F by assumption. cbn [snd] in F.
    rewrite (readline_line l2) in F by assumption. cbn [snd] in F.
    rewrite (readline_line l3) in F by assumption. cbn [snd] in F.
    rewrite (readline_line sep) in F by assumption. cbn [fst] in F.
    apply Z.eqb_eq in F. rewrite L in F. discriminate.
Qed.

(** ** A frame that is checked to its end *)




(** ** The rows of [print_wrapped] *)




(** ** The order of the diagnostics of a frame *)

Lemma strongly_sorted_frame_tags (d l : list tag) :
  In d [ []; [WNoDisplay]; [WOddColumns] ] ->
  In l [ []; [WSourceCols]; [WSourceRows] ] ->
  forall o p punct short,
  In o [ []; [EOverflow] ] -> In p [ []; [EPlaceholder] ] ->
  In punct [ []; [WPunctFirst]; [WPunctLast]; [WPunctFirst; WPunctLast] ] ->
  In short [ []; [WShort] ] ->
  StronglySorted tag_before (d ++ l ++ o ++ p ++ punct ++ short).
Proof.
  intros Hd Hl o p punct short Ho Hp Hpunct Hshort.
  simpl in Hd, Hl, Ho, Hp, Hpunct, Hshort.
  repeat match goal with
         | H : _ \/ _ |- _ => destruct H as [<-|H]
         | H : False |- _ => destruct H
         end;
  cbn [app]; repeat constructor.
Qed.

Lemma display_definition_tags_cases no_warning tty lines comment translation :
  In (out_tags (display_definition no_warning tty lines comment translation))
     [ []; [WNoDisplay]; [WOddColumns] ].
Proof.
  unfold display_definition.
  destruct (parse_items comment lines (tl comment) None None)
    as [[cols rows]|e|]; [|now left|now left].
  rewrite bind_lift_ok.
  destruct cols as [c|], rows as [r|], translation as [t|], no_warning;
    cbv beta iota; cbn [negb when]; rewrite ?bind_ret;
    try (destruct (_ && _); cbn [when]);
    autorewrite with out_db; cbn [app snd]; simpl; tauto.
Qed.

Lemma out_tags_bind_lift {A B : Type} (o : outcome A) (f : A -> M B) :
  out_tags (bind (lift o) f)
  = match o with Ok a => out_tags (f a) | _ => [] end.
Proof. now rewrite out_tags_bind, out_tags_lift, snd_lift. Qed.

(** X24: the diagnostics of a frame are printed in one fixed order: the
    warnings of the display definition (no display definition, odd number
    of columns) come before every diagnostic of the record, and those follow
    in the order source overflow, overflow, placeholder count, first and
    last character, short translation. *)
Theorem frame_in_order no_warning tty st :
  StronglySorted tag_before (out_tags (frame no_warning tty st)).
Proof.
  unfold frame. destruct (readline (fs_src st)) as [line1 src1].
  rewrite out_tags_bind.
  pose proof (display_definition_tags_cases no_warning tty (fs_lines st)
                (py_split c_space line1) (fs_translation st)) as D.
  set (d := out_tags (display_definition no_warning tty (fs_lines st)
                        (py_split c_space line1) (fs_translation st))) in *.
  clearbody d.
  assert (S0 : StronglySorted tag_before (d ++ [])).
  { simpl in D. destruct D as [<-|[<-|[<-|[]]]]; repeat constructor. }
  destruct (snd (display_definition _ _ _ _ _)) as [[cols rows]| |];
    [|exact S0|exact S0].
  destruct (readline src1) as [line2 src2].
  destruct (readline src2) as [line3 src3].
  rewrite out_tags_bind_lift.
  destruct (unescape _) as [source| |]; [|exact S0|exact S0].
  rewrite out_tags_bind_lift.
  destruct (unescape _) as [translation| |]; [|exact S0|exact S0].
  rewrite out_tags_bind_lift.
  destruct (wrap cols source) as [ws| |]; [|exact S0|exact S0].
  rewrite out_tags_bind_lift.
  destruct (wrap cols translation) as [wt| |]; [|exact S0|exact S0].
  rewrite out_tags_bind_lift.
  destruct cols as [c|]; [|exact S0].
  rewrite out_tags_bind.
  match goal with
  | |- StronglySorted _ (d ++ _ ++ ?tail) =>
      assert (T : tail = []);
      [destruct (snd (checks _ _ _ _ _ _ _ _ _)); try reflexivity;
       destruct (readline src3) as [line4 src4]; now destruct (negb _)
      |rewrite T, app_nil_r]
  end.
  destruct (checks_tags_sets no_warning tty (fs_lines st) c rows source
              translation ws wt)
    as (l & o & p & punct & short & -> & Hl & Ho & Hp & Hq & Hs).
  now apply strongly_sorted_frame_tags.
Qed.

(** ** An intentionally empty translation *)

(** Every diagnostic of a frame is one of its display definition or one of
    the checks of its record. *)
Lemma frame_tags_inv no_warning tty st (t : tag) :
  In t (out_tags (frame no_warning tty st)) ->
  In t (out_tags (display_definition no_warning tty (fs_lines st)
                    (py_split c_space (fst (readline (fs_src st))))
                    (fs_translation st)))
  \/ exists c rows source translation ws wt,
       snd (display_definition no_warning tty (fs_lines st)
              (py_split c_space (fst (readline (fs_src st))))
              (fs_translation st))
       = Ok (Some c, rows)
       /\ unescape (frame_source st) = Ok source
       /\ unescape (frame_translation st) = Ok translation
       /\ wrap (Some c) source = Ok ws /\ wrap (Some c) translation = Ok wt
       /\ In t (out_tags (checks no_warning tty (fs_lines st) c rows source
                            translation ws wt)).
Proof.
  unfold frame, frame_source, frame_translation, frame_translation_text.
  destruct (readline (fs_src st)) as [line1 src1]. cbn [fst].
  destruct (readline src1) as [line2 src2].
  destruct (readline src2) as [line3 src3].
  rewrite out_tags_bind, in_app_iff. intros [H|H]; [now left|right].
  destruct (snd (display_definition _ _ _ _ _)) as [[cols rows]| |];
    [|destruct H|destruct H].
  rewrite out_tags_bind_lift in H.
  destruct (unescape _) as [source| |] eqn:Us in H; [|destruct H|destruct H].
  rewrite out_tags_bind_lift in H.
  destruct (unescape _) as [translation| |] eqn:Ut in H; [|destruct H|destruct H].
  rewrite out_tags_bind_lift in H.
  destruct (wrap cols source) as [ws| |] eqn:Ws; [|destruct H|destruct H].
  rewrite out_tags_bind_lift in H.
  destruct (wrap cols translation) as [wt| |] eqn:Wt; [|destruct H|destruct H].
  rewrite out_tags_bind_lift in H.
  destruct cols as [c|]; [|destruct H].
  rewrite out_tags_bind, in_app_iff in H.
  exists c, rows, source, translation, ws, wt.
  split; [reflexivity|]. split; [exact Us|]. split; [exact Ut|].
  split; [exact Ws|]. split; [exact Wt|].
  destruct H as [H|H]; [exact H|exfalso].
  destruct (snd (checks _ _ _ _ _ _ _ _ _)); try (now destruct H).
  destruct (readline src3) as [line4 src4]. now destruct (negb _).
Qed.

Lemma wrap_empty (cols : Z) : 0 < cols -> wrap (Some cols) [] = Ok [].
Proof.
  intros H. unfold wrap, _wrap_chunks.
  destruct (cols <=? 0) eqn:E; [apply Z.leb_le in E; lia|reflexivity].
Qed.

(** X7: an intentionally empty translation gets no diagnostic of its
    own.  In a frame whose translation line holds the sentinel [\x00] and
    whose definition line gives no negative number of rows, the translation
    is replaced by the empty text, and the only diagnostics the frame can
    print are the warnings of the display definition and those about the
    source; the translation left to the next frame is the empty text. *)
Theorem empty_translation_is_quiet no_warning tty st cols rows :
  frame_translation_text st = str "\x00" ->
  parse_items (py_split c_space (fst (readline (fs_src st)))) (fs_lines st)
    (tl (py_split c_space (fst (readline (fs_src st))))) None None
  = Ok (cols, rows) ->
  (forall r, rows = Some r -> 0 <= r) ->
  frame_translation st = []
  /\ Forall (fun t => In t [WNoDisplay; WOddColumns; WSourceCols; WSourceRows])
       (out_tags (frame no_warning tty st))
  /\ (forall out st',
        frame no_warning tty st = (out, Ok (Some st')) ->
        fs_translation st' = Some []).
Proof.
  intros T P R.
  assert (E : frame_translation st = [])
    by (unfold frame_translation; now rewrite T).
  split; [exact E|]. split.
  - apply Forall_forall. intros t H. apply frame_tags_inv in H.
    destruct H as [H|(c & rows' & source & translation & ws & wt
                      & D & _ & Ut & _ & Wt & H)].
    + pose proof (display_definition_tags_cases no_warning tty (fs_lines st)
                    (py_split c_space (fst (readline (fs_src st))))
                    (fs_translation st)) as C.
      simpl in C. destruct C as [C|[C|[C|[]]]]; rewrite <- C in H;
        simpl in H; simpl; intuition.
    + rewrite E in Ut. injection Ut as <-.
      pose proof (wrap_ok_positive _ _ _ Wt) as (c' & X & Hc).
      injection X as <-. rewrite (wrap_empty c Hc) in Wt. injection Wt as <-.
      apply display_definition_ok_inv in D.
      destruct D as (cols0 & rows0 & P' & _ & Hr).
      rewrite P in P'. injection P' as <- <-.
      assert (Hrows : 0 <= rows').
      { subst rows'. destruct rows as [r|]; [now apply R|lia]. }
      apply in_checks_tags_inv in H.
      rewrite in_source_overflow_tags, in_overflow_tags, in_placeholder_tags,
        in_short_tags in H.
      change (len (@nil char)) with 0 in H. change (len (@nil pystr)) with 0 in H.
      destruct H as [H|[H|[H|[H|H]]]].
      * destruct H as [_ H]. destruct (_ && _); simpl; intuition.
      * destruct H as [H _]. exfalso.
        apply orb_true_iff in H. rewrite andb_true_iff, !Z.gtb_ltb, !Z.ltb_lt in H.
        lia.
      * destruct H as [H _]. rewrite andb_false_r in H. discriminate.
      * exfalso. revert H. unfold check_punctuation.
        change (len (@nil char)) with 0. rewrite andb_false_r. intros [].
      * destruct H as [H _]. rewrite andb_false_r in H. discriminate.
  - intros out st' H. apply frame_ok_inv in H.
    destruct H as (c & rows' & source & translation & ws & wt
                   & _ & _ & Ut & _ & _ & _ & N).
    rewrite E in Ut. injection Ut as <-. now apply (N st' eq_refl).
Qed.

End LangCheck.

(** * The script on concrete files

    The runs below use the Latin-1 database; their inputs are ASCII. *)

#[local] Existing Instance latin1_data.
#[local] Existing Instance utf8_stdout.

(** C1: the code does not do what the claim says.  A first frame without
    [c] and [r] prints the warning and then reads the local [translation]
    before any translation line was read: the run ends in
    [UnboundLocalError].  In a later frame the columns become the length of
    the previous record's decoded translation (5 for "Hallo"), not of the
    record's own one ("Guten Morgen", 12 characters). *)
Theorem no_definition_uses_previous_translation :
  main (only_lang_en file_no_definition) false (str "en") false
  = {| run_stdout := [str "Start en lang-check";
                      str "[W]: No display definition on line 1"];
       run_stderr := [Traceback UnboundLocalError; UsageError UnboundLocalError];
       run_status := Exit 2 |}
  /\ run_stdout (main (only_lang_en file_no_definition_later) false (str "en") false)
     = [str "Start en lang-check";
        str "[W]: No display definition on line 5";
        str "[W]: Source text longer than 5 cols as defined on line 5:";
        str "   |Good |morning";
        [];
        str "[E]: Text is longer than definition on line 5: cols=5 rows=1 (rows diff=2)";
        str " source text:";
        str "   |Good |morning";
        str " translated text:";
        str "   |Guten| Morgen";
        [];
        str "End en lang-check"].
Proof. split; vm_compute; reflexivity. Qed.

(** C2: the code does not do what the claim says.  With [--no-warning] a
    record with [r=2] and [c=18], which has no other issue, still prints the
    warning about the odd number of columns. *)
Theorem no_warning_prints_odd_columns :
  main (only_lang_en file_odd_columns) false (str "en") true
  = {| run_stdout := [str "Start en lang-check";
                      str "[W]: Multiple rows with odd number of columns on line 1";
                      str "End en lang-check"];
       run_stderr := [];
       run_status := Exit 0 |}
  /\ tags (run_stdout (main (only_lang_en file_odd_columns) false (str "en") true))
     = [WOddColumns]
  /\ tag_severity WOddColumns = Warning.
Proof. repeat split; vm_compute; reflexivity. Qed.

(** C3: the code does not do what the claim says.  An unknown key [x=1] in
    the second frame ends the run with a trace and a usage error, but with
    exit status 2, not 1; so does a file that does not exist. *)
Theorem fatal_failure_exits_with_2 :
  main (only_lang_en file_unknown_key) false (str "en") false
  = {| run_stdout := [str "Start en lang-check"];
       run_stderr :=
         [Traceback (RuntimeError
            (str "Unknown display definition MSG_BAD x=1" ++ [c_lf]
             ++ str " on line 5"));
          UsageError (RuntimeError
            (str "Unknown display definition MSG_BAD x=1" ++ [c_lf]
             ++ str " on line 5"))];
       run_status := Exit 2 |}
  /\ main (fun _ => None) false (str "en") false
     = {| run_stdout := [str "Start en lang-check"];
          run_stderr := [Traceback FileNotFoundError; UsageError FileNotFoundError];
          run_status := Exit 2 |}.
Proof. split; vm_compute; reflexivity. Qed.

(** C8: the code does not do what the claim says.  A frame with [r=2] and
    no [c] leaves the columns at [None]; the wrapper raises [TypeError] and
    the run ends without a record having been checked. *)
Theorem rows_without_columns_fails :
  main (only_lang_en file_rows_only) false (str "en") false
  = {| run_stdout := [str "Start en lang-check";
                      str "[W]: Multiple rows with odd number of columns on line 1"];
       run_stderr := [Traceback TypeError; UsageError TypeError];
       run_status := Exit 2 |}.
Proof. vm_compute; reflexivity. Qed.

(** C4, as stated, fails: a word longer than the width is split, and the
    fragments joined with blanks are not the normalized text; a word is also
    broken after a hyphen.  And where no word is split the join of the
    fragments need not be the normalized text either: a fragment keeps the
    blanks between its words. *)
Lemma wrap_splits_long_word :
  wrap (Some 5) (str "abcdefgh") = Ok [str "abcde"; str "fgh"]
  /\ normalize (join_with [c_space] [str "abcde"; str "fgh"]) = str "abcde fgh"
  /\ normalize (str "abcdefgh") = str "abcdefgh"
  /\ wrap (Some 12) (str "a very well-known")
     = Ok [str "a very well-"; str "known"]
  /\ wrap (Some 10) (str "a  b") = Ok [str "a  b"]
  /\ join_with [c_space] [str "a  b"] = str "a  b"
  /\ normalize (str "a  b") = str "a b".
Proof. repeat split; vm_compute; reflexivity. Qed.

(** C5, as stated, fails: when both fire, the source-overflow warning is
    printed before the overflow error. *)
Lemma source_warning_precedes_overflow_error :
  tags (run_stdout (main (only_lang_en file_both_overflow) false (str "en") false))
  = [WSourceCols; EOverflow].
Proof. vm_compute; reflexivity. Qed.

(** C6, as stated, fails: with [rows = 1] and [columns = 3] the decoded
    translation [a<TAB>b] has 3 characters, yet the Overflow Error is
    emitted, because the wrapper expands the tab and the text wraps into two
    lines. *)
Lemma overflow_error_on_short_translation_with_tab :
  unescape (str "a\tb") = Ok [97; 9; 98]%N
  /\ len [97; 9; 98]%N = 3
  /\ wrap (Some 3) [97; 9; 98]%N = Ok [str "a"; str "b"]
  /\ tags (run_stdout (main (only_lang_en file_tab) false (str "en") false))
     = [EOverflow].
Proof. repeat split; vm_compute; reflexivity. Qed.


(** C9, as stated, fails: the raw string backslash, [n], e-acute has a
    well-formed escape sequence, and [unescape] raises. *)
Lemma unescape_fails_outside_ascii :
  unescape [c_backslash; 110; 233]%N = Raise UnicodeEncodeError.
Proof. vm_compute; reflexivity. Qed.

(** ** Witnesses *)

(** Proves [shown] of a concrete text. *)
Ltac shown_here :=
  unfold shown; split; [vm_compute; reflexivity|];
  split; [vm_compute; discriminate|reflexivity].

Lemma wrap_keeps_words_witness :
  wrap (Some 5) (str "Hello big world")
  = Ok [str "Hello"; str "big"; str "world"]
  /\ exists lines,
       wrap (Some 5) (str "Hello big world") = Ok lines
       /\ flat_map py_words lines = py_words (str "Hello big world")
       /\ normalize (join_with [c_space] lines)
          = normalize (str "Hello big world").
Proof.
  split; [vm_compute; reflexivity|].
  apply (wrap_keeps_words 5 (str "Hello big world")).
  - lia.
  - vm_compute. intuition discriminate.
  - vm_compute. repeat constructor; discriminate.
Defined.

Lemma overflow_error_iff_witness :
  In EOverflow
     (out_tags (checks false false 1 10 1 (str "Hello") (str "Hello world")
                  [str "Hello"] [str "Hello"; str "world"]))
  /\ ~ In EOverflow
         (out_tags (checks false false 1 10 1 (str "Hello") (str "Hello, you")
                      [str "Hello"] [str "Hello, you"]))
  /\ In EOverflow
        (out_tags (checks false false 1 5 2 (str "Hello") (str "Hello big world")
                     [str "Hello"] [str "Hello"; str "big"; str "world"])).
Proof.
  assert (S10 : false = true \/ shown 10 (str "Hello") [str "Hello"])
    by (right; shown_here).
  assert (S5 : false = true \/ shown 5 (str "Hello") [str "Hello"])
    by (right; shown_here).
  split; [|split].
  - apply (proj1 (overflow_error_iff false false 1 10 1 (str "Hello")
                    (str "Hello world") [str "Hello"] [str "Hello"; str "world"]
                    S10 eq_refl) eq_refl).
    + vm_compute. intuition discriminate.
    + reflexivity.
  - intros H.
    apply (proj1 (overflow_error_iff false false 1 10 1 (str "Hello")
                    (str "Hello, you") [str "Hello"] [str "Hello, you"]
                    S10 eq_refl) eq_refl) in H.
    + vm_compute in H. discriminate.
    + vm_compute. intuition discriminate.
  - apply (proj2 (proj2 (overflow_error_iff false false 1 5 2 (str "Hello")
                           (str "Hello big world") [str "Hello"]
                           [str "Hello"; str "big"; str "world"] S5 eq_refl))).
    + reflexivity.
    + reflexivity.
Defined.


Lemma unescape_spec_witness :
  unescape (str "plain") = Ok (str "plain")
  /\ unescape (str "a\nb\x41") = Ok [97; 10; 98; 65]%N
  /\ unescape [c_backslash; 110; 233]%N = Raise UnicodeEncodeError.
Proof.
  split; [|split].
  - apply (proj1 (unescape_spec (str "plain"))).
    vm_compute. intuition discriminate.
  - apply (proj1 (proj2 (unescape_spec (str "a\nb\x41")))); [reflexivity|].
    change (str "a\nb\x41")
      with (97%N :: c_backslash :: 110%N :: 98%N
            :: c_backslash :: 120%N :: [52; 49]%N ++ []).
    apply Esc_plain; [discriminate|].
    apply Esc_simple; [vm_compute; tauto|].
    apply Esc_plain; [discriminate|].
    apply (Esc_hex 2 120%N [52; 49]%N [] []).
    + now left.
    + reflexivity.
    + repeat constructor.
      * exists 4%N. split; reflexivity.
      * exists 1%N. split; reflexivity.
    + vm_compute. discriminate.
    + apply Esc_end.
  - apply (proj2 (proj2 (unescape_spec [c_backslash; 110; 233]%N))).
    + now left.
    + reflexivity.
Defined.

Lemma punctuation_check_raises_witness :
  (check_punctuation false false 1 20 1 (str " ") (str "x") [] [str "x"]
   = ([], Raise IndexError)
   /\ snd (checks false false 1 20 1 (str " ") (str "x") [] [str "x"])
      = Raise IndexError)
  /\ main (only_lang_en file_blank_source) false (str "en") false
     = {| run_stdout := [str "Start en lang-check"];
          run_stderr := [Traceback IndexError; UsageError IndexError];
          run_status := Exit 2 |}.
Proof.
  split.
  - destruct (punctuation_check_raises false 1 20 1 (str " ") (str "x") []
                [str "x"]) as (P & _ & C).
    + reflexivity.
    + reflexivity.
    + left. reflexivity.
    + split; [exact P|]. apply C; shown_here.
  - vm_compute. reflexivity.
Defined.




Lemma empty_translation_is_quiet_witness :
  frame_translation
    {| fs_src := file_empty_translation; fs_lines := 1; fs_translation := None |}
  = []
  /\ Forall (fun t => In t [WNoDisplay; WOddColumns; WSourceCols; WSourceRows])
       (out_tags (frame false false
                    {| fs_src := file_empty_translation; fs_lines := 1;
                       fs_translation := None |})).
Proof.
  destruct (empty_translation_is_quiet false false
              {| fs_src := file_empty_translation; fs_lines := 1;
                 fs_translation := None |} (Some 20) (Some 1))
    as (A & B & _).
  - reflexivity.
  - reflexivity.
  - intros r H. injection H as <-. lia.
  - now split.
Defined.

Lemma frame_continues_witness :
  fs_lines {| fs_src := frame_text (str "MSG_MORNING") (str "Good morning")
                          (str "Guten Morgen");
              fs_lines := 5; fs_translation := Some (str "Hallo") |}
  = fs_lines {| fs_src := file_no_definition_later; fs_lines := 1;
                fs_translation := None |} + 4
  /\ (exists t,
        fs_translation
          {| fs_src := frame_text (str "MSG_MORNING") (str "Good morning")
                         (str "Guten Morgen");
             fs_lines := 5; fs_translation := Some (str "Hallo") |}
        = Some t)
  /\ (length (fs_src {| fs_src := frame_text (str "MSG_MORNING")
                                    (str "Good morning") (str "Guten Morgen");
                        fs_lines := 5; fs_translation := Some (str "Hallo") |})
      + 4
      <= length (fs_src {| fs_src := file_no_definition_later; fs_lines := 1;
                           fs_translation := None |}))%nat.
Proof.
  apply (frame_continues false false
           {| fs_src := file_no_definition_later; fs_lines := 1;
              fs_translation := None |} []).
  vm_compute. reflexivity.
Defined.

Lemma frame_ok_columns_witness :
  exists cols rows,
    (let comment := py_split c_space (fst (readline (fs_src
                      {| fs_src := file_ok; fs_lines := 1;
                         fs_translation := None |}))) in
     parse_items comment
       (fs_lines {| fs_src := file_ok; fs_lines := 1; fs_translation := None |})
       (tl comment) None None = Ok (cols, rows))
    /\ match cols, rows with
       | Some c, _ => 0 < c
       | None, None =>
           exists previous,
             fs_translation {| fs_src := file_ok; fs_lines := 1;
                               fs_translation := None |} = Some previous
             /\ 0 < len previous
       | None, Some _ => False
       end.
Proof.
  apply (frame_ok_columns false false
           {| fs_src := file_ok; fs_lines := 1; fs_translation := None |}
           [] None).
  vm_compute. reflexivity.
Defined.

Lemma first_frame_without_definition_witness :
  main (only_lang_en file_no_definition) false (str "en") false
  = {| run_stdout :=
         green false (str "Start " ++ str "en" ++ str " lang-check")
         :: (if false then [] else [yellow false (msg_no_display 1)]);
       run_stderr := [Traceback UnboundLocalError; UsageError UnboundLocalError];
       run_status := Exit 2 |}.
Proof.
  apply (first_frame_without_definition (only_lang_en file_no_definition)
           false (str "en") false file_no_definition).
  - reflexivity.
  - vm_compute. intuition discriminate.
Defined.

Lemma unescape_not_longer_witness :
  len [97; 10; 98]%N <= len (str "a\nb").
Proof.
  apply (unescape_not_longer (str "a\nb") [97; 10; 98]%N). reflexivity.
Defined.

Lemma unescape_trailing_backslash_witness :
  unescape (str "abc" ++ [c_backslash]) = Raise UnicodeDecodeError.
Proof.
  apply (unescape_trailing_backslash (str "abc")).
  - reflexivity.
  - vm_compute. intuition discriminate.
Defined.

Lemma parse_items_malformed_item_witness :
  parse_items [str "MSG_OK"; str "c"] 1 [str "c"; str "r=1"] None None
  = Raise ValueError.
Proof.
  apply (parse_items_malformed_item [str "MSG_OK"; str "c"] 1 (str "c")
           [str "r=1"] None None).
  vm_compute. discriminate.
Defined.

Lemma frame_unknown_key_witness :
  frame false false
    {| fs_src := frame_text (str "MSG_BAD x=1") (str "OK") (str "OK");
       fs_lines := 5; fs_translation := Some (str "OK") |}
  = ([], Raise (RuntimeError
                  (str "Unknown display definition "
                   ++ fst (readline (fs_src
                        {| fs_src := frame_text (str "MSG_BAD x=1") (str "OK")
                                       (str "OK");
                           fs_lines := 5; fs_translation := Some (str "OK") |}))
                   ++ str " on line "
                   ++ str_of_Z (fs_lines
                        {| fs_src := frame_text (str "MSG_BAD x=1") (str "OK")
                                       (str "OK");
                           fs_lines := 5;
                           fs_translation := Some (str "OK") |})))).
Proof.
  apply (frame_unknown_key false false
           {| fs_src := frame_text (str "MSG_BAD x=1") (str "OK") (str "OK");
              fs_lines := 5; fs_translation := Some (str "OK") |}
           (str "x=1" ++ [c_lf]) [] (str "x") (str "1" ++ [c_lf]));
    reflexivity.
Defined.

Lemma parse_items_last_value_witness :
  parse_items [str "MSG_OK"] 1 ([str "c=5"; str "r=2"] ++ [str "c=" ++ str "7"])
    None None
  = Ok (Some 7, Some 2)
  /\ parse_items [str "MSG_OK"] 1 ([str "c=5"; str "r=2"] ++ [str "r=" ++ str "7"])
       None None
     = Ok (Some 5, Some 7).
Proof.
  apply (parse_items_last_value [str "MSG_OK"] 1 [str "c=5"; str "r=2"] (str "7") 7
           None None (Some 5) (Some 2)).
  - reflexivity.
  - vm_compute. intuition discriminate.
  - reflexivity.
Defined.

Lemma wrap_lines_fit_witness :
  Forall (fun l => len l <= 5) [str "abcde"; str "fgh"].
Proof.
  apply (wrap_lines_fit 5 (str "abcdefgh") [str "abcde"; str "fgh"]).
  vm_compute. reflexivity.
Defined.


Lemma frame_stops_at_separator_witness :
  frame false false
    {| fs_src := str "MSG_OK c=20 r=1" ++ c_lf :: str "OK" ++ c_lf :: str "OK"
                 ++ c_lf :: str "#" ++ c_lf :: str "MSG_NEXT c=1 r=1";
       fs_lines := 1; fs_translation := None |}
  = frame false false
      {| fs_src := str "MSG_OK c=20 r=1" ++ c_lf :: str "OK" ++ c_lf :: str "OK"
                   ++ c_lf :: str "#" ++ [c_lf];
         fs_lines := 1; fs_translation := None |}
  /\ forall st',
       snd (frame false false
              {| fs_src := str "MSG_OK c=20 r=1" ++ c_lf :: str "OK" ++ c_lf
                           :: str "OK" ++ c_lf :: str "#" ++ c_lf
                           :: str "MSG_NEXT c=1 r=1";
                 fs_lines := 1; fs_translation := None |})
       <> Ok (Some st').
Proof.
  apply (frame_stops_at_separator false false 1 None (str "MSG_OK c=20 r=1")
           (str "OK") (str "OK") (str "#") (str "MSG_NEXT c=1 r=1"));
    vm_compute; intuition discriminate.
Defined.


